(** * The device bindings of frida-node (src/device.cc)

    A shallow embedding of the [Device] wrapper class, its accessors, its
    command methods and the asynchronous operations they create, together
    with the properties of the command surface, the result marshalling and
    the ownership of native references and captured arguments. *)

From Stdlib Require Import ZArith Floats.SpecFloat.
From stdpp Require Import gmap strings list fin_maps.

(** ** Host (V8) values *)

(** The wrapper classes registered with the runtime. *)
Inductive WrapperClass :=
| DeviceClass | ApplicationClass | ProcessClass | SessionClass | IconClass.

(** The GLib object types handled by this file.  Pointers of different C
    types never alias, so a native object is named by its type and address. *)
Inductive GType :=
| FRIDA_TYPE_DEVICE | FRIDA_TYPE_APPLICATION | FRIDA_TYPE_PROCESS
| FRIDA_TYPE_SESSION | FRIDA_TYPE_ICON
| FRIDA_TYPE_APPLICATION_LIST | FRIDA_TYPE_PROCESS_LIST.

#[global] Instance GType_eq_dec : EqDecision GType.
Proof. solve_decision. Defined.

Definition GType_code (t : GType) : nat :=
  match t with
  | FRIDA_TYPE_DEVICE => 0 | FRIDA_TYPE_APPLICATION => 1
  | FRIDA_TYPE_PROCESS => 2 | FRIDA_TYPE_SESSION => 3 | FRIDA_TYPE_ICON => 4
  | FRIDA_TYPE_APPLICATION_LIST => 5 | FRIDA_TYPE_PROCESS_LIST => 6
  end.

Definition GType_of_code (n : nat) : GType :=
  match n with
  | 0 => FRIDA_TYPE_DEVICE | 1 => FRIDA_TYPE_APPLICATION
  | 2 => FRIDA_TYPE_PROCESS | 3 => FRIDA_TYPE_SESSION | 4 => FRIDA_TYPE_ICON
  | 5 => FRIDA_TYPE_APPLICATION_LIST | _ => FRIDA_TYPE_PROCESS_LIST
  end.

#[global] Instance GType_countable : Countable GType.
Proof. apply (inj_countable' GType_code GType_of_code). by intros []. Defined.

(** A native object: its type and its address. *)
Definition GObject : Type := GType * positive.

(** A JavaScript number is an IEEE double: sign, mantissa and exponent, or
    a zero, an infinity or NaN. *)
Definition double : Type := spec_float.

(** [v8::Value].  A string carries its UTF-8 bytes (what [String::Utf8Value]
    yields); an array is a reference into the store of host arrays, so that
    it can be mutated by its owner after it was passed to a method; a
    promise is named by the index of its operation. *)
Inductive Value :=
| VUndefined
| VNull
| VBoolean (b : bool)
| VNumber (d : double)
| VString (utf8 : string)
| VArray (ref : positive)
| VExternal (p : positive)
| VObject (cls : WrapperClass) (handle : GObject)
| VPromise (id : nat).

Definition IsArray (v : Value) : bool :=
  match v with VArray _ => true | _ => false end.

Definition IsString (v : Value) : bool :=
  match v with VString _ => true | _ => false end.

Definition IsNumber (v : Value) : bool :=
  match v with VNumber _ => true | _ => false end.

(** An element of a host array, as a read of it finds it: a value (the
    value of a data element, undefined for a hole, what the getter of an
    accessor returns), or a read that throws, as the read of an accessor
    does whose getter throws.  A getter that returns is taken to have no
    effect of its own. *)
Inductive Element :=
| Holds (v : Value)
| Throws.

Definition string_element (s : string) : Element := Holds (VString s).

(** [info.Length()] and [info[i]] of a [FunctionCallbackInfo]: reading past
    the arguments yields undefined. *)
Definition info_Length (info : list Value) : Z := Z.of_nat (length info).

Definition info_at (info : list Value) (i : nat) : Value :=
  default VUndefined (info !! i).

(** What a method leaves in its callback info: a return value, or a pending
    exception raised with [Nan::ThrowTypeError]. *)
Inductive Completion :=
| Returned (v : Value)
| ThrewTypeError (message : string).

(** ** Numbers *)

Definition INT64_MIN : Z := - 2 ^ 63.
Definition INT64_MAX : Z := 2 ^ 63 - 1.
Definition UINT32_MOD : Z := 2 ^ 32.

(** Arithmetic on [uint32_t] wraps around. *)
Definition uint32 (z : Z) : Z := z mod UINT32_MOD.

(** [Nan::New<v8::Uint32>(n)]: the number whose value is [n]. *)
Definition number_of_Z (z : Z) : double :=
  match z with
  | Z0 => S754_zero false
  | Zpos p => S754_finite false p 0
  | Zneg p => S754_finite true p 0
  end.

Definition New_Uint32 (n : Z) : Value := VNumber (number_of_Z n).

(** The integral part of m * 2^e, rounded towards zero. *)
Definition truncate (s : bool) (m : positive) (e : Z) : Z :=
  let magnitude := Z.shiftl (Zpos m) e in
  if s then - magnitude else magnitude.

(** Converting a double that does not fit to [int64_t] is left to the
    hardware.  A negative excess yields [INT64_MIN] on x86-64 and on AArch64
    alike; a positive excess yields [INT64_MIN] on x86-64 and [INT64_MAX] on
    AArch64, so it is taken from the platform. *)
Class Platform := Build_Platform {
  int64_of_positive_excess : Z
}.

Definition int64_of_excess `{Platform} (negative : bool) : Z :=
  if negative then INT64_MIN else int64_of_positive_excess.

(** [value->ToInteger()->Value()]: NaN becomes 0, a finite number is
    truncated towards zero, and the result is narrowed to [int64_t]. *)
Definition ToInteger_Value `{Platform} (d : double) : Z :=
  match d with
  | S754_nan => 0
  | S754_zero _ => 0
  | S754_infinity s => int64_of_excess s
  | S754_finite s m e =>
      let t := truncate s m e in
      if (INT64_MIN <=? t)%Z && (t <=? INT64_MAX)%Z then t
      else int64_of_excess s
  end.

(** The comparison [d <= 0] of doubles; it is false of NaN. *)
Definition number_le_zero (d : double) : bool :=
  match d with
  | S754_nan => false
  | S754_zero _ => true
  | S754_infinity s => s
  | S754_finite s _ _ => s
  end.

(** [static_cast<guint>(pid)]. *)
Definition guint_of_int64 (z : Z) : Z := z mod UINT32_MOD.

(** ** C strings and the GLib heap *)

(** The bytes of a buffer up to its first NUL. *)
Fixpoint c_str (s : string) : string :=
  match s with
  | EmptyString => EmptyString
  | String c rest =>
      if Ascii.eqb c Ascii.zero then EmptyString else String c (c_str rest)
  end.

(** An address of the heap. *)
Abbreviation addr := positive.

(** A pointer is NULL or an address. *)
Abbreviation ptr := (option positive).

(** An allocated block: a NUL-terminated string ([gchar *]) or a vector of
    pointers ([gchar **]). *)
Inductive Block :=
| Chars (s : string)
| Pointers (ps : list ptr).

(** ** Native handles *)

(** [FridaDeviceType]; a C enum can hold a value outside its enumerators. *)
Inductive FridaDeviceType :=
| FRIDA_DEVICE_TYPE_LOCAL
| FRIDA_DEVICE_TYPE_TETHER
| FRIDA_DEVICE_TYPE_REMOTE
| FRIDA_DEVICE_TYPE_unlisted (raw : Z).

(** A [FridaDevice *]: the address of the object and what its native getters
    return. *)
Record FridaDevice := {
  device_address : positive;
  frida_device_get_id : Z;
  frida_device_get_name : string;
  frida_device_get_icon : option positive;
  frida_device_get_dtype : FridaDeviceType
}.

(** A [FridaApplicationList *] or [FridaProcessList *]: the address of the
    container and the addresses of its elements, in native order. *)
Record FridaList := {
  list_address : positive;
  list_items : list positive
}.

Definition device_object (d : FridaDevice) : GObject :=
  (FRIDA_TYPE_DEVICE, device_address d).

Record GError := { error_message : string }.

(** What a native finish call leaves behind: its return value and the error
    slot. *)
Record GAsyncResult (R : Type) := {
  finish_value : R;
  finish_error : option GError
}.
Arguments finish_value {R} _.
Arguments finish_error {R} _.

(** ** Operations *)

(** A member that the constructor leaves indeterminate until [End] assigns
    it. *)
Inductive member (A : Type) :=
| indeterminate
| assigned (a : A).
Arguments indeterminate {A}.
Arguments assigned {A} _.

(** The subclasses of [Operation<FridaDevice>], with their data members. *)
Inductive Operation :=
| GetFrontmostApplicationOperation (application_ : member (option positive))
| EnumerateApplicationsOperation (applications_ : member (option FridaList))
| EnumerateProcessesOperation (processes_ : member (option FridaList))
| SpawnOperation (path_ argv_ envp_ : ptr) (pid_ : member Z)
| ResumeOperation (pid_ : Z)
| KillOperation (pid_ : Z)
| AttachOperation (pid_ : Z) (session_ : member (option positive)).

(** The [Device] wrapper: a [GLibObject] holding [handle_]. *)
Record Device := {
  handle_ : FridaDevice
}.

(** A scheduled operation and the wrapper it was scheduled on. *)
Record Scheduled := {
  scheduled_operation : Operation;
  scheduled_wrapper : Device
}.

(** ** The world the bindings run in *)

(** The calls into the native library that start an asynchronous call. *)
Inductive NativeCall :=
| frida_device_get_frontmost_application (handle : FridaDevice)
| frida_device_enumerate_applications (handle : FridaDevice)
| frida_device_enumerate_processes (handle : FridaDevice)
| frida_device_spawn (handle : FridaDevice) (path : option string)
    (argv : list string) (argv_length : Z)
    (envp : list string) (envp_length : Z)
| frida_device_resume (handle : FridaDevice) (pid : Z)
| frida_device_kill (handle : FridaDevice) (pid : Z)
| frida_device_attach (handle : FridaDevice) (pid : Z).

(** What is observable of a run, in program order. *)
Inductive Event :=
| EvAlloc (a : addr)
| EvFree (a : addr)
| EvRef (o : GObject)
| EvUnref (o : GObject)
| EvWrap (cls : WrapperClass) (o : GObject)
| EvArraySet (array : positive) (index : nat) (v : Value)
| EvSchedule (id : nat)
| EvBegin (c : NativeCall).

Record World := {
  heap : gmap addr Block;
  arrays : gmap positive (list Element);
  refcounts : gmap GObject nat;
  environ : list string;
  operations : list Scheduled;
  trace : list Event
}.

Definition with_heap (f : gmap addr Block -> gmap addr Block) (w : World) : World :=
  {| heap := f (heap w); arrays := arrays w; refcounts := refcounts w;
     environ := environ w; operations := operations w; trace := trace w |}.

Definition with_arrays (f : gmap positive (list Element) -> gmap positive (list Element))
    (w : World) : World :=
  {| heap := heap w; arrays := f (arrays w); refcounts := refcounts w;
     environ := environ w; operations := operations w; trace := trace w |}.

Definition with_refcounts (f : gmap GObject nat -> gmap GObject nat) (w : World) : World :=
  {| heap := heap w; arrays := arrays w; refcounts := f (refcounts w);
     environ := environ w; operations := operations w; trace := trace w |}.

Definition with_operations (f : list Scheduled -> list Scheduled) (w : World) : World :=
  {| heap := heap w; arrays := arrays w; refcounts := refcounts w;
     environ := environ w; operations := f (operations w); trace := trace w |}.

Definition emit (e : Event) (w : World) : World :=
  {| heap := heap w; arrays := arrays w; refcounts := refcounts w;
     environ := environ w; operations := operations w; trace := trace w ++ [e] |}.

(** The reference count of a native object; an object nobody references has
    none. *)
Definition refcount (w : World) (o : GObject) : nat :=
  default 0 (refcounts w !! o).

(** ** Computations *)

(** The ways a run can end other than by returning. *)
Inductive Fault :=
| NullDereference
| InvalidAccess
| InvalidFree
| InvalidUnref
| IndeterminateRead
| AssertionFailure
| FatalError.

Inductive Outcome (A : Type) :=
| Done (a : A) (w : World)
| Crashed (f : Fault).
Arguments Done {A} _ _.
Arguments Crashed {A} _.

Definition M (A : Type) : Type := World -> Outcome A.

Definition ret {A} (a : A) : M A := fun w => Done a w.

Definition bind {A B} (m : M A) (k : A -> M B) : M B :=
  fun w => match m w with
           | Done a w' => k a w'
           | Crashed f => Crashed f
           end.

Definition crash {A} (f : Fault) : M A := fun _ => Crashed f.

Definition get_world : M World := fun w => Done w w.

Definition update (f : World -> World) : M unit := fun w => Done tt (f w).

Notation "'let*' x ':=' c 'in' k" := (bind c (fun x => k))
  (at level 10, x name, c at level 100, k at level 200).
Notation "c ';;' k" := (bind c (fun _ => k))
  (at level 100, k at level 200, right associativity).

(** ** GLib *)

(** The allocator hands out an address that is not in use. *)
Definition g_malloc (b : Block) : M addr :=
  fun w =>
    let a := fresh (dom (heap w)) in
    Done a (emit (EvAlloc a) (with_heap (insert a b) w)).

(** [g_free]: NULL is ignored; freeing what is not allocated is a fault. *)
Definition g_free (p : ptr) : M unit :=
  match p with
  | None => ret tt
  | Some a =>
      fun w =>
        match heap w !! a with
        | Some _ => Done tt (emit (EvFree a) (with_heap (delete a) w))
        | None => Crashed InvalidFree
        end
  end.

(** [g_new0 (gchar *, n)]: NULL when [n] is 0, else [n] cleared pointers. *)
Definition g_new0 (n : Z) : M ptr :=
  if (n =? 0)%Z then ret None
  else let* a := g_malloc (Pointers (replicate (Z.to_nat n) None)) in
       ret (Some a).

(** [g_strdup]: NULL for NULL, else a new copy of the C string. *)
Definition g_strdup (s : option string) : M ptr :=
  match s with
  | None => ret None
  | Some bytes => let* a := g_malloc (Chars (c_str bytes)) in ret (Some a)
  end.

(** Reading the C string at an address, and the one a pointer refers
    to. *)
Definition read_chars (a : addr) : M string :=
  fun w =>
    match heap w !! a with
    | Some (Chars s) => Done s w
    | _ => Crashed InvalidAccess
    end.

Definition read_string (p : ptr) : M (option string) :=
  match p with
  | None => ret None
  | Some a => let* s := read_chars a in ret (Some s)
  end.

(** Reading [v[i]] of a vector of pointers. *)
Definition read_slot (v : ptr) (i : nat) : M ptr :=
  match v with
  | None => crash NullDereference
  | Some a =>
      fun w =>
        match heap w !! a with
        | Some (Pointers ps) =>
            match ps !! i with
            | Some p => Done p w
            | None => Crashed InvalidAccess
            end
        | _ => Crashed InvalidAccess
        end
  end.

(** The assignment [v[i] = p]. *)
Definition write_slot (v : ptr) (i : nat) (p : ptr) : M unit :=
  match v with
  | None => crash NullDereference
  | Some a =>
      fun w =>
        match heap w !! a with
        | Some (Pointers ps) =>
            if decide (i < length ps)%nat
            then Done tt (with_heap (insert a (Pointers (<[i := p]> ps))) w)
            else Crashed InvalidAccess
        | _ => Crashed InvalidAccess
        end
  end.

(** The slots of a NULL-terminated vector up to its terminator; running off
    the block without meeting one is a fault. *)
Fixpoint until_null (ps : list ptr) : option (list addr) :=
  match ps with
  | [] => None
  | None :: _ => Some []
  | Some a :: rest => cons a <$> until_null rest
  end.

Definition read_strv (v : addr) : M (list addr) :=
  fun w =>
    match heap w !! v with
    | Some (Pointers ps) =>
        match until_null ps with
        | Some items => Done items w
        | None => Crashed InvalidAccess
        end
    | _ => Crashed InvalidAccess
    end.

Fixpoint free_each (items : list addr) : M unit :=
  match items with
  | [] => ret tt
  | a :: rest => g_free (Some a) ;; free_each rest
  end.

(** [g_strfreev]: NULL is ignored; else every string up to the terminator is
    freed, then the vector. *)
Definition g_strfreev (v : ptr) : M unit :=
  match v with
  | None => ret tt
  | Some a =>
      let* items := read_strv a in
      free_each items ;;
      g_free (Some a)
  end.

(** [g_strv_length]. *)
Definition g_strv_length (v : ptr) : M Z :=
  match v with
  | None => crash NullDereference
  | Some a => let* items := read_strv a in ret (Z.of_nat (length items))
  end.

Fixpoint strdup_each (strings : list string) : M (list ptr) :=
  match strings with
  | [] => ret []
  | s :: rest =>
      let* p := g_strdup (Some s) in
      let* ps := strdup_each rest in
      ret (p :: ps)
  end.

(** [g_get_environ]: a newly allocated, NULL-terminated copy of the
    environment of the process. *)
Definition g_get_environ : M ptr :=
  let* w := get_world in
  let* copies := strdup_each (environ w) in
  let* v := g_malloc (Pointers (copies ++ [None])) in
  ret (Some v).

(** The strings of a NULL-terminated vector, as the native library reads
    them. *)
Fixpoint read_each (items : list addr) : M (list string) :=
  match items with
  | [] => ret []
  | a :: rest =>
      let* s := read_chars a in
      let* ss := read_each rest in
      ret (s :: ss)
  end.

Definition read_strings (v : ptr) : M (list string) :=
  match v with
  | None => crash NullDereference
  | Some a => let* items := read_strv a in read_each items
  end.

(** [g_object_ref]. *)
Definition g_object_ref (o : GObject) : M unit :=
  update (fun w => emit (EvRef o) (with_refcounts (insert o (S (refcount w o))) w)).

(** [g_object_unref] (and [frida_unref]): dropping the last reference
    finalizes the object; an object without references cannot be released. *)
Definition g_object_unref (o : GObject) : M unit :=
  fun w =>
    match refcount w o with
    | O => Crashed InvalidUnref
    | S O => Done tt (emit (EvUnref o) (with_refcounts (delete o) w))
    | S n => Done tt (emit (EvUnref o) (with_refcounts (insert o n) w))
    end.

Definition frida_unref (o : GObject) : M unit := g_object_unref o.

(** ** Host arrays *)

(** [Nan::New<v8::Array>(size)]: a new array of [size] holes. *)
Definition New_Array (size : Z) : M positive :=
  fun w =>
    let r := fresh (dom (arrays w)) in
    Done r (with_arrays (insert r (replicate (Z.to_nat size) (Holds VUndefined))) w).

(** [Local<v8::Array>::Cast (value)]: the array behind a reference, that is
    its elements; its [Length()] is their number.  Nothing is read yet. *)
Definition Array_elements (r : positive) : M (list Element) :=
  fun w =>
    match arrays w !! r with
    | Some elements => Done elements w
    | None => Crashed InvalidAccess
    end.

(** [Nan::Get (elements, i)] on the element at the index: a [MaybeLocal],
    which is empty when the read has thrown. *)
Definition Nan_Get (element : Element) : option Value :=
  match element with
  | Holds v => Some v
  | Throws => None
  end.

(** [ToLocalChecked ()]: what a [MaybeLocal] holds; on an empty one V8
    reports a fatal error and aborts the process. *)
Definition ToLocalChecked {A} (m : option A) : M A :=
  match m with
  | Some a => ret a
  | None => crash FatalError
  end.

(** [Nan::Set(array, i, v)]: the element becomes a data element; an index
    past the end extends the array. *)
Definition set_element (i : nat) (v : Value) (elements : list Element) : list Element :=
  if decide (i < length elements)%nat then <[i := Holds v]> elements
  else elements ++ replicate (i - length elements) (Holds VUndefined) ++ [Holds v].

Definition Array_Set (r : positive) (i : nat) (v : Value) : M unit :=
  fun w =>
    match arrays w !! r with
    | Some elements =>
        Done tt (emit (EvArraySet r i v)
                   (with_arrays (insert r (set_element i v elements)) w))
    | None => Crashed InvalidAccess
    end.

(** ** The secondary wrappers *)

(** Modelled from the spec: the constructors [Application::New],
    [Process::New], [Session::New] and [Icon::New] (application.h, process.h,
    session.h and icon.h are missing from the sources).  Each returns a wrapper
    object for the handle; the wrapper acquires its own reference and does
    not consume the caller's. *)
Definition Wrapper_New (cls : WrapperClass) (o : GObject) : M Value :=
  g_object_ref o ;;
  update (emit (EvWrap cls o)) ;;
  ret (VObject cls o).

Definition Application_New : GObject -> M Value := Wrapper_New ApplicationClass.
Definition Process_New : GObject -> M Value := Wrapper_New ProcessClass.
Definition Session_New : GObject -> M Value := Wrapper_New SessionClass.

(** Modelled from the spec: [Icon::New] (icon.h is missing from the sources).
    A device may have no icon; a NULL handle is not wrapped. *)
Definition Icon_New (icon : option positive) : M Value :=
  match icon with
  | Some a => Wrapper_New IconClass (FRIDA_TYPE_ICON, a)
  | None => ret VNull
  end.

(** ** The Device wrapper *)

(** [Device::Device]: the base class stores the handle, the body acquires a
    reference to it. *)
Definition Device_ctor (handle : FridaDevice) : M Device :=
  let self := {| handle_ := handle |} in
  g_object_ref (device_object (handle_ self)) ;;
  ret self.

(** [Device::~Device]: [events_] is never assigned in this file and resetting
    it touches no native object; the body then releases the handle. *)
Definition Device_dtor (self : Device) : M unit :=
  frida_unref (device_object (handle_ self)).

(** The accessors [GetId], [GetName], [GetIcon] and [GetType] read the
    native handle of the holder. *)
Definition GetId (self : Device) : M Completion :=
  let handle := handle_ self in
  ret (Returned (New_Uint32 (frida_device_get_id handle))).

Definition GetName (self : Device) : M Completion :=
  let handle := handle_ self in
  ret (Returned (VString (frida_device_get_name handle))).

Definition GetIcon (self : Device) : M Completion :=
  let handle := handle_ self in
  let* icon := Icon_New (frida_device_get_icon handle) in
  ret (Returned icon).

(** [g_assert_not_reached ()] aborts the process. *)
Definition g_assert_not_reached {A} : M A := crash AssertionFailure.

Definition GetType (self : Device) : M Completion :=
  let handle := handle_ self in
  let* type :=
    match frida_device_get_dtype handle with
    | FRIDA_DEVICE_TYPE_LOCAL => ret "local"%string
    | FRIDA_DEVICE_TYPE_TETHER => ret "tether"%string
    | FRIDA_DEVICE_TYPE_REMOTE => ret "remote"%string
    | FRIDA_DEVICE_TYPE_unlisted _ => g_assert_not_reached
    end in
  ret (Returned (VString type)).

(** ** Scheduling *)

(** Modelled from the spec: [Operation::Schedule] and
    [Operation::GetPromise] (operation.h is missing from the sources).
    Scheduling records the operation with a hold on the wrapper and creates
    its future; the native call is started later, off the calling thread. *)
Definition Schedule (operation : Operation) (wrapper : Device) : M nat :=
  fun w =>
    let id := length (operations w) in
    let entry := {| scheduled_operation := operation;
                    scheduled_wrapper := wrapper |} in
    Done id (emit (EvSchedule id) (with_operations (fun ops => ops ++ [entry]) w)).

Definition GetPromise (id : nat) : Value := VPromise id.

Definition schedule_and_return (operation : Operation) (wrapper : Device)
    : M Completion :=
  let* id := Schedule operation wrapper in
  ret (Returned (GetPromise id)).

(** ** The command surface *)

(** The methods without arguments create their operation, schedule it on
    the wrapper and return its promise. *)
Definition GetFrontmostApplication (self : Device) (info : list Value) : M Completion :=
  let operation := GetFrontmostApplicationOperation indeterminate in
  schedule_and_return operation self.

Definition EnumerateApplications (self : Device) (info : list Value) : M Completion :=
  let operation := EnumerateApplicationsOperation indeterminate in
  schedule_and_return operation self.

Definition EnumerateProcesses (self : Device) (info : list Value) : M Completion :=
  let operation := EnumerateProcessesOperation indeterminate in
  schedule_and_return operation self.

(** The loop of [Device::Spawn] from index [i] on: the element is read, which
    aborts the process when the read throws; a string is duplicated and
    stored in [argv[i]]; any other value frees the vector and leaves NULL. *)
Fixpoint Spawn_copy (argv : ptr) (i : nat) (elements : list Element) : M ptr :=
  match elements with
  | [] => ret argv
  | element :: rest =>
      let* element_value := ToLocalChecked (Nan_Get element) in
      match element_value with
      | VString utf8 =>
          let* copy := g_strdup (Some utf8) in
          write_slot argv i copy ;;
          Spawn_copy argv (S i) rest
      | _ =>
          g_strfreev argv ;;
          ret None
      end
  end.

Definition Spawn_message : string :=
  "Bad argument, expected argv as an array of strings".

(** [Device::Spawn].  [argv] stays NULL unless there is a first argument
    and it is an array; the vector has one slot more than the array has
    elements, counted in [uint32_t]; only [argv == NULL] is refused.  The
    environment is then copied, the path is a duplicate of [argv[0]], and
    the operation is scheduled. *)
Definition Spawn (self : Device) (info : list Value) : M Completion :=
  let* argv :=
    match info_at info 0 with
    | VArray r =>
        if (1 <=? info_Length info)%Z then
          let* elements := Array_elements r in
          let length := uint32 (Z.of_nat (length elements)) in
          let* argv := g_new0 (uint32 (length + 1)) in
          Spawn_copy argv 0 elements
        else ret None
    | _ => ret None
    end in
  match argv with
  | None => ret (ThrewTypeError Spawn_message)
  | Some _ =>
      let* envp := g_get_environ in
      let* first := read_slot argv 0 in
      let* program := read_string first in
      let* path := g_strdup program in
      let operation := SpawnOperation path argv envp indeterminate in
      schedule_and_return operation self
  end.

Definition pid_message : string := "Bad argument, expected pid".

(** [value->ToInteger()->Value()] on a value; only numbers reach it. *)
Definition Value_ToInteger_Value `{Platform} (v : Value) : Z :=
  match v with
  | VNumber d => ToInteger_Value d
  | _ => 0
  end.

(** [Device::Resume], [Device::Kill] and [Device::Attach]: the argument must
    be there and be a number; its conversion to an integer must be
    positive; the operation gets it cast to [guint]. *)
Definition Resume `{Platform} (self : Device) (info : list Value) : M Completion :=
  if (info_Length info <? 1)%Z || negb (IsNumber (info_at info 0)) then
    ret (ThrewTypeError pid_message)
  else
    let pid := Value_ToInteger_Value (info_at info 0) in
    if (pid <=? 0)%Z then
      ret (ThrewTypeError pid_message)
    else
      let operation := ResumeOperation (guint_of_int64 pid) in
      schedule_and_return operation self.

Definition Kill `{Platform} (self : Device) (info : list Value) : M Completion :=
  if (info_Length info <? 1)%Z || negb (IsNumber (info_at info 0)) then
    ret (ThrewTypeError pid_message)
  else
    let pid := Value_ToInteger_Value (info_at info 0) in
    if (pid <=? 0)%Z then
      ret (ThrewTypeError pid_message)
    else
      let operation := KillOperation (guint_of_int64 pid) in
      schedule_and_return operation self.

Definition Attach `{Platform} (self : Device) (info : list Value) : M Completion :=
  if (info_Length info <? 1)%Z || negb (IsNumber (info_at info 0)) then
    ret (ThrewTypeError pid_message)
  else
    let pid := Value_ToInteger_Value (info_at info 0) in
    if (pid <=? 0)%Z then
      ret (ThrewTypeError pid_message)
    else
      let operation := AttachOperation (guint_of_int64 pid) indeterminate in
      schedule_and_return operation self.

(** ** The operations *)

(** [Begin]: the native call that starts the operation on [handle_]. *)
Definition Begin (handle : FridaDevice) (op : Operation) : M unit :=
  match op with
  | GetFrontmostApplicationOperation _ =>
      update (emit (EvBegin (frida_device_get_frontmost_application handle)))
  | EnumerateApplicationsOperation _ =>
      update (emit (EvBegin (frida_device_enumerate_applications handle)))
  | EnumerateProcessesOperation _ =>
      update (emit (EvBegin (frida_device_enumerate_processes handle)))
  | SpawnOperation path argv envp _ =>
      let* program := read_string path in
      let* arguments := read_strings argv in
      let* argv_length := g_strv_length argv in
      let* environment := read_strings envp in
      let* envp_length := g_strv_length envp in
      update (emit (EvBegin (frida_device_spawn handle program
                               arguments argv_length environment envp_length)))
  | ResumeOperation pid =>
      update (emit (EvBegin (frida_device_resume handle pid)))
  | KillOperation pid =>
      update (emit (EvBegin (frida_device_kill handle pid)))
  | AttachOperation pid _ =>
      update (emit (EvBegin (frida_device_attach handle pid)))
  end.

(** The C type of what the matching native finish call returns. *)
Definition Returns (op : Operation) : Type :=
  match op with
  | GetFrontmostApplicationOperation _ => option positive
  | EnumerateApplicationsOperation _ => option FridaList
  | EnumerateProcessesOperation _ => option FridaList
  | SpawnOperation _ _ _ _ => Z
  | ResumeOperation _ => unit
  | KillOperation _ => unit
  | AttachOperation _ _ => option positive
  end.

(** [End]: the native finish call; its return value is stored in the
    operation and its error in the slot passed by the caller. *)
Definition End (op : Operation)
    : GAsyncResult (Returns op) -> Operation * option GError :=
  match op return GAsyncResult (Returns op) -> Operation * option GError with
  | GetFrontmostApplicationOperation _ => fun result =>
      (GetFrontmostApplicationOperation (assigned (finish_value result)),
       finish_error result)
  | EnumerateApplicationsOperation _ => fun result =>
      (EnumerateApplicationsOperation (assigned (finish_value result)),
       finish_error result)
  | EnumerateProcessesOperation _ => fun result =>
      (EnumerateProcessesOperation (assigned (finish_value result)),
       finish_error result)
  | SpawnOperation path argv envp _ => fun result =>
      (SpawnOperation path argv envp (assigned (finish_value result)),
       finish_error result)
  | ResumeOperation pid => fun result =>
      (ResumeOperation pid, finish_error result)
  | KillOperation pid => fun result =>
      (KillOperation pid, finish_error result)
  | AttachOperation pid _ => fun result =>
      (AttachOperation pid (assigned (finish_value result)),
       finish_error result)
  end.

(** Reading a member of the operation. *)
Definition read_member {A} (m : member A) : M A :=
  match m with
  | assigned a => ret a
  | indeterminate => crash IndeterminateRead
  end.

(** [frida_application_list_size] and [frida_process_list_size]. *)
Definition frida_list_size (l : FridaList) : Z := Z.of_nat (length (list_items l)).

(** [frida_application_list_get] and [frida_process_list_get]: the element
    at an index, with a reference of its own for the caller. *)
Definition frida_list_get (t : GType) (l : FridaList) (i : nat) : M GObject :=
  match list_items l !! i with
  | Some a => g_object_ref (t, a) ;; ret (t, a)
  | None => crash InvalidAccess
  end.

(** The loop of the two enumerating [Result] methods, from index [i] with
    [todo] rounds left before [i] reaches the size. *)
Fixpoint Result_fill (wrap : GObject -> M Value) (t : GType) (l : FridaList)
    (array : positive) (i todo : nat) : M unit :=
  match todo with
  | O => ret tt
  | S todo' =>
      let* handle := frida_list_get t l i in
      let* wrapper := wrap handle in
      Array_Set array i wrapper ;;
      g_object_unref handle ;;
      Result_fill wrap t l array (S i) todo'
  end.

(** The body shared by the two enumerating [Result] methods.  They run after
    a finish call without error, which returns a list: a NULL list is outside
    what is modelled. *)
Definition Result_list (wrap : GObject -> M Value) (t list_t : GType)
    (list_ : option FridaList) : M Value :=
  match list_ with
  | None => crash NullDereference
  | Some l =>
      let size := frida_list_size l in
      let* array := New_Array size in
      Result_fill wrap t l array 0 (Z.to_nat size) ;;
      g_object_unref (list_t, list_address l) ;;
      ret (VArray array)
  end.

(** [Result]: the host value built from what [End] stored.  The session of
    an attach operation is passed on unchecked; a NULL session is outside
    what is modelled. *)
Definition Result (op : Operation) : M Value :=
  match op with
  | GetFrontmostApplicationOperation application_ =>
      let* handle := read_member application_ in
      match handle with
      | Some a =>
          let* application := Application_New (FRIDA_TYPE_APPLICATION, a) in
          g_object_unref (FRIDA_TYPE_APPLICATION, a) ;;
          ret application
      | None => ret VNull
      end
  | EnumerateApplicationsOperation applications_ =>
      let* list_ := read_member applications_ in
      Result_list Application_New FRIDA_TYPE_APPLICATION
        FRIDA_TYPE_APPLICATION_LIST list_
  | EnumerateProcessesOperation processes_ =>
      let* list_ := read_member processes_ in
      Result_list Process_New FRIDA_TYPE_PROCESS FRIDA_TYPE_PROCESS_LIST list_
  | SpawnOperation _ _ _ pid_ =>
      let* pid := read_member pid_ in
      ret (New_Uint32 pid)
  | ResumeOperation _ => ret VUndefined
  | KillOperation _ => ret VUndefined
  | AttachOperation _ session_ =>
      let* handle := read_member session_ in
      match handle with
      | Some a =>
          let* wrapper := Session_New (FRIDA_TYPE_SESSION, a) in
          g_object_unref (FRIDA_TYPE_SESSION, a) ;;
          ret wrapper
      | None => crash NullDereference
      end
  end.

(** [SpawnOperation::~SpawnOperation]; the other operations own nothing. *)
Definition Operation_dtor (op : Operation) : M unit :=
  match op with
  | SpawnOperation path argv envp _ =>
      g_strfreev envp ;;
      g_strfreev argv ;;
      g_free path
  | _ => ret tt
  end.

(** How a future ends up. *)
Inductive Settlement :=
| Fulfilled (v : Value)
| Rejected (message : string).

(** Modelled from the spec: the finishing step of the operation base class
    (operation.h is missing from the sources).  On the event-loop thread
    [End] runs; when it left an error the future is rejected with the
    message of the error and [Result] is skipped, otherwise the future is
    fulfilled with what [Result] builds. *)
Definition Finish (op : Operation) (result : GAsyncResult (Returns op))
    : M Settlement :=
  let (finished, error) := End op result in
  match error with
  | Some e => ret (Rejected (error_message e))
  | None => let* v := Result finished in ret (Fulfilled v)
  end.

(** ** What happens while a wrapper is alive *)

(** An event that acquires or releases a reference to the object. *)
Definition concerns (o : GObject) (e : Event) : bool :=
  match e with
  | EvRef o' | EvUnref o' => bool_decide (o' = o)
  | _ => false
  end.

(** Between its construction and its destruction a wrapper has its
    accessors read and its methods called, and the operations scheduled on
    it are started, finished and destroyed. *)
Inductive Activity :=
| ReadId
| ReadName
| ReadIcon
| ReadType
| CallGetFrontmostApplication (info : list Value)
| CallEnumerateApplications (info : list Value)
| CallEnumerateProcesses (info : list Value)
| CallSpawn (info : list Value)
| CallResume (info : list Value)
| CallKill (info : list Value)
| CallAttach (info : list Value)
| OperationBegins (op : Operation)
| OperationFinishes (op : Operation) (result : GAsyncResult (Returns op))
| OperationDestroyed (op : Operation).

Definition perform `{Platform} (self : Device) (a : Activity) : M unit :=
  match a with
  | ReadId => GetId self ;; ret tt
  | ReadName => GetName self ;; ret tt
  | ReadIcon => GetIcon self ;; ret tt
  | ReadType => GetType self ;; ret tt
  | CallGetFrontmostApplication info => GetFrontmostApplication self info ;; ret tt
  | CallEnumerateApplications info => EnumerateApplications self info ;; ret tt
  | CallEnumerateProcesses info => EnumerateProcesses self info ;; ret tt
  | CallSpawn info => Spawn self info ;; ret tt
  | CallResume info => Resume self info ;; ret tt
  | CallKill info => Kill self info ;; ret tt
  | CallAttach info => Attach self info ;; ret tt
  | OperationBegins op => Begin (handle_ self) op
  | OperationFinishes op result => Finish op result ;; ret tt
  | OperationDestroyed op => Operation_dtor op
  end.

Fixpoint perform_all `{Platform} (self : Device) (activities : list Activity) : M unit :=
  match activities with
  | [] => ret tt
  | a :: rest => perform self a ;; perform_all self rest
  end.

(** ** Vocabulary of the properties *)

(** Everything but the reference counts and the trace. *)
Definition same_memory (w w' : World) : Prop :=
  heap w' = heap w /\ arrays w' = arrays w /\
  environ w' = environ w /\ operations w' = operations w.

(** The argument is missing, is not a number, or is a number that is at most
    zero. *)
Definition pid_argument_refused (info : list Value) : Prop :=
  info = [] \/
  IsNumber (info_at info 0) = false \/
  exists d, info_at info 0 = VNumber d /\ number_le_zero d = true.

(** The world after an operation was scheduled on a wrapper. *)
Definition scheduled (op : Operation) (self : Device) (w : World) : World :=
  emit (EvSchedule (length (operations w)))
    (with_operations
       (fun ops => ops ++ [{| scheduled_operation := op; scheduled_wrapper := self |}]) w).

(** A computation is quiet about a native object when it neither acquires
    nor releases a reference to it. *)
Definition quiet {A} (o : GObject) (m : M A) : Prop :=
  forall w a w', m w = Done a w' ->
    refcount w' o = refcount w o /\
    exists events, trace w' = trace w ++ events /\
                   Forall (fun e => concerns o e = false) events.


(** The future of an operation whose [Result] ended in [outcome] is
    fulfilled with the value built. *)
Definition fulfil (outcome : Outcome Value) : Outcome Settlement :=
  match outcome with
  | Done v w => Done (Fulfilled v) w
  | Crashed f => Crashed f
  end.

(** What marshalling the elements of a native list from index [i] on logs:
    for each element in turn, the reference handed out by the list getter,
    the reference and the construction of the wrapper, the store into the
    host array, and the release of the getter's reference. *)
Fixpoint marshalling_events (cls : WrapperClass) (t : GType) (array : positive)
    (i : nat) (items : list positive) : list Event :=
  match items with
  | [] => []
  | a :: rest =>
      [EvRef (t, a); EvRef (t, a); EvWrap cls (t, a);
       EvArraySet array i (VObject cls (t, a)); EvUnref (t, a)]
      ++ marshalling_events cls t array (S i) rest
  end.

(** How often an address occurs in a native list. *)
Fixpoint occurrences (a : positive) (items : list positive) : nat :=
  match items with
  | [] => 0
  | b :: rest => (if decide (b = a) then 1 else 0) + occurrences a rest
  end.

(** The outcome of the [Result] of an enumerating operation on the native
    list [l]: it returns a new host array that has as many elements as
    [l], the element at each index being the wrapper of the element of [l]
    at that index; the trace is that of the elements in their order followed
    by the release of the container; every element has gained the one
    reference that its wrapper holds, and the container has lost one. *)
Definition marshalled (cls : WrapperClass) (t list_t : GType) (l : FridaList)
    (w : World) (outcome : Outcome Value) : Prop :=
  exists array w' elements,
    outcome = Done (VArray array) w' /\
    arrays w !! array = None /\
    arrays w' = <[array := elements]> (arrays w) /\
    Z.of_nat (length elements) = frida_list_size l /\
    (forall i a, list_items l !! i = Some a ->
                 elements !! i = Some (Holds (VObject cls (t, a)))) /\
    heap w' = heap w /\ environ w' = environ w /\ operations w' = operations w /\
    trace w' = trace w ++ marshalling_events cls t array 0 (list_items l)
                       ++ [EvUnref (list_t, list_address l)] /\
    (forall a, refcount w' (t, a) = refcount w (t, a) + occurrences a (list_items l)) /\
    S (refcount w' (list_t, list_address l)) = refcount w (list_t, list_address l).

(** Everything but the heap and the trace. *)
Definition same_but_heap (w w' : World) : Prop :=
  arrays w' = arrays w /\ refcounts w' = refcounts w /\
  environ w' = environ w /\ operations w' = operations w.

(** Each address holds the string at the same position. *)
Definition holds_strings (h : gmap addr Block) (items : list addr)
    (strings : list string) : Prop :=
  Forall2 (fun a s => h !! a = Some (Chars s)) items strings.

(** A NULL-terminated vector of strings at [v]. *)
Definition holds_strv (h : gmap addr Block) (v : addr) (items : list addr)
    (strings : list string) : Prop :=
  h !! v = Some (Pointers ((Some <$> items) ++ [None])) /\
  holds_strings h items strings.

(** The heap [h'] is [h] with new blocks at the distinct addresses [new],
    all of them unused in [h]. *)
Definition grows (h h' : gmap addr Block) (new : list addr) : Prop :=
  NoDup new /\
  (forall a, a ∈ new -> h !! a = None /\ is_Some (h' !! a)) /\
  (forall x, x ∉ new -> h' !! x = h !! x).

(** The blocks of a path pointer. *)
Definition path_blocks (path : ptr) : list addr :=
  match path with
  | Some p => [p]
  | None => []
  end.

(** In the heap [h] the members [path], [argv] and [envp] of a spawn
    operation own the distinct blocks [blocks] (in the order in which the
    destructor frees them), which hold the program path, the arguments and
    the environment. *)
Definition captured (h : gmap addr Block) (path argv envp : ptr)
    (blocks : list addr) (program : option string)
    (arguments environment : list string) : Prop :=
  exists argv_a argv_items envp_a envp_items,
    argv = Some argv_a /\ envp = Some envp_a /\
    holds_strv h argv_a argv_items arguments /\
    holds_strv h envp_a envp_items environment /\
    match path, program with
    | None, None => True
    | Some p, Some s => h !! p = Some (Chars s)
    | _, _ => False
    end /\
    blocks = envp_items ++ [envp_a] ++ argv_items ++ [argv_a] ++ path_blocks path /\
    NoDup blocks.

(** An array as long as a host array can be: a program path followed by
    holes. *)
Definition longest_array : list Value :=
  VString "/bin/true" :: replicate (Z.to_nat 4294967294) VUndefined.

(** The argument of spawn is missing, is not an array, or is an array whose
    first element that is not a string is a value: the elements before it
    are strings, and no read up to it throws.  The array has fewer than
    2^32 - 1 elements, or it has 2^32 - 1 of them and starts with that
    element. *)
Definition argv_argument_refused (w : World) (info : list Value) : Prop :=
  info = [] \/
  IsArray (info_at info 0) = false \/
  exists r strings bad more,
    info_at info 0 = VArray r /\
    arrays w !! r = Some ((string_element <$> strings) ++ Holds bad :: more) /\
    IsString bad = false /\
    ((Z.of_nat (length ((string_element <$> strings) ++ Holds bad :: more)) + 1
      < UINT32_MOD)%Z \/
     (Z.of_nat (length (Holds bad :: more)) = UINT32_MOD - 1)%Z /\ strings = []).

(** An allocation or a release of a block of the heap. *)
Definition memory_event (e : Event) : bool :=
  match e with
  | EvAlloc _ | EvFree _ => true
  | _ => false
  end.

(** A device, a wrapper of it and a world with nothing in it, for the
    examples. *)
Definition local_system : FridaDevice :=
  {| device_address := 1; frida_device_get_id := 0;
     frida_device_get_name := "Local System";
     frida_device_get_icon := Some 9%positive;
     frida_device_get_dtype := FRIDA_DEVICE_TYPE_LOCAL |}.

Definition local_wrapper : Device := {| handle_ := local_system |}.

Definition empty_world : World :=
  {| heap := ∅; arrays := ∅; refcounts := ∅; environ := ["HOME=/root"%string];
     operations := []; trace := [] |}.

(** The world in which the host array 1 has the given elements, all of them
    data elements. *)
Definition world_with_array (elements : list Value) : World :=
  with_arrays (insert 1%positive (Holds <$> elements)) empty_world.

(** The platform of the examples: x86-64. *)
Definition x86_64 : Platform := Build_Platform INT64_MIN.

(** ** Constructing Device objects *)

Definition IsExternal (v : Value) : bool :=
  match v with VExternal _ => true | _ => false end.

(** [Local<External>::Cast (v)->Value ()]: the pointer held by an external;
    the cast of any other value reads what is not there. *)
Definition External_Value (v : Value) : M positive :=
  match v with
  | VExternal p => ret p
  | _ => crash InvalidAccess
  end.

Definition New_message : string := "Bad argument, expected raw handle".

(** What a call of the constructor function leaves in its callback info: the
    new object, given by the [Device] wrapped in it and by the value of its
    [events] property, or a pending exception. *)
Inductive Construction :=
| Constructed (wrapper : Device) (events : Value)
| ConstructionThrew (message : string).

(** An accessor of the instances of a template, as [Nan::SetAccessor]
    registers it. *)
Record Accessor := {
  accessor_name : string;
  accessor_getter : Device -> M Completion;
  accessor_setter : option (Device -> Value -> M unit);
  accessor_ReadOnly : bool
}.

(** A function template, and the function made from it: the name of the
    class, the callback behind the function, the accessors of its instances
    and the methods of its prototype. *)
Record FunctionTemplate := {
  class_name : string;
  callback : bool -> list Value -> M Construction;
  instance_accessors : list Accessor;
  prototype_methods : list (string * (Device -> list Value -> M Completion))
}.

Definition CreateTemplate (name : string)
    (callback : bool -> list Value -> M Construction) : FunctionTemplate :=
  {| class_name := name; callback := callback;
     instance_accessors := []; prototype_methods := [] |}.

Definition SetAccessor (name : string) (getter : Device -> M Completion)
    (tpl : FunctionTemplate) : FunctionTemplate :=
  {| class_name := class_name tpl; callback := callback tpl;
     instance_accessors :=
       instance_accessors tpl
       ++ [{| accessor_name := name; accessor_getter := getter;
              accessor_setter := None; accessor_ReadOnly := true |}];
     prototype_methods := prototype_methods tpl |}.

Definition SetPrototypeMethod (name : string)
    (method : Device -> list Value -> M Completion)
    (tpl : FunctionTemplate) : FunctionTemplate :=
  {| class_name := class_name tpl; callback := callback tpl;
     instance_accessors := instance_accessors tpl;
     prototype_methods := prototype_methods tpl ++ [(name, method)] |}.

(** [function->NewInstance (argc, argv)]: the callback runs as a construct
    call. *)
Definition NewInstance (ctor : FunctionTemplate) (argv : list Value) : M Construction :=
  callback ctor true argv.

Definition DEVICE_DATA_CONSTRUCTOR : string := "device:ctor".

(** Modelled from the spec: the registry of constructors of a runtime
    (runtime.h is not among the sources), which maps a key to the constructor
    stored under it with [SetDataPointer] and fetched with
    [GetDataPointer]. *)
Abbreviation Runtime := (gmap string FunctionTemplate).

(** The properties of the [exports] object of the module. *)
Abbreviation Exports := (gmap string FunctionTemplate).

Section Construction.

(** The device object at an address, as the native library presents it. *)
Variable device_at : positive -> FridaDevice.

(** [Events::New] (events.h is not among the sources): whatever it does with
    the handle, it yields the value stored as the [events] property. *)
Variable Events_New : FridaDevice -> M Value.

(** [Device::New] on a construct call: exactly one argument, an external, is
    required; the handle in it is wrapped in a new [Device] (with the
    runtime found in the arguments, which plays no part here), the wrapper
    is attached to the new object, and the object gets its [events]. *)
Definition Device_construct (info : list Value) : M Construction :=
  if negb (info_Length info =? 1)%Z || negb (IsExternal (info_at info 0)) then
    ret (ConstructionThrew New_message)
  else
    let* p := External_Value (info_at info 0) in
    let handle := device_at p in
    let* wrapper := Device_ctor handle in
    let* events := Events_New handle in
    ret (Constructed wrapper events).

(** [info.Callee ()->NewInstance (argc, argv)]: the callee is the function
    whose callback is [Device::New], and [NewInstance] calls it as a
    constructor.  An exception raised in there stays pending. *)
Definition Callee_NewInstance (argv : list Value) : M Construction :=
  Device_construct argv.

(** The callback [Device::New]: a plain call constructs an instance without
    arguments. *)
Definition Device_New (IsConstructCall : bool) (info : list Value) : M Construction :=
  if IsConstructCall then Device_construct info
  else Callee_NewInstance [].

(** [Device::Init]: the template of the class gets its four read-only
    accessors and its seven methods; its function is exported under the
    name of the class and stored in the runtime. *)
Definition Init `{Platform} (exports : Exports) (runtime : Runtime)
    : Exports * Runtime :=
  let name := "Device"%string in
  let tpl := CreateTemplate name Device_New in
  let tpl := SetAccessor "id" GetId tpl in
  let tpl := SetAccessor "name" GetName tpl in
  let tpl := SetAccessor "icon" GetIcon tpl in
  let tpl := SetAccessor "type" GetType tpl in
  let tpl := SetPrototypeMethod "getFrontmostApplication" GetFrontmostApplication tpl in
  let tpl := SetPrototypeMethod "enumerateApplications" EnumerateApplications tpl in
  let tpl := SetPrototypeMethod "enumerateProcesses" EnumerateProcesses tpl in
  let tpl := SetPrototypeMethod "spawn" Spawn tpl in
  let tpl := SetPrototypeMethod "resume" Resume tpl in
  let tpl := SetPrototypeMethod "kill" Kill tpl in
  let tpl := SetPrototypeMethod "attach" Attach tpl in
  let ctor := tpl in
  (<[name := ctor]> exports, <[DEVICE_DATA_CONSTRUCTOR := ctor]> runtime).

(** [Device::New (handle, runtime)]: the constructor stored in the runtime
    is called with the handle in an external; without a stored constructor
    the pointer read is NULL. *)
Definition Device_New_handle (handle : positive) (runtime : Runtime) : M Construction :=
  match runtime !! DEVICE_DATA_CONSTRUCTOR with
  | Some ctor => NewInstance ctor [VExternal handle]
  | None => crash NullDereference
  end.

End Construction.

(** ** The wrappers of one device *)

(** Wrappers of a native device come and go. *)
Inductive Lifetime :=
| Constructs
| Destroys.

Fixpoint lifetimes (handle : FridaDevice) (steps : list Lifetime) : M unit :=
  match steps with
  | [] => ret tt
  | Constructs :: rest => Device_ctor handle ;; lifetimes handle rest
  | Destroys :: rest => Device_dtor {| handle_ := handle |} ;; lifetimes handle rest
  end.

(** The number of wrappers alive after the steps when [n] were alive before
    them; a step cannot destroy a wrapper when none is alive. *)
Fixpoint alive (n : nat) (steps : list Lifetime) : option nat :=
  match steps with
  | [] => Some n
  | Constructs :: rest => alive (S n) rest
  | Destroys :: rest =>
      match n with
      | O => None
      | S n' => alive n' rest
      end
  end.

(** A number strictly between -1 and 1, or NaN. *)
Definition vanishes (d : double) : bool :=
  match d with
  | S754_nan => true
  | S754_zero _ => true
  | S754_infinity _ => false
  | S754_finite _ m e => (Z.pos m <? 2 ^ (- e))%Z
  end.

(** What a call of a method has done when it returns: either it threw one
    of the two type errors and left the memory and the reference counts as
    they were, or it returned the promise of the one operation that it
    scheduled on the wrapper. *)
Definition scheduled_one_or_threw (self : Device) (w : World) (c : Completion)
    (w' : World) : Prop :=
  match c with
  | Returned v =>
      v = VPromise (length (operations w)) /\
      (exists op, operations w'
                  = operations w ++ [{| scheduled_operation := op;
                                        scheduled_wrapper := self |}]) /\
      arrays w' = arrays w /\ refcounts w' = refcounts w /\ environ w' = environ w
  | ThrewTypeError message =>
      (message = pid_message \/ message = Spawn_message) /\
      same_memory w w' /\ refcounts w' = refcounts w
  end.

(** The device on which a native call is made. *)
Definition call_device (c : NativeCall) : FridaDevice :=
  match c with
  | frida_device_get_frontmost_application handle
  | frida_device_enumerate_applications handle
  | frida_device_enumerate_processes handle
  | frida_device_spawn handle _ _ _ _ _
  | frida_device_resume handle _
  | frida_device_kill handle _
  | frida_device_attach handle _ => handle
  end.

(** An operation whose [Begin] starts one native call, on the device, and
    does nothing else, and whose destructor, whatever the finish call has
    returned, runs and leaves the heap [h]. *)
Definition runs_safely (handle : FridaDevice) (op : Operation) (h : gmap addr Block)
    (w : World) : Prop :=
  exists call,
    Begin handle op w = Done tt (emit (EvBegin call) w) /\
    call_device call = handle /\
    forall result : GAsyncResult (Returns op),
      exists w', Operation_dtor (End op result).1 (emit (EvBegin call) w) = Done tt w' /\
                 heap w' = h.

(** The devices and the events of the examples. *)
Definition device_of_examples (p : positive) : FridaDevice :=
  {| device_address := p; frida_device_get_id := 0;
     frida_device_get_name := "Local System";
     frida_device_get_icon := None;
     frida_device_get_dtype := FRIDA_DEVICE_TYPE_LOCAL |}.

Definition events_of_examples (handle : FridaDevice) : M Value := ret VUndefined.

(** * Properties *)

(** ** Examples *)

Example resume_zero :
  Resume (H := x86_64) local_wrapper [VNumber (S754_zero false)] empty_world
    = Done (ThrewTypeError "Bad argument, expected pid") empty_world.
Proof. reflexivity. Qed.

Example resume_minus_five :
  Resume (H := x86_64) local_wrapper [VNumber (S754_finite true 5 0)] empty_world
    = Done (ThrewTypeError "Bad argument, expected pid") empty_world.
Proof. reflexivity. Qed.

Example resume_string :
  Resume (H := x86_64) local_wrapper [VString "x"] empty_world
    = Done (ThrewTypeError "Bad argument, expected pid") empty_world.
Proof. reflexivity. Qed.

Example resume_pid :
  Resume (H := x86_64) local_wrapper [VNumber (S754_finite false 4242 0)] empty_world
    = Done (Returned (VPromise 0))
        (scheduled (ResumeOperation 4242) local_wrapper empty_world).
Proof. reflexivity. Qed.

Example spawn_not_an_array :
  Spawn local_wrapper [VString "not-an-array"] empty_world
    = Done (ThrewTypeError "Bad argument, expected argv as an array of strings")
        empty_world.
Proof. reflexivity. Qed.

Example spawn_no_argument :
  Spawn local_wrapper [] empty_world
    = Done (ThrewTypeError "Bad argument, expected argv as an array of strings")
        empty_world.
Proof. reflexivity. Qed.

Example spawn_bin_true :
  exists w', Spawn local_wrapper [VArray 1] (world_with_array [VString "/bin/true"])
             = Done (Returned (VPromise 0)) w'.
Proof. eexists. vm_compute. reflexivity. Qed.

Example type_of_local_system :
  GetType local_wrapper empty_world = Done (Returned (VString "local")) empty_world.
Proof. reflexivity. Qed.

(** ** Conversions of numbers *)

Lemma truncate_negative_nonpos (m : positive) (e : Z) : (truncate true m e <= 0)%Z.
Proof.
  unfold truncate.
  assert (0 <= Z.shiftl (Z.pos m) e)%Z by (apply Z.shiftl_nonneg; lia).
  lia.
Qed.

Lemma ToInteger_Value_le_zero `{Platform} (d : double) :
  number_le_zero d = true -> (ToInteger_Value d <= 0)%Z.
Proof.
  destruct d as [s|s| |s m e]; simpl; intros Hd; try discriminate; try lia.
  - subst s. unfold int64_of_excess, INT64_MIN. lia.
  - subst s. pose proof (truncate_negative_nonpos m e).
    destruct (_ && _); [lia|]. unfold int64_of_excess, INT64_MIN. lia.
Qed.

Lemma ToInteger_Value_number_of_Z `{Platform} (n : Z) :
  (0 <= n < UINT32_MOD)%Z -> ToInteger_Value (number_of_Z n) = n.
Proof.
  unfold UINT32_MOD. intros Hn. destruct n as [|p|p]; simpl; [done| |lia].
  unfold truncate. rewrite Z.shiftl_0_r.
  unfold INT64_MIN, INT64_MAX.
  destruct (Z.leb_spec (- 2 ^ 63) (Z.pos p)); [|lia].
  destruct (Z.leb_spec (Z.pos p) (2 ^ 63 - 1)); [done|lia].
Qed.

(** ** The type accessor *)

(** C6.  Reading the [type] field returns exactly one of the strings local,
    tether and remote, as the native device type tells; on any other value
    of the enum the read aborts on the assertion: it returns nothing and
    raises no host exception. *)
Theorem GetType_tag_or_abort (self : Device) (w : World) :
  match frida_device_get_dtype (handle_ self) with
  | FRIDA_DEVICE_TYPE_LOCAL => GetType self w = Done (Returned (VString "local")) w
  | FRIDA_DEVICE_TYPE_TETHER => GetType self w = Done (Returned (VString "tether")) w
  | FRIDA_DEVICE_TYPE_REMOTE => GetType self w = Done (Returned (VString "remote")) w
  | FRIDA_DEVICE_TYPE_unlisted _ => GetType self w = Crashed AssertionFailure
  end.
Proof.
  unfold GetType. destruct (frida_device_get_dtype (handle_ self)); reflexivity.
Qed.

(** ** Running computations *)

Lemma bind_ret_l {A B} (a : A) (k : A -> M B) (w : World) :
  bind (ret a) k w = k a w.
Proof. reflexivity. Qed.

Lemma bind_assoc {A B C} (m : M A) (k1 : A -> M B) (k2 : B -> M C) (w : World) :
  bind (bind m k1) k2 w = bind m (fun a => bind (k1 a) k2) w.
Proof. unfold bind. by destruct (m w). Qed.

Lemma bind_run {A B} (m : M A) (k : A -> M B) (w w' : World) (a : A) :
  m w = Done a w' -> bind m k w = k a w'.
Proof. unfold bind. by intros ->. Qed.

Lemma bind_crashed {A B} (m : M A) (k : A -> M B) (w : World) (f : Fault) :
  m w = Crashed f -> bind m k w = Crashed f.
Proof. unfold bind. by intros ->. Qed.

Ltac norm := repeat first [rewrite bind_assoc | rewrite bind_ret_l].
Ltac run H := norm; rewrite (bind_run _ _ _ _ _ H); norm.

(** ** Reference counts *)

Lemma refcount_insert (w : World) (o o' : GObject) (n : nat) :
  refcount (with_refcounts (insert o n) w) o' =
  if decide (o' = o) then n else refcount w o'.
Proof.
  unfold refcount; simpl. case_decide as Ho.
  - subst o'. by rewrite lookup_insert_eq.
  - by rewrite lookup_insert_ne.
Qed.

Lemma refcount_delete (w : World) (o o' : GObject) :
  refcount (with_refcounts (delete o) w) o' =
  if decide (o' = o) then 0 else refcount w o'.
Proof.
  unfold refcount; simpl. case_decide as Ho.
  - subst o'. by rewrite lookup_delete_eq.
  - by rewrite lookup_delete_ne.
Qed.

Lemma same_memory_refl (w : World) : same_memory w w.
Proof. by repeat split. Qed.

Lemma same_memory_trans (w1 w2 w3 : World) :
  same_memory w1 w2 -> same_memory w2 w3 -> same_memory w1 w3.
Proof.
  unfold same_memory. intros (-> & -> & -> & ->) (-> & -> & -> & ->). done.
Qed.

Lemma g_object_ref_run (o : GObject) (w : World) :
  exists w', g_object_ref o w = Done tt w' /\ same_memory w w' /\
    trace w' = trace w ++ [EvRef o] /\
    forall o', refcount w' o' = if decide (o' = o) then S (refcount w o) else refcount w o'.
Proof.
  eexists; split; [reflexivity|]. split; [by repeat split|]. split; [done|].
  intros o'. apply refcount_insert.
Qed.

Lemma g_object_unref_run (o : GObject) (w : World) (n : nat) :
  refcount w o = S n ->
  exists w', g_object_unref o w = Done tt w' /\ same_memory w w' /\
    trace w' = trace w ++ [EvUnref o] /\
    forall o', refcount w' o' = if decide (o' = o) then n else refcount w o'.
Proof.
  intros Hn. unfold g_object_unref. rewrite Hn. destruct n as [|n].
  - eexists; split; [reflexivity|]. split; [by repeat split|]. split; [done|].
    intros o'. apply refcount_delete.
  - eexists; split; [reflexivity|]. split; [by repeat split|]. split; [done|].
    intros o'. apply refcount_insert.
Qed.

Lemma Wrapper_New_run (cls : WrapperClass) (o : GObject) (w : World) :
  exists w', Wrapper_New cls o w = Done (VObject cls o) w' /\ same_memory w w' /\
    trace w' = trace w ++ [EvRef o; EvWrap cls o] /\
    forall o', refcount w' o' = if decide (o' = o) then S (refcount w o) else refcount w o'.
Proof.
  eexists; split; [reflexivity|]. split; [by repeat split|]. split.
  - simpl. by rewrite <- app_assoc.
  - intros o'. apply refcount_insert.
Qed.

(** ** Settling the futures *)

(** Without a native error the future is fulfilled with what [Result]
    builds from the operation as [End] left it. *)
Lemma Finish_fulfils (op : Operation) (result : GAsyncResult (Returns op)) (w : World) :
  finish_error result = None ->
  Finish op result w = fulfil (Result (End op result).1 w).
Proof.
  intros Herr. unfold Finish.
  assert ((End op result).2 = None) as Hnone by (destruct op; exact Herr).
  destruct (End op result) as [finished error]. cbn [fst snd] in *. subst error.
  unfold bind, fulfil. by destruct (Result finished w).
Qed.

(** C3.  A getFrontmostApplication operation that completed without a native
    error fulfils its future with what its result method returns: null when
    the finish call returned no application, and otherwise an Application
    wrapper of the returned handle, the wrapper holding the one reference
    that remains.  It is never rejected for want of an application. *)
Theorem GetFrontmostApplication_fulfilled (m : member (option positive))
    (result : GAsyncResult (option positive)) (w : World) :
  finish_error result = None ->
  let finished := (End (GetFrontmostApplicationOperation m) result).1 in
  Finish (GetFrontmostApplicationOperation m) result w = fulfil (Result finished w) /\
  match finish_value result with
  | None => Result finished w = Done VNull w
  | Some a =>
      let o := (FRIDA_TYPE_APPLICATION, a) in
      exists w',
        Result finished w = Done (VObject ApplicationClass o) w' /\
        same_memory w w' /\
        trace w' = trace w ++ [EvRef o; EvWrap ApplicationClass o; EvUnref o] /\
        forall o', refcount w' o' = refcount w o'
  end.
Proof.
  intros Herr finished. split; [by apply (Finish_fulfils (GetFrontmostApplicationOperation m))|].
  unfold finished. destruct result as [value error]. cbn [End fst finish_value].
  destruct value as [a|]; [|reflexivity].
  cbn [Result read_member]. unfold Application_New.
  destruct (Wrapper_New_run ApplicationClass (FRIDA_TYPE_APPLICATION, a) w)
    as (w1 & Hrun1 & Hmem1 & Htr1 & Hrc1).
  destruct (g_object_unref_run (FRIDA_TYPE_APPLICATION, a) w1
              (refcount w (FRIDA_TYPE_APPLICATION, a)))
    as (w2 & Hrun2 & Hmem2 & Htr2 & Hrc2).
  { rewrite Hrc1. by rewrite decide_True. }
  exists w2. split.
  - run Hrun1. run Hrun2. reflexivity.
  - split; [by eapply same_memory_trans|]. split.
    + rewrite Htr2, Htr1. by rewrite <- app_assoc.
    + intros o'. rewrite Hrc2. case_decide; [by subst|].
      rewrite Hrc1. by rewrite decide_False.
Qed.

Lemma GetFrontmostApplication_fulfilled_witness :
  let o := (FRIDA_TYPE_APPLICATION, 5%positive) in
  let w := with_refcounts (insert o 1%nat) empty_world in
  let result := {| finish_value := Some 5%positive; finish_error := None |} in
  Finish (GetFrontmostApplicationOperation indeterminate) result w
    = fulfil (Result (GetFrontmostApplicationOperation (assigned (Some 5%positive))) w) /\
  exists w',
    Result (GetFrontmostApplicationOperation (assigned (Some 5%positive))) w
      = Done (VObject ApplicationClass o) w' /\
    same_memory w w' /\
    trace w' = trace w ++ [EvRef o; EvWrap ApplicationClass o; EvUnref o] /\
    forall o', refcount w' o' = refcount w o'.
Proof.
  intros o w result.
  exact (GetFrontmostApplication_fulfilled indeterminate result w eq_refl).
Defined.

(** C7.  An operation that completed without a native error fulfils its
    future with what its result method returns: undefined for resume and for
    kill, and for spawn the process id that the native finish call returned,
    as an unsigned 32-bit host number of that value. *)
Theorem Resume_Kill_Spawn_fulfilled `{Platform} (w : World) :
  (forall (pid : Z) (result : GAsyncResult unit),
     finish_error result = None ->
     Result (End (ResumeOperation pid) result).1 w = Done VUndefined w /\
     Finish (ResumeOperation pid) result w = Done (Fulfilled VUndefined) w /\
     Result (End (KillOperation pid) result).1 w = Done VUndefined w /\
     Finish (KillOperation pid) result w = Done (Fulfilled VUndefined) w) /\
  (forall (path argv envp : ptr) (m : member Z) (result : GAsyncResult Z),
     finish_error result = None ->
     Result (End (SpawnOperation path argv envp m) result).1 w
       = Done (New_Uint32 (finish_value result)) w /\
     Finish (SpawnOperation path argv envp m) result w
       = Done (Fulfilled (New_Uint32 (finish_value result))) w /\
     ((0 <= finish_value result < 2 ^ 32)%Z ->
      Value_ToInteger_Value (New_Uint32 (finish_value result)) = finish_value result)).
Proof.
  split.
  - intros pid result Herr.
    rewrite (Finish_fulfils (ResumeOperation pid)), (Finish_fulfils (KillOperation pid)) by done.
    by repeat split.
  - intros path argv envp m result Herr.
    rewrite (Finish_fulfils (SpawnOperation path argv envp m)) by done.
    split; [done|]. split; [done|].
    intros Hpid. simpl. by apply ToInteger_Value_number_of_Z.
Qed.

Lemma Resume_Kill_Spawn_fulfilled_witness :
  let result := {| finish_value := 4242%Z; finish_error := None |} in
  Finish (SpawnOperation None None None indeterminate) result empty_world
    = Done (Fulfilled (New_Uint32 4242)) empty_world /\
  Finish (ResumeOperation 7) {| finish_value := tt; finish_error := None |} empty_world
    = Done (Fulfilled VUndefined) empty_world.
Proof.
  intros result.
  pose proof (@Resume_Kill_Spawn_fulfilled x86_64 empty_world) as [Hrk Hs].
  split.
  - exact (proj1 (proj2 (Hs None None None indeterminate result eq_refl))).
  - exact (proj1 (proj2 (Hrk 7%Z {| finish_value := tt; finish_error := None |} eq_refl))).
Defined.

(** ** Validation of the process id *)

Lemma refused_throws `{Platform} (info : list Value) :
  pid_argument_refused info ->
  (info_Length info <? 1)%Z || negb (IsNumber (info_at info 0)) = true \/
  (Value_ToInteger_Value (info_at info 0) <=? 0)%Z = true.
Proof.
  intros [-> | [Hnum | (d & Hd & Hle)]].
  - by left.
  - left. rewrite Hnum. apply orb_true_r.
  - right. rewrite Hd. simpl. apply Z.leb_le. by apply ToInteger_Value_le_zero.
Qed.

(** C2.  When the argument of resume, kill or attach is missing, is not a
    number or is at most zero, the call throws the type error "Bad argument,
    expected pid" at once: the world is left as it was, so no operation was
    created or scheduled, and what comes back is the exception, not a
    promise. *)
Theorem pid_validation_throws `{Platform} (self : Device) (info : list Value)
    (w : World) :
  pid_argument_refused info ->
  Resume self info w = Done (ThrewTypeError "Bad argument, expected pid") w /\
  Kill self info w = Done (ThrewTypeError "Bad argument, expected pid") w /\
  Attach self info w = Done (ThrewTypeError "Bad argument, expected pid") w.
Proof.
  intros Hbad. unfold Resume, Kill, Attach.
  destruct (refused_throws info Hbad) as [-> | Hle].
  - done.
  - rewrite Hle. by destruct (_ || _).
Qed.

Lemma pid_validation_throws_witness :
  let info := [VNumber (S754_finite true 5 0)] in
  Resume (H := x86_64) local_wrapper info empty_world
    = Done (ThrewTypeError "Bad argument, expected pid") empty_world /\
  Kill (H := x86_64) local_wrapper info empty_world
    = Done (ThrewTypeError "Bad argument, expected pid") empty_world /\
  Attach (H := x86_64) local_wrapper info empty_world
    = Done (ThrewTypeError "Bad argument, expected pid") empty_world.
Proof.
  intros info.
  apply (@pid_validation_throws x86_64 local_wrapper info empty_world).
  right; right. exists (S754_finite true 5 0). split; reflexivity.
Defined.



(** ** The lifetime of a wrapper *)

Lemma quiet_ret {A} (o : GObject) (a : A) : quiet o (ret a).
Proof.
  intros w a' w' [= <- <-]. split; [done|]. exists []. by rewrite app_nil_r.
Qed.

Lemma quiet_crash {A} (o : GObject) (f : Fault) : quiet o (@crash A f).
Proof. intros w a w' [=]. Qed.

Lemma quiet_bind {A B} (o : GObject) (m : M A) (k : A -> M B) :
  quiet o m -> (forall a, quiet o (k a)) -> quiet o (bind m k).
Proof.
  intros Hm Hk w b w'. unfold bind. destruct (m w) as [a w1|] eqn:Hrun; [|done].
  intros Hrun'. destruct (Hm _ _ _ Hrun) as (Hrc1 & ev1 & Htr1 & Hq1).
  destruct (Hk _ _ _ _ Hrun') as (Hrc2 & ev2 & Htr2 & Hq2).
  split; [congruence|]. exists (ev1 ++ ev2). split.
  - by rewrite Htr2, Htr1, app_assoc.
  - by apply Forall_app.
Qed.

(** A step that leaves the reference counts alone and logs at most one
    event, which does not concern the object. *)
Lemma quiet_step {A} (o : GObject) (m : M A) :
  (forall w a w', m w = Done a w' ->
     refcounts w' = refcounts w /\
     (trace w' = trace w \/
      exists e, trace w' = trace w ++ [e] /\ concerns o e = false)) ->
  quiet o m.
Proof.
  intros Hm w a w' Hrun. destruct (Hm _ _ _ Hrun) as (Hrc & Htr). split.
  - unfold refcount. by rewrite Hrc.
  - destruct Htr as [Htr | (e & Htr & He)].
    + exists []. by rewrite app_nil_r.
    + exists [e]. split; [done|]. by constructor.
Qed.

Ltac quiet_primitive :=
  apply quiet_step; intros w ? w' Hrun;
  repeat (simplify_eq /=; try case_match; simplify_eq /=);
  (split; [reflexivity | first [by left | right; eexists; split; [reflexivity | done]]]).

Lemma quiet_g_malloc (o : GObject) (b : Block) : quiet o (g_malloc b).
Proof. unfold g_malloc. quiet_primitive. Qed.

Lemma quiet_g_free (o : GObject) (p : ptr) : quiet o (g_free p).
Proof. destruct p; [|apply quiet_ret]. unfold g_free. quiet_primitive. Qed.

Lemma quiet_read_chars (o : GObject) (a : addr) : quiet o (read_chars a).
Proof. unfold read_chars. quiet_primitive. Qed.

Lemma quiet_read_string (o : GObject) (p : ptr) : quiet o (read_string p).
Proof.
  destruct p; [|apply quiet_ret]. unfold read_string.
  apply quiet_bind; [apply quiet_read_chars|intros s; apply quiet_ret].
Qed.

Lemma quiet_read_slot (o : GObject) (v : ptr) (i : nat) : quiet o (read_slot v i).
Proof. destruct v; [|apply quiet_crash]. unfold read_slot. quiet_primitive. Qed.

Lemma quiet_write_slot (o : GObject) (v : ptr) (i : nat) (p : ptr) :
  quiet o (write_slot v i p).
Proof. destruct v; [|apply quiet_crash]. unfold write_slot. quiet_primitive. Qed.

Lemma quiet_read_strv (o : GObject) (v : addr) : quiet o (read_strv v).
Proof. unfold read_strv. quiet_primitive. Qed.

Lemma quiet_get_world (o : GObject) : quiet o get_world.
Proof. unfold get_world. quiet_primitive. Qed.

Lemma quiet_New_Array (o : GObject) (size : Z) : quiet o (New_Array size).
Proof. unfold New_Array. quiet_primitive. Qed.

Lemma quiet_Array_elements (o : GObject) (r : positive) : quiet o (Array_elements r).
Proof. unfold Array_elements. quiet_primitive. Qed.

Lemma quiet_Array_Set (o : GObject) (r : positive) (i : nat) (v : Value) :
  quiet o (Array_Set r i v).
Proof. unfold Array_Set. quiet_primitive. Qed.

Lemma quiet_Schedule (o : GObject) (op : Operation) (self : Device) :
  quiet o (Schedule op self).
Proof. unfold Schedule. quiet_primitive. Qed.

Lemma quiet_emit (o : GObject) (e : Event) :
  concerns o e = false -> quiet o (update (emit e)).
Proof.
  intros He. apply quiet_step. intros w [] w' [= <-]. split; [done|].
  right. by exists e.
Qed.

Create HintDb quiet discriminated.

#[local] Hint Resolve quiet_ret quiet_crash quiet_g_malloc quiet_g_free
  quiet_read_chars quiet_read_string quiet_read_slot quiet_write_slot quiet_read_strv
  quiet_get_world quiet_New_Array quiet_Array_elements quiet_Array_Set
  quiet_Schedule : quiet.

Ltac quiet_go :=
  repeat first
    [ apply quiet_bind; [|intros ?]
    | solve [eauto with quiet]
    | apply quiet_emit; reflexivity
    | progress case_match ].

Lemma quiet_g_new0 (o : GObject) (n : Z) : quiet o (g_new0 n).
Proof. unfold g_new0. quiet_go. Qed.

Lemma quiet_g_strdup (o : GObject) (s : option string) : quiet o (g_strdup s).
Proof. unfold g_strdup. quiet_go. Qed.

Lemma quiet_free_each (o : GObject) (items : list addr) : quiet o (free_each items).
Proof. induction items; cbn [free_each]; quiet_go. Qed.

#[local] Hint Resolve quiet_g_new0 quiet_g_strdup quiet_free_each : quiet.

Lemma quiet_g_strfreev (o : GObject) (v : ptr) : quiet o (g_strfreev v).
Proof. unfold g_strfreev. quiet_go. Qed.

Lemma quiet_g_strv_length (o : GObject) (v : ptr) : quiet o (g_strv_length v).
Proof. unfold g_strv_length. quiet_go. Qed.

Lemma quiet_strdup_each (o : GObject) (strings : list string) :
  quiet o (strdup_each strings).
Proof. induction strings; cbn [strdup_each]; quiet_go. Qed.

Lemma quiet_read_each (o : GObject) (items : list addr) : quiet o (read_each items).
Proof. induction items; cbn [read_each]; quiet_go. Qed.

#[local] Hint Resolve quiet_g_strfreev quiet_g_strv_length quiet_strdup_each
  quiet_read_each : quiet.

Lemma quiet_g_get_environ (o : GObject) : quiet o g_get_environ.
Proof. unfold g_get_environ. quiet_go. Qed.

Lemma quiet_read_strings (o : GObject) (v : ptr) : quiet o (read_strings v).
Proof. unfold read_strings. quiet_go. Qed.

Lemma quiet_schedule_and_return (o : GObject) (op : Operation) (self : Device) :
  quiet o (schedule_and_return op self).
Proof. unfold schedule_and_return. quiet_go. Qed.

#[local] Hint Resolve quiet_g_get_environ quiet_read_strings
  quiet_schedule_and_return : quiet.

Lemma quiet_ToLocalChecked {A} (o : GObject) (m : option A) :
  quiet o (ToLocalChecked m).
Proof. destruct m; [apply quiet_ret|apply quiet_crash]. Qed.

#[local] Hint Resolve quiet_ToLocalChecked : quiet.

Lemma quiet_Spawn_copy (o : GObject) (elements : list Element) :
  forall argv i, quiet o (Spawn_copy argv i elements).
Proof. induction elements as [|v rest IH]; intros argv i; cbn [Spawn_copy]; quiet_go. Qed.

#[local] Hint Resolve quiet_Spawn_copy : quiet.

Lemma quiet_Spawn (o : GObject) (self : Device) (info : list Value) :
  quiet o (Spawn self info).
Proof. unfold Spawn. quiet_go. Qed.

Lemma quiet_Resume `{Platform} (o : GObject) (self : Device) (info : list Value) :
  quiet o (Resume self info).
Proof. unfold Resume. quiet_go. Qed.

Lemma quiet_Kill `{Platform} (o : GObject) (self : Device) (info : list Value) :
  quiet o (Kill self info).
Proof. unfold Kill. quiet_go. Qed.

Lemma quiet_Attach `{Platform} (o : GObject) (self : Device) (info : list Value) :
  quiet o (Attach self info).
Proof. unfold Attach. quiet_go. Qed.

(** References to other objects may come and go. *)
Lemma quiet_g_object_ref (o o' : GObject) : o' <> o -> quiet o (g_object_ref o').
Proof.
  intros Hne w [] w' Hrun.
  destruct (g_object_ref_run o' w) as (w2 & Hrun2 & _ & Htr & Hrc).
  rewrite Hrun in Hrun2. injection Hrun2 as <-. split.
  - rewrite Hrc. by rewrite decide_False.
  - exists [EvRef o']. split; [done|]. constructor; [|done].
    simpl. by apply bool_decide_eq_false.
Qed.

Lemma quiet_g_object_unref (o o' : GObject) : o' <> o -> quiet o (g_object_unref o').
Proof.
  intros Hne w [] w' Hrun.
  destruct (refcount w o') as [|n] eqn:Hn.
  { unfold g_object_unref in Hrun. by rewrite Hn in Hrun. }
  destruct (g_object_unref_run o' w n Hn) as (w2 & Hrun2 & _ & Htr & Hrc).
  rewrite Hrun in Hrun2. injection Hrun2 as <-. split.
  - rewrite Hrc. by rewrite decide_False.
  - exists [EvUnref o']. split; [done|]. constructor; [|done].
    simpl. by apply bool_decide_eq_false.
Qed.

Lemma quiet_Wrapper_New (o o' : GObject) (cls : WrapperClass) :
  o' <> o -> quiet o (Wrapper_New cls o').
Proof.
  intros Hne. unfold Wrapper_New.
  apply quiet_bind; [by apply quiet_g_object_ref|intros _]. quiet_go.
Qed.

(** A device is not an object of another type. *)
Lemma other_type (t : GType) (a : positive) (d : FridaDevice) :
  t <> FRIDA_TYPE_DEVICE -> (t, a) <> device_object d.
Proof. unfold device_object. congruence. Qed.

Lemma quiet_Icon_New (d : FridaDevice) (icon : option positive) :
  quiet (device_object d) (Icon_New icon).
Proof.
  destruct icon; cbn [Icon_New]; [|apply quiet_ret].
  by apply quiet_Wrapper_New, other_type.
Qed.

Lemma quiet_frida_list_get (d : FridaDevice) (t : GType) (l : FridaList) (i : nat) :
  t <> FRIDA_TYPE_DEVICE -> quiet (device_object d) (frida_list_get t l i).
Proof.
  intros Ht. unfold frida_list_get. case_match; [|apply quiet_crash].
  apply quiet_bind; [by apply quiet_g_object_ref, other_type|intros _; apply quiet_ret].
Qed.

Lemma quiet_bind_returning {A B} (o : GObject) (P : A -> Prop) (m : M A)
    (k : A -> M B) :
  (forall w a w', m w = Done a w' -> P a) ->
  quiet o m -> (forall a, P a -> quiet o (k a)) -> quiet o (bind m k).
Proof.
  intros HP Hm Hk w b w'. unfold bind. destruct (m w) as [a w1|] eqn:Hrun; [|done].
  intros Hrun'. destruct (Hm _ _ _ Hrun) as (Hrc1 & ev1 & Htr1 & Hq1).
  destruct (Hk _ (HP _ _ _ Hrun) _ _ _ Hrun') as (Hrc2 & ev2 & Htr2 & Hq2).
  split; [congruence|]. exists (ev1 ++ ev2). split.
  - by rewrite Htr2, Htr1, app_assoc.
  - by apply Forall_app.
Qed.

Lemma frida_list_get_type (t : GType) (l : FridaList) (i : nat) (w w' : World)
    (handle : GObject) :
  frida_list_get t l i w = Done handle w' -> handle.1 = t.
Proof.
  unfold frida_list_get. destruct (list_items l !! i); [|done].
  by intros [= <- _].
Qed.

Lemma quiet_Result_fill (d : FridaDevice) (cls : WrapperClass) (t : GType)
    (l : FridaList) (array : positive) (todo : nat) :
  t <> FRIDA_TYPE_DEVICE ->
  forall i, quiet (device_object d) (Result_fill (Wrapper_New cls) t l array i todo).
Proof.
  intros Ht. induction todo as [|todo IH]; intros i; cbn [Result_fill]; [apply quiet_ret|].
  apply (quiet_bind_returning _ (fun handle => handle.1 = t)).
  - intros w a w'. apply frida_list_get_type.
  - by apply quiet_frida_list_get.
  - intros [t' a] Ht'. simpl in Ht'. subst t'.
    apply quiet_bind; [by apply quiet_Wrapper_New, other_type|intros wrapper].
    apply quiet_bind; [apply quiet_Array_Set|intros _].
    apply quiet_bind; [by apply quiet_g_object_unref, other_type|intros _].
    apply IH.
Qed.

Lemma quiet_Result_list (d : FridaDevice) (cls : WrapperClass) (t list_t : GType)
    (list_ : option FridaList) :
  t <> FRIDA_TYPE_DEVICE -> list_t <> FRIDA_TYPE_DEVICE ->
  quiet (device_object d) (Result_list (Wrapper_New cls) t list_t list_).
Proof.
  intros Ht Hl. unfold Result_list. destruct list_ as [l|]; [|apply quiet_crash].
  apply quiet_bind; [apply quiet_New_Array|intros array].
  apply quiet_bind; [by apply quiet_Result_fill|intros _].
  apply quiet_bind; [by apply quiet_g_object_unref, other_type|intros _].
  apply quiet_ret.
Qed.

Lemma quiet_read_member {A} (o : GObject) (m : member A) : quiet o (read_member m).
Proof. destruct m; [apply quiet_crash|apply quiet_ret]. Qed.

Lemma quiet_Result (d : FridaDevice) (op : Operation) :
  quiet (device_object d) (Result op).
Proof.
  destruct op; cbn [Result];
    try (apply quiet_bind; [apply quiet_read_member|intros handle]);
    try apply quiet_ret.
  - destruct handle as [a|]; [|apply quiet_ret].
    apply quiet_bind; [by apply quiet_Wrapper_New, other_type|intros wrapper].
    apply quiet_bind; [by apply quiet_g_object_unref, other_type|intros _].
    apply quiet_ret.
  - by apply quiet_Result_list.
  - by apply quiet_Result_list.
  - destruct handle as [a|]; [|apply quiet_crash].
    apply quiet_bind; [by apply quiet_Wrapper_New, other_type|intros wrapper].
    apply quiet_bind; [by apply quiet_g_object_unref, other_type|intros _].
    apply quiet_ret.
Qed.

Lemma quiet_Finish (d : FridaDevice) (op : Operation)
    (result : GAsyncResult (Returns op)) :
  quiet (device_object d) (Finish op result).
Proof.
  unfold Finish. destruct (End op result) as [finished [e|]]; [apply quiet_ret|].
  apply quiet_bind; [apply quiet_Result|intros v; apply quiet_ret].
Qed.

Lemma quiet_Begin (o : GObject) (handle : FridaDevice) (op : Operation) :
  quiet o (Begin handle op).
Proof. destruct op; cbn [Begin]; quiet_go. Qed.

Lemma quiet_Operation_dtor (o : GObject) (op : Operation) :
  quiet o (Operation_dtor op).
Proof. destruct op; cbn [Operation_dtor]; quiet_go. Qed.

Lemma quiet_perform `{Platform} (self : Device) (a : Activity) :
  quiet (device_object (handle_ self)) (perform self a).
Proof.
  destruct a; cbn [perform];
    try (apply quiet_bind; [|intros ?; apply quiet_ret]).
  - apply quiet_ret.
  - apply quiet_ret.
  - unfold GetIcon. apply quiet_bind; [apply quiet_Icon_New|intros ?; apply quiet_ret].
  - unfold GetType. quiet_go.
  - apply quiet_schedule_and_return.
  - apply quiet_schedule_and_return.
  - apply quiet_schedule_and_return.
  - apply quiet_Spawn.
  - apply quiet_Resume.
  - apply quiet_Kill.
  - apply quiet_Attach.
  - apply quiet_Begin.
  - apply quiet_Finish.
  - apply quiet_Operation_dtor.
Qed.

Lemma quiet_perform_all `{Platform} (self : Device) (activities : list Activity) :
  quiet (device_object (handle_ self)) (perform_all self activities).
Proof.
  induction activities as [|a rest IH]; cbn [perform_all]; [apply quiet_ret|].
  apply quiet_bind; [apply quiet_perform|by intros _].
Qed.

(** C5.  Constructing a Device wrapper acquires exactly one reference to its
    native handle.  Whatever is read, called, started, finished or destroyed
    while the wrapper is alive neither acquires nor releases a reference to
    that handle.  Destroying the wrapper then releases exactly one
    reference, so that release is the only one and the count of the handle
    is back to what it was before the wrapper existed. *)
Theorem Device_owns_one_reference `{Platform} (handle : FridaDevice)
    (activities : list Activity) (w : World) :
  let o := device_object handle in
  exists self w1,
    Device_ctor handle w = Done self w1 /\
    handle_ self = handle /\
    trace w1 = trace w ++ [EvRef o] /\
    refcount w1 o = S (refcount w o) /\
    forall w2, perform_all self activities w1 = Done tt w2 ->
      (exists events, trace w2 = trace w1 ++ events /\
                      Forall (fun e => concerns o e = false) events) /\
      refcount w2 o = refcount w1 o /\
      exists w3,
        Device_dtor self w2 = Done tt w3 /\
        trace w3 = trace w2 ++ [EvUnref o] /\
        refcount w3 o = refcount w o.
Proof.
  intros o. unfold Device_ctor. cbn [handle_].
  destruct (g_object_ref_run o w) as (w1 & Hrun1 & _ & Htr1 & Hrc1).
  exists {| handle_ := handle |}, w1. split; [by run Hrun1|].
  split; [done|]. split; [done|].
  assert (refcount w1 o = S (refcount w o)) as Hone.
  { rewrite Hrc1. by rewrite decide_True. }
  split; [done|]. intros w2 Hall.
  destruct (quiet_perform_all {| handle_ := handle |} activities _ _ _ Hall)
    as (Hrc2 & events & Htr2 & Hquiet).
  cbn [handle_] in Hrc2, Hquiet. fold o in Hrc2, Hquiet.
  split; [by exists events|]. split; [done|].
  unfold Device_dtor, frida_unref. cbn [handle_]. fold o.
  destruct (g_object_unref_run o w2 (refcount w o)) as (w3 & Hrun3 & _ & Htr3 & Hrc3).
  { by rewrite Hrc2. }
  exists w3. split; [done|]. split; [done|].
  rewrite Hrc3. by rewrite decide_True.
Qed.

Lemma Device_owns_one_reference_witness :
  let o := device_object local_system in
  let w := with_refcounts (insert o 1%nat) empty_world in
  let activities :=
    [ReadIcon; ReadType; CallResume [VNumber (S754_finite false 3 (-1))];
     OperationBegins (ResumeOperation 1)] in
  exists self w1 w2 w3,
    Device_ctor local_system w = Done self w1 /\
    perform_all (H := x86_64) self activities w1 = Done tt w2 /\
    Device_dtor self w2 = Done tt w3 /\
    refcount w3 o = refcount w o.
Proof.
  intros o w activities.
  destruct (@Device_owns_one_reference x86_64 local_system activities w)
    as (self & w1 & Hctor & _ & _ & _ & Hrest).
  edestruct Hrest as (_ & _ & w3 & Hdtor & _ & Hcount).
  { injection Hctor as <- <-. vm_compute. reflexivity. }
  eexists self, w1, _, w3. split; [exact Hctor|]. split; [|split; [exact Hdtor|exact Hcount]].
  injection Hctor as <- <-. vm_compute. reflexivity.
Defined.

(** ** Marshalling native lists *)

Lemma New_Array_run (size : Z) (w : World) :
  exists array,
    New_Array size w
      = Done array (with_arrays (insert array (replicate (Z.to_nat size) (Holds VUndefined))) w) /\
    arrays w !! array = None.
Proof.
  eexists; split; [reflexivity|].
  apply not_elem_of_dom. apply is_fresh.
Qed.

Lemma set_element_in_range (i : nat) (v : Value) (elements : list Element) :
  (i < length elements)%nat -> set_element i v elements = <[i := Holds v]> elements.
Proof. intros Hi. unfold set_element. by rewrite decide_True. Qed.

Lemma occurrences_app (a : positive) (l1 l2 : list positive) :
  occurrences a (l1 ++ l2) = occurrences a l1 + occurrences a l2.
Proof. induction l1 as [|b l1 IH]; simpl; [done|]. rewrite IH. lia. Qed.

(** The loop, started at the index [length done] on a host array that has
    room for every element of the list. *)
Lemma Result_fill_run (cls : WrapperClass) (t : GType) (l : FridaList)
    (array : positive) (todo : list positive) :
  forall (done : list positive) (w : World) (elements : list Element),
    list_items l = done ++ todo ->
    arrays w !! array = Some elements ->
    length elements = length (list_items l) ->
    exists w',
      Result_fill (Wrapper_New cls) t l array (length done) (length todo) w = Done tt w' /\
      arrays w' = <[array := take (length done) elements
                              ++ ((fun a => Holds (VObject cls (t, a))) <$> todo)]> (arrays w) /\
      heap w' = heap w /\ environ w' = environ w /\ operations w' = operations w /\
      trace w' = trace w ++ marshalling_events cls t array (length done) todo /\
      (forall a, refcount w' (t, a) = refcount w (t, a) + occurrences a todo) /\
      (forall o, o.1 <> t -> refcount w' o = refcount w o).
Proof.
  induction todo as [|a rest IH]; intros done w elements Hitems Harray Hlen.
  - exists w. cbn [Result_fill length]. split; [done|]. split.
    + cbn [fmap list_fmap]. rewrite app_nil_r.
      rewrite take_ge by (rewrite Hlen, Hitems, app_nil_r; done).
      by rewrite insert_id.
    + do 3 (split; [done|]). split; [by rewrite app_nil_r|].
      split; [intros; simpl; lia|done].
  - assert (list_items l !! length done = Some a) as Hget.
    { rewrite Hitems. by rewrite list_lookup_middle. }
    assert (length done < length elements)%nat as Hi.
    { rewrite Hlen, Hitems, length_app. simpl. lia. }
    cbn [Result_fill length]. unfold frida_list_get. rewrite Hget.
    destruct (g_object_ref_run (t, a) w) as (w1 & Hrun1 & Hmem1 & Htr1 & Hrc1).
    destruct (Wrapper_New_run cls (t, a) w1) as (w2 & Hrun2 & Hmem2 & Htr2 & Hrc2).
    pose proof (same_memory_trans _ _ _ Hmem1 Hmem2) as (Hh2 & Ha2 & He2 & Ho2).
    set (v := VObject cls (t, a)) in *.
    set (w3 := emit (EvArraySet array (length done) v)
                 (with_arrays (insert array (<[length done := Holds v]> elements)) w2)).
    assert (Array_Set array (length done) v w2 = Done tt w3) as Hrun3.
    { unfold Array_Set. rewrite Ha2, Harray. by rewrite set_element_in_range. }
    destruct (g_object_unref_run (t, a) w3 (S (refcount w (t, a))))
      as (w4 & Hrun4 & Hmem4 & Htr4 & Hrc4).
    { change (refcount w3 (t, a)) with (refcount w2 (t, a)).
      rewrite Hrc2, decide_True by done. rewrite Hrc1, decide_True by done. done. }
    destruct Hmem4 as (Hh4 & Ha4 & He4 & Ho4).
    destruct (IH (done ++ [a]) w4 (<[length done := Holds v]> elements)) as (w' & Hrun & Harr & Hh & He & Ho & Htr & Hrc & Hother).
    { by rewrite <- app_assoc. }
    { rewrite Ha4. simpl. by rewrite lookup_insert_eq. }
    { by rewrite length_insert. }
    exists w'. split.
    { run Hrun1. run Hrun2. run Hrun3. run Hrun4.
      rewrite length_app in Hrun. simpl in Hrun.
      by replace (length done + 1)%nat with (S (length done)) in Hrun by lia. }
    split.
    { rewrite Harr, Ha4. simpl. rewrite Ha2, insert_insert_eq. f_equal.
      rewrite length_app. simpl.
      replace (length done + 1)%nat with (S (length done)) by lia.
      rewrite (take_S_r _ _ (Holds v)) by (by apply list_lookup_insert_eq).
      rewrite take_insert_ge by done. by rewrite <- app_assoc. }
    split; [by rewrite Hh, Hh4; simpl; rewrite Hh2|].
    split; [by rewrite He, He4; simpl; rewrite He2|].
    split; [by rewrite Ho, Ho4; simpl; rewrite Ho2|].
    split.
    { rewrite Htr, Htr4. simpl. rewrite Htr2, Htr1.
      rewrite length_app. simpl.
      replace (length done + 1)%nat with (S (length done)) by lia.
      by rewrite <- !app_assoc. }
    split.
    { intros b. rewrite Hrc, Hrc4.
      change (refcount w3 (t, b)) with (refcount w2 (t, b)).
      rewrite Hrc2, !Hrc1. cbn [occurrences].
      repeat case_decide; simplify_eq; lia. }
    { intros o Hne. rewrite Hother, Hrc4 by done.
      change (refcount w3 o) with (refcount w2 o).
      rewrite Hrc2, !Hrc1.
      rewrite !decide_False; [done|intros ->; by apply Hne..]. }
Qed.

Lemma Result_list_run (cls : WrapperClass) (t list_t : GType) (l : FridaList)
    (w : World) :
  t <> list_t ->
  (1 <= refcount w (list_t, list_address l))%nat ->
  exists array w' elements,
    Result_list (Wrapper_New cls) t list_t (Some l) w = Done (VArray array) w' /\
    arrays w !! array = None /\
    arrays w' = <[array := elements]> (arrays w) /\
    elements = (fun a => Holds (VObject cls (t, a))) <$> list_items l /\
    heap w' = heap w /\ environ w' = environ w /\ operations w' = operations w /\
    trace w' = trace w ++ marshalling_events cls t array 0 (list_items l)
                       ++ [EvUnref (list_t, list_address l)] /\
    (forall a, refcount w' (t, a) = refcount w (t, a) + occurrences a (list_items l)) /\
    S (refcount w' (list_t, list_address l)) = refcount w (list_t, list_address l).
Proof.
  intros Htypes Hlive. unfold Result_list, frida_list_size.
  rewrite Nat2Z.id.
  destruct (New_Array_run (Z.of_nat (length (list_items l))) w) as (array & Hrun0 & Hfresh).
  rewrite Nat2Z.id in Hrun0.
  set (blank := replicate (length (list_items l)) (Holds VUndefined)) in *.
  set (w0 := with_arrays (insert array blank) w) in *.
  destruct (Result_fill_run cls t l array (list_items l) [] w0 blank)
    as (w1 & Hrun1 & Harr1 & Hh1 & He1 & Ho1 & Htr1 & Hrc1 & Hother1).
  { done. }
  { simpl. by rewrite lookup_insert_eq. }
  { unfold blank. by rewrite length_replicate. }
  destruct (refcount w (list_t, list_address l)) as [|n] eqn:Hn; [lia|].
  destruct (g_object_unref_run (list_t, list_address l) w1 n)
    as (w2 & Hrun2 & (Hh2 & Ha2 & He2 & Ho2) & Htr2 & Hrc2).
  { rewrite Hother1 by (simpl; congruence). exact Hn. }
  exists array, w2, ((fun a => Holds (VObject cls (t, a))) <$> list_items l).
  split; [by run Hrun0; run Hrun1; run Hrun2|].
  split; [done|]. split.
  { rewrite Ha2, Harr1. simpl. by rewrite insert_insert_eq. }
  split; [done|].
  split; [by rewrite Hh2, Hh1|]. split; [by rewrite He2, He1|].
  split; [by rewrite Ho2, Ho1|]. split.
  { rewrite Htr2, Htr1. simpl. by rewrite <- app_assoc. }
  split.
  - intros a. rewrite Hrc2, decide_False by congruence. by rewrite Hrc1.
  - by rewrite Hrc2, decide_True.
Qed.

Lemma marshalled_Result_list (cls : WrapperClass) (t list_t : GType) (l : FridaList)
    (w : World) :
  t <> list_t ->
  (1 <= refcount w (list_t, list_address l))%nat ->
  marshalled cls t list_t l w (Result_list (Wrapper_New cls) t list_t (Some l) w).
Proof.
  intros Htypes Hlive.
  destruct (Result_list_run cls t list_t l w Htypes Hlive)
    as (array & w2 & elements & Hrun & Hfresh & Harr & -> & Hrest).
  exists array, w2, ((fun a => Holds (VObject cls (t, a))) <$> list_items l).
  split; [done|]. split; [done|]. split; [done|].
  split; [by rewrite length_fmap|]. split; [|done].
  intros i a Hi. by rewrite list_lookup_fmap, Hi.
Qed.

(** C4.  An enumerateApplications or enumerateProcesses operation that
    completed without a native error fulfils its future with what its result
    method returns: a new host array as long as the native list, whose
    element at each index is the wrapper of the element of the list at that
    index.  Each element is wrapped, stored and then released before the
    next one is fetched, and the container is released last, after the array
    is complete. *)
Theorem enumerations_fulfilled (l : FridaList)
    (result : GAsyncResult (option FridaList)) (w : World) :
  finish_error result = None ->
  finish_value result = Some l ->
  (forall m,
     (1 <= refcount w (FRIDA_TYPE_APPLICATION_LIST, list_address l))%nat ->
     let finished := (End (EnumerateApplicationsOperation m) result).1 in
     Finish (EnumerateApplicationsOperation m) result w = fulfil (Result finished w) /\
     marshalled ApplicationClass FRIDA_TYPE_APPLICATION FRIDA_TYPE_APPLICATION_LIST
       l w (Result finished w)) /\
  (forall m,
     (1 <= refcount w (FRIDA_TYPE_PROCESS_LIST, list_address l))%nat ->
     let finished := (End (EnumerateProcessesOperation m) result).1 in
     Finish (EnumerateProcessesOperation m) result w = fulfil (Result finished w) /\
     marshalled ProcessClass FRIDA_TYPE_PROCESS FRIDA_TYPE_PROCESS_LIST
       l w (Result finished w)).
Proof.
  intros Herr Hvalue. split; intros m Hlive finished.
  - split; [by apply (Finish_fulfils (EnumerateApplicationsOperation m))|].
    unfold finished. destruct result as [value error].
    cbn [finish_value] in Hvalue. subst value. cbn [End fst finish_value Result read_member].
    by apply (marshalled_Result_list ApplicationClass).
  - split; [by apply (Finish_fulfils (EnumerateProcessesOperation m))|].
    unfold finished. destruct result as [value error].
    cbn [finish_value] in Hvalue. subst value. cbn [End fst finish_value Result read_member].
    by apply (marshalled_Result_list ProcessClass).
Qed.

Lemma enumerations_fulfilled_witness :
  let l := {| list_address := 40; list_items := [5; 6; 5]%positive |} in
  let w := with_refcounts (insert (FRIDA_TYPE_PROCESS_LIST, 40%positive) 1%nat)
             empty_world in
  marshalled ProcessClass FRIDA_TYPE_PROCESS FRIDA_TYPE_PROCESS_LIST l w
    (Result (EnumerateProcessesOperation (assigned (Some l))) w).
Proof.
  intros l w.
  refine (proj2 (proj2 (enumerations_fulfilled l
                          {| finish_value := Some l; finish_error := None |}
                          w eq_refl eq_refl) indeterminate _)).
  vm_compute. lia.
Defined.

(** ** The heap *)

Lemma same_but_heap_refl (w : World) : same_but_heap w w.
Proof. by repeat split. Qed.

Lemma same_but_heap_trans (w1 w2 w3 : World) :
  same_but_heap w1 w2 -> same_but_heap w2 w3 -> same_but_heap w1 w3.
Proof.
  unfold same_but_heap. intros (-> & -> & -> & ->) (-> & -> & -> & ->). done.
Qed.

Lemma g_malloc_run (b : Block) (w : World) :
  exists a,
    g_malloc b w = Done a (emit (EvAlloc a) (with_heap (insert a b) w)) /\
    heap w !! a = None.
Proof.
  eexists; split; [reflexivity|]. apply not_elem_of_dom, is_fresh.
Qed.

Lemma c_str_idempotent (s : string) : c_str (c_str s) = c_str s.
Proof.
  induction s as [|c s IH]; simpl; [done|].
  destruct (Ascii.eqb c Ascii.zero) eqn:Hc; simpl; [done|]. by rewrite Hc, IH.
Qed.

Lemma until_null_items (items : list addr) (tail : list ptr) :
  until_null ((Some <$> items) ++ None :: tail) = Some items.
Proof.
  induction items as [|a items IH]; [done|].
  change (cons a <$> until_null ((Some <$> items) ++ None :: tail) = Some (a :: items)).
  by rewrite IH.
Qed.

Lemma read_strv_run (v : addr) (items : list addr) (tail : list ptr) (w : World) :
  heap w !! v = Some (Pointers ((Some <$> items) ++ None :: tail)) ->
  read_strv v w = Done items w.
Proof. intros Hv. unfold read_strv. by rewrite Hv, until_null_items. Qed.

Lemma read_each_run (items : list addr) (strings : list string) (w : World) :
  holds_strings (heap w) items strings -> read_each items w = Done strings w.
Proof.
  induction 1 as [|a s items strings Ha _ IH]; cbn [read_each]; [done|].
  assert (read_chars a w = Done s w) as Hrun
    by (unfold read_chars; by rewrite Ha).
  run Hrun. run IH. done.
Qed.

Lemma holds_strings_length (h : gmap addr Block) (items : list addr)
    (strings : list string) :
  holds_strings h items strings -> length items = length strings.
Proof. apply Forall2_length. Qed.

Lemma holds_strings_agree (h h' : gmap addr Block) (items : list addr)
    (strings : list string) :
  (forall a, a ∈ items -> h' !! a = h !! a) ->
  holds_strings h items strings -> holds_strings h' items strings.
Proof.
  intros Hagree Hh. induction Hh as [|a s items strings Ha _ IH]; constructor.
  - rewrite Hagree; [done|]. by left.
  - apply IH. intros b Hb. apply Hagree. by right.
Qed.

(** Freeing distinct allocated blocks removes exactly them. *)
Lemma free_each_run (items : list addr) :
  forall w,
    NoDup items ->
    (forall a, a ∈ items -> is_Some (heap w !! a)) ->
    exists w',
      free_each items w = Done tt w' /\
      (forall x, heap w' !! x = if decide (x ∈ items) then None else heap w !! x) /\
      same_but_heap w w' /\
      trace w' = trace w ++ (EvFree <$> items).
Proof.
  induction items as [|a items IH]; intros w Hnodup Hlive; cbn [free_each].
  - exists w. split; [done|]. split; [|split; [apply same_but_heap_refl|by rewrite app_nil_r]].
    intros x. rewrite decide_False; [done|]. apply not_elem_of_nil.
  - apply NoDup_cons in Hnodup as [Hnotin Hnodup].
    destruct (Hlive a) as [b Hb]; [by left|].
    set (w1 := emit (EvFree a) (with_heap (delete a) w)).
    assert (g_free (Some a) w = Done tt w1) as Hrun1
      by (unfold g_free; by rewrite Hb).
    destruct (IH w1 Hnodup) as (w' & Hrun & Hheap & Hsame & Htr).
    { intros x Hx. simpl. rewrite lookup_delete_ne; [apply Hlive; by right|].
      intros ->. done. }
    exists w'. split; [by run Hrun1|]. split; [|split].
    + intros x. rewrite Hheap. simpl.
      destruct (decide (x = a)) as [->|Hne].
      * rewrite decide_False by done. rewrite lookup_delete_eq.
        rewrite decide_True; [done|by left].
      * rewrite lookup_delete_ne by done.
        destruct (decide (x ∈ items)) as [Hin|Hout].
        -- rewrite decide_True; [done|by right].
        -- rewrite decide_False; [done|]. rewrite elem_of_cons. tauto.
    + eapply same_but_heap_trans; [|exact Hsame]. by repeat split.
    + rewrite Htr. simpl. by rewrite <- app_assoc.
Qed.

(** Duplicating strings allocates a distinct new block for each. *)
Lemma strdup_each_run (strings : list string) :
  forall w,
    exists items w',
      strdup_each strings w = Done (Some <$> items) w' /\
      NoDup items /\
      (forall a, a ∈ items -> heap w !! a = None) /\
      holds_strings (heap w') items (c_str <$> strings) /\
      (forall x, x ∉ items -> heap w' !! x = heap w !! x) /\
      same_but_heap w w' /\
      trace w' = trace w ++ (EvAlloc <$> items).
Proof.
  induction strings as [|s strings IH]; intros w; cbn [strdup_each].
  - exists [], w. split; [done|]. split; [constructor|]. split; [by intros a Ha%elem_of_nil|].
    split; [constructor|]. split; [done|]. split; [apply same_but_heap_refl|].
    by rewrite app_nil_r.
  - destruct (g_malloc_run (Chars (c_str s)) w) as (a & Hrun1 & Hfresh).
    set (w1 := emit (EvAlloc a) (with_heap (insert a (Chars (c_str s))) w)) in *.
    destruct (IH w1) as (items & w' & Hrun & Hnodup & Hnew & Hholds & Hframe & Hsame & Htr).
    assert (a ∉ items) as Hnotin.
    { intros Hin. specialize (Hnew a Hin). simpl in Hnew.
      by rewrite lookup_insert_eq in Hnew. }
    exists (a :: items), w'. split.
    { unfold g_strdup. run Hrun1. run Hrun. done. }
    split; [by constructor|]. split.
    { intros x [->|Hx]%elem_of_cons; [done|].
      specialize (Hnew x Hx). simpl in Hnew.
      rewrite lookup_insert_ne in Hnew; [done|]. intros ->. done. }
    split.
    { constructor; [|done]. rewrite Hframe by done. simpl. by rewrite lookup_insert_eq. }
    split.
    { intros x Hx. apply not_elem_of_cons in Hx as [Hne Hx].
      rewrite Hframe by done. simpl. by rewrite lookup_insert_ne. }
    split.
    { eapply same_but_heap_trans; [|exact Hsame]. by repeat split. }
    rewrite Htr. simpl. by rewrite <- app_assoc.
Qed.

(** ** Copying the arguments of spawn *)

(** The loop on a run of strings: each is duplicated into a new block whose
    address fills the next free slot of the vector; the loop then goes on
    with what follows the run. *)
Lemma Spawn_copy_strings (argv : addr) (rest : list Element) (strings : list string) :
  forall (done : list addr) (k : nat) (w : World),
    heap w !! argv = Some (Pointers ((Some <$> done) ++ replicate k None)) ->
    (length strings <= k)%nat ->
    exists items w1,
      Spawn_copy (Some argv) (length done) ((string_element <$> strings) ++ rest) w
        = Spawn_copy (Some argv) (length done + length strings) rest w1 /\
      NoDup items /\
      (forall a, a ∈ items -> heap w !! a = None) /\
      heap w1 !! argv
        = Some (Pointers ((Some <$> (done ++ items))
                            ++ replicate (k - length strings) None)) /\
      holds_strings (heap w1) items (c_str <$> strings) /\
      (forall x, x <> argv -> x ∉ items -> heap w1 !! x = heap w !! x) /\
      same_but_heap w w1 /\
      trace w1 = trace w ++ (EvAlloc <$> items).
Proof.
  induction strings as [|s strings IH]; intros done k w Hargv Hk.
  - exists [], w. cbn [fmap list_fmap app length]. rewrite Nat.add_0_r, app_nil_r, Nat.sub_0_r.
    split; [done|]. split; [constructor|]. split; [by intros a Ha%elem_of_nil|].
    split; [done|]. split; [constructor|]. split; [done|].
    split; [apply same_but_heap_refl|by rewrite app_nil_r].
  - destruct k as [|k]; [simpl in Hk; lia|].
    destruct (g_malloc_run (Chars (c_str s)) w) as (a & Hrun1 & Hfresh).
    set (w1 := emit (EvAlloc a) (with_heap (insert a (Chars (c_str s))) w)) in *.
    assert (a <> argv) as Hne by (intros ->; by rewrite Hargv in Hfresh).
    set (ps := (Some <$> done) ++ replicate (S k) None) in *.
    set (w2 := with_heap (insert argv (Pointers (<[length done := Some a]> ps))) w1).
    assert (write_slot (Some argv) (length done) (Some a) w1 = Done tt w2) as Hrun2.
    { unfold write_slot. simpl. rewrite lookup_insert_ne by done. rewrite Hargv.
      rewrite decide_True; [done|].
      unfold ps. rewrite length_app, length_fmap, length_replicate. lia. }
    assert (<[length done := Some a]> ps
            = (Some <$> (done ++ [a])) ++ replicate k None) as Hps.
    { unfold ps. rewrite insert_app_r_alt by (rewrite length_fmap; lia).
      rewrite length_fmap, Nat.sub_diag. cbn [replicate]. simpl.
      rewrite fmap_app. by rewrite <- app_assoc. }
    destruct (IH (done ++ [a]) k w2) as (items & w3 & Hrun & Hnodup & Hnew & Hv & Hholds & Hframe & Hsame & Htr).
    { simpl. rewrite lookup_insert_eq. by rewrite Hps. }
    { simpl in Hk. lia. }
    assert (a ∉ items) as Hnotin.
    { intros Hin. specialize (Hnew a Hin). simpl in Hnew.
      rewrite lookup_insert_ne, lookup_insert_eq in Hnew by done. done. }
    exists (a :: items), w3. split.
    { cbn [fmap list_fmap app Spawn_copy string_element Nan_Get ToLocalChecked].
      rewrite bind_ret_l. cbv beta iota. unfold g_strdup.
      run Hrun1. run Hrun2.
      rewrite length_app in Hrun. cbn [length] in Hrun |- *.
      replace (S (length done)) with (length done + 1)%nat by lia.
      rewrite Hrun. f_equal. lia. }
    split; [by constructor|]. split.
    { intros x [->|Hx]%elem_of_cons; [done|].
      specialize (Hnew x Hx). simpl in Hnew.
      destruct (decide (x = argv)) as [->|Hx1]; [by rewrite lookup_insert_eq in Hnew|].
      rewrite lookup_insert_ne in Hnew by done.
      destruct (decide (x = a)) as [->|Hx2]; [done|].
      by rewrite lookup_insert_ne in Hnew. }
    split.
    { rewrite Hv. cbn [length]. by rewrite <- app_assoc. }
    split.
    { constructor; [|done]. rewrite Hframe by done. simpl.
      rewrite lookup_insert_ne by done. by rewrite lookup_insert_eq. }
    split.
    { intros x Hx1 Hx2. apply not_elem_of_cons in Hx2 as [Hx2 Hx3].
      rewrite Hframe by done. simpl.
      rewrite lookup_insert_ne by done. by rewrite lookup_insert_ne. }
    split.
    { eapply same_but_heap_trans; [|exact Hsame]. by repeat split. }
    rewrite Htr. simpl. by rewrite <- app_assoc.
Qed.

(** Freeing a vector whose strings are distinct live blocks. *)
Lemma g_strfreev_run (v : addr) (items : list addr) (tail : list ptr) (w : World) :
  heap w !! v = Some (Pointers ((Some <$> items) ++ None :: tail)) ->
  NoDup (v :: items) ->
  (forall a, a ∈ items -> is_Some (heap w !! a)) ->
  exists w',
    g_strfreev (Some v) w = Done tt w' /\
    (forall x, heap w' !! x = if decide (x ∈ v :: items) then None else heap w !! x) /\
    same_but_heap w w' /\
    trace w' = trace w ++ (EvFree <$> items) ++ [EvFree v].
Proof.
  intros Hv Hnodup Hlive. apply NoDup_cons in Hnodup as [Hnotin Hnodup].
  destruct (free_each_run items w Hnodup Hlive) as (w1 & Hrun1 & Hheap1 & Hsame1 & Htr1).
  set (w2 := emit (EvFree v) (with_heap (delete v) w1)).
  assert (g_free (Some v) w1 = Done tt w2) as Hrun2.
  { unfold g_free. rewrite Hheap1, decide_False by done. by rewrite Hv. }
  exists w2. split.
  { unfold g_strfreev. run (read_strv_run v items tail w Hv). run Hrun1. exact Hrun2. }
  split; [|split].
  - intros x. simpl. destruct (decide (x = v)) as [->|Hne].
    + rewrite lookup_delete_eq. rewrite decide_True; [done|by left].
    + rewrite lookup_delete_ne by done. rewrite Hheap1.
      destruct (decide (x ∈ items)) as [Hin|Hout].
      * rewrite decide_True; [done|by right].
      * rewrite decide_False; [done|]. rewrite elem_of_cons. tauto.
  - eapply same_but_heap_trans; [exact Hsame1|]. by repeat split.
  - simpl. rewrite Htr1. by rewrite <- app_assoc.
Qed.

(** ** Validation of the arguments of spawn *)

(** An array is made of strings, or it has a first element that is not a
    string: a value of another kind, or an element whose read throws. *)
Lemma split_strings (elements : list Element) :
  (exists strings, elements = string_element <$> strings) \/
  (exists strings bad more,
     elements = (string_element <$> strings) ++ Holds bad :: more /\
     IsString bad = false) \/
  (exists strings more,
     elements = (string_element <$> strings) ++ Throws :: more).
Proof.
  induction elements as [|element elements IH].
  - left. by exists [].
  - destruct element as [v|].
    + destruct (IsString v) eqn:Hv.
      * destruct v; try discriminate.
        destruct IH as [(strings & ->)
                       |[(strings & bad & more & -> & Hbad)|(strings & more & ->)]].
        -- left. by exists (utf8 :: strings).
        -- right; left. by exists (utf8 :: strings), bad, more.
        -- right; right. by exists (utf8 :: strings), more.
      * right; left. by exists [], v, elements.
    + right; right. by exists [], elements.
Qed.

Lemma uint32_small (z : Z) : (0 <= z < UINT32_MOD)%Z -> uint32 z = z.
Proof. intros Hz. unfold uint32. by apply Z.mod_small. Qed.

(** Without an array as its first argument spawn throws and does nothing
    else. *)
Lemma Spawn_without_array (self : Device) (info : list Value) (w : World) :
  IsArray (info_at info 0) = false ->
  Spawn self info w = Done (ThrewTypeError Spawn_message) w.
Proof. intros Hno. unfold Spawn. by destruct (info_at info 0). Qed.

(** The start of [Device::Spawn] on an array whose length plus one fits
    [uint32_t]: the vector is allocated with a slot for every element and
    one for the terminator, and the loop starts on it. *)
Lemma Spawn_allocates (self : Device) (r : positive) (rest : list Value)
    (elements : list Element) (w : World) :
  arrays w !! r = Some elements ->
  (Z.of_nat (length elements) + 1 < UINT32_MOD)%Z ->
  exists argv,
    heap w !! argv = None /\
    let w0 := emit (EvAlloc argv)
                (with_heap (insert argv (Pointers (replicate (S (length elements)) None))) w) in
    Spawn self (VArray r :: rest) w
      = bind (Spawn_copy (Some argv) 0 elements)
          (fun argv =>
             match argv with
             | None => ret (ThrewTypeError Spawn_message)
             | Some _ =>
                 let* envp := g_get_environ in
                 let* first := read_slot argv 0 in
                 let* program := read_string first in
                 let* path := g_strdup program in
                 schedule_and_return (SpawnOperation path argv envp indeterminate) self
             end) w0.
Proof.
  intros Harray Hfits.
  destruct (g_malloc_run (Pointers (replicate (S (length elements)) None)) w)
    as (argv & Hrun & Hfresh).
  exists argv. split; [done|]. intros w0.
  unfold Spawn. change (info_at (VArray r :: rest) 0) with (VArray r).
  assert ((1 <=? info_Length (VArray r :: rest))%Z = true) as ->.
  { apply Z.leb_le. unfold info_Length. cbn [length]. lia. }
  assert (Array_elements r w = Done elements w) as Hrun0
    by (unfold Array_elements; by rewrite Harray).
  run Hrun0.
  rewrite (uint32_small (Z.of_nat (length elements))) by (unfold UINT32_MOD in *; lia).
  rewrite uint32_small by (unfold UINT32_MOD in *; lia).
  unfold g_new0.
  assert ((Z.of_nat (length elements) + 1 =? 0)%Z = false) as -> by (apply Z.eqb_neq; lia).
  replace (Z.to_nat (Z.of_nat (length elements) + 1)) with (S (length elements)) by lia.
  run Hrun. done.
Qed.

(** On an array whose first element that is not a string is a value that
    comes after the strings [strings], spawn duplicates exactly these, frees
    the copies and the vector again, and throws: the heap is as before the
    call, and no operation was scheduled. *)
Lemma Spawn_rejects_element (self : Device) (r : positive) (rest : list Value)
    (strings : list string) (bad : Value) (more : list Element) (w : World) :
  arrays w !! r = Some ((string_element <$> strings) ++ Holds bad :: more) ->
  IsString bad = false ->
  (Z.of_nat (length ((string_element <$> strings) ++ Holds bad :: more)) + 1
   < UINT32_MOD)%Z ->
  exists argv items w',
    Spawn self (VArray r :: rest) w = Done (ThrewTypeError Spawn_message) w' /\
    heap w' = heap w /\
    same_but_heap w w' /\
    length items = length strings /\
    NoDup (argv :: items) /\
    trace w' = trace w ++ [EvAlloc argv] ++ (EvAlloc <$> items)
                       ++ (EvFree <$> items) ++ [EvFree argv].
Proof.
  intros Harray Hbad Hfits.
  destruct (Spawn_allocates self r rest _ w Harray Hfits) as (argv & Hfresh & Hspawn).
  cbv zeta in Hspawn.
  set (elements := (string_element <$> strings) ++ Holds bad :: more) in *.
  set (w0 := emit (EvAlloc argv) (with_heap _ w)) in Hspawn.
  assert (length elements = (length strings + S (length more))%nat) as Hlen.
  { unfold elements. rewrite length_app, length_fmap. done. }
  destruct (Spawn_copy_strings argv (Holds bad :: more) strings [] (S (length elements)) w0)
    as (items & w1 & Hcopy & Hnodup & Hnew & Hv & Hholds & Hframe & Hsame & Htr).
  { simpl. by rewrite lookup_insert_eq. }
  { lia. }
  cbn [length app fmap list_fmap Nat.add] in Hcopy, Hv.
  assert (argv ∉ items) as Hnotin.
  { intros Hin. specialize (Hnew _ Hin). simpl in Hnew. by rewrite lookup_insert_eq in Hnew. }
  replace (S (length elements) - length strings)%nat
    with (S (S (length more))) in Hv by lia.
  cbn [replicate] in Hv.
  destruct (g_strfreev_run argv items _ w1 Hv) as (w2 & Hfree & Hheap2 & Hsame2 & Htr2).
  { by constructor. }
  { intros a Ha. pose proof (holds_strings_length _ _ _ Hholds) as Hl.
    apply list_elem_of_lookup in Ha as [i Hi].
    destruct (Forall2_lookup_l _ _ _ _ _ Hholds Hi) as (s & _ & Hs). by rewrite Hs. }
  exists argv, items, w2. split.
  { rewrite Hspawn. unfold bind at 1. unfold elements. rewrite Hcopy.
    assert (Spawn_copy (Some argv) (length strings) (Holds bad :: more) w1
            = Done None w2) as ->.
    { cbn [Spawn_copy Nan_Get ToLocalChecked]. rewrite bind_ret_l.
      destruct bad; try discriminate; by run Hfree. }
    done. }
  split.
  { apply map_eq. intros x. rewrite Hheap2.
    destruct (decide (x ∈ argv :: items)) as [Hin|Hout].
    - apply elem_of_cons in Hin as [->|Hin]; [done|].
      specialize (Hnew _ Hin). simpl in Hnew.
      destruct (decide (x = argv)) as [->|Hne]; [done|].
      by rewrite lookup_insert_ne in Hnew.
    - apply not_elem_of_cons in Hout as [Hne Hout].
      rewrite Hframe by done. simpl. by rewrite lookup_insert_ne. }
  split.
  { eapply same_but_heap_trans; [|exact Hsame2].
    eapply same_but_heap_trans; [|exact Hsame]. by repeat split. }
  split.
  { pose proof (holds_strings_length _ _ _ Hholds) as Hl. by rewrite length_fmap in Hl. }
  split; [by constructor|].
  rewrite Htr2, Htr. simpl. by rewrite <- !app_assoc.
Qed.

(** On an array whose first element that is not a string is one whose read
    throws, the read aborts the process: no exception is thrown to the
    caller. *)
Lemma Spawn_aborts_on_read (self : Device) (r : positive) (rest : list Value)
    (strings : list string) (more : list Element) (w : World) :
  arrays w !! r = Some ((string_element <$> strings) ++ Throws :: more) ->
  (Z.of_nat (length ((string_element <$> strings) ++ Throws :: more)) + 1
   < UINT32_MOD)%Z ->
  Spawn self (VArray r :: rest) w = Crashed FatalError.
Proof.
  intros Harray Hfits.
  destruct (Spawn_allocates self r rest _ w Harray Hfits) as (argv & Hfresh & Hspawn).
  cbv zeta in Hspawn.
  set (elements := (string_element <$> strings) ++ Throws :: more) in *.
  set (w0 := emit (EvAlloc argv) (with_heap _ w)) in Hspawn.
  assert (length elements = (length strings + S (length more))%nat) as Hlen.
  { unfold elements. rewrite length_app, length_fmap. done. }
  destruct (Spawn_copy_strings argv (Throws :: more) strings [] (S (length elements)) w0)
    as (items & w1 & Hcopy & _).
  { simpl. by rewrite lookup_insert_eq. }
  { lia. }
  cbn [length app fmap list_fmap Nat.add] in Hcopy.
  rewrite Hspawn. unfold bind at 1. unfold elements. by rewrite Hcopy.
Qed.

Lemma grows_trans (h1 h2 h3 : gmap addr Block) (n1 n2 : list addr) :
  grows h1 h2 n1 -> grows h2 h3 n2 -> grows h1 h3 (n1 ++ n2).
Proof.
  intros (Hd1 & Hnew1 & Hframe1) (Hd2 & Hnew2 & Hframe2).
  assert (forall a, a ∈ n1 -> a ∉ n2) as Hdisjoint.
  { intros a H1 H2. destruct (Hnew1 a H1) as [_ [b Hb]].
    destruct (Hnew2 a H2) as [Hnone _]. congruence. }
  split; [|split].
  - apply NoDup_app. by repeat split.
  - intros a [H1|H2]%elem_of_app.
    + destruct (Hnew1 a H1) as [Hnone Hsome]. split; [done|].
      rewrite Hframe2; [done|]. by apply Hdisjoint.
    + destruct (Hnew2 a H2) as [Hnone Hsome]. split; [|done].
      destruct (decide (a ∈ n1)) as [H1|H1]; [by destruct (Hnew1 a H1)|].
      rewrite <- Hframe1; done.
  - intros x Hx. apply not_elem_of_app in Hx as [H1 H2].
    rewrite Hframe2, Hframe1; done.
Qed.

Lemma holds_strings_live (h : gmap addr Block) (items : list addr)
    (strings : list string) (a : addr) :
  holds_strings h items strings -> a ∈ items -> is_Some (h !! a).
Proof.
  intros Hholds [i Hi]%list_elem_of_lookup.
  destruct (Forall2_lookup_l _ _ _ _ _ Hholds Hi) as (s & _ & Hs). by rewrite Hs.
Qed.

(** The environment is copied into new blocks. *)
Lemma g_get_environ_run (w : World) :
  exists envp items w',
    g_get_environ w = Done (Some envp) w' /\
    grows (heap w) (heap w') (items ++ [envp]) /\
    holds_strv (heap w') envp items (c_str <$> environ w) /\
    same_but_heap w w' /\
    trace w' = trace w ++ (EvAlloc <$> (items ++ [envp])).
Proof.
  destruct (strdup_each_run (environ w) w)
    as (items & w1 & Hrun1 & Hnodup & Hnew & Hholds & Hframe & Hsame & Htr).
  destruct (g_malloc_run (Pointers ((Some <$> items) ++ [None])) w1) as (envp & Hrun2 & Hfresh).
  set (w2 := emit (EvAlloc envp) (with_heap (insert envp _) w1)) in *.
  assert (envp ∉ items) as Hnotin.
  { intros Hin. destruct (holds_strings_live _ _ _ _ Hholds Hin). congruence. }
  exists envp, items, w2. split.
  { unfold g_get_environ. assert (get_world w = Done w w) as Hget by done.
    run Hget. run Hrun1. by run Hrun2. }
  split; [|split; [|split]].
  - split; [|split].
    + apply NoDup_app. split; [done|]. split; [|apply NoDup_singleton].
      intros a Ha ->%list_elem_of_singleton. done.
    + intros a [Ha| ->%list_elem_of_singleton]%elem_of_app.
      * split; [by apply Hnew|]. simpl.
        rewrite lookup_insert_ne by (intros ->; done).
        by eapply holds_strings_live.
      * split; [by rewrite <- Hframe|]. simpl. by rewrite lookup_insert_eq.
    + intros x Hx. apply not_elem_of_app in Hx as [H1 H2].
      rewrite list_elem_of_singleton in H2. simpl.
      rewrite lookup_insert_ne by done. by apply Hframe.
  - split; [simpl; by rewrite lookup_insert_eq|].
    eapply holds_strings_agree; [|exact Hholds].
    intros a Ha. simpl. apply lookup_insert_ne. intros ->. done.
  - eapply same_but_heap_trans; [exact Hsame|]. by repeat split.
  - simpl. rewrite Htr, fmap_app. by rewrite <- app_assoc.
Qed.

(** ** The arguments captured by spawn *)

(** The vector and the copies of the strings, once the loop is through an
    array of strings. *)
Lemma Spawn_copy_all (argv : addr) (strings : list string) (w w0 : World) :
  heap w !! argv = None ->
  w0 = emit (EvAlloc argv)
         (with_heap (insert argv (Pointers (replicate (S (length strings)) None))) w) ->
  exists items w1,
    Spawn_copy (Some argv) 0 (string_element <$> strings) w0 = Done (Some argv) w1 /\
    grows (heap w) (heap w1) (argv :: items) /\
    holds_strv (heap w1) argv items (c_str <$> strings) /\
    same_but_heap w w1.
Proof.
  intros Hfresh ->.
  set (w0 := emit (EvAlloc argv) (with_heap _ w)).
  destruct (Spawn_copy_strings argv [] strings [] (S (length strings)) w0)
    as (items & w1 & Hcopy & Hnodup & Hnew & Hv & Hholds & Hframe & Hsame & _).
  { simpl. by rewrite lookup_insert_eq. }
  { lia. }
  rewrite app_nil_r in Hcopy. cbn [length Nat.add Spawn_copy app] in Hcopy, Hv.
  replace (S (length strings) - length strings)%nat with 1%nat in Hv by lia.
  assert (argv ∉ items) as Hnotin.
  { intros Hin. specialize (Hnew _ Hin). simpl in Hnew. by rewrite lookup_insert_eq in Hnew. }
  exists items, w1. split; [done|]. split; [|split].
  - split; [by constructor|]. split.
    + intros a [->|Ha]%elem_of_cons.
      * split; [done|]. by rewrite Hv.
      * split; [|by eapply holds_strings_live].
        specialize (Hnew _ Ha). simpl in Hnew.
        rewrite lookup_insert_ne in Hnew; [done|]. intros ->. done.
    + intros x Hx. apply not_elem_of_cons in Hx as [Hne Hx].
      rewrite Hframe by done. simpl. by rewrite lookup_insert_ne.
  - by split.
  - eapply same_but_heap_trans; [|exact Hsame]. by repeat split.
Qed.

Lemma holds_strv_agree (h h' : gmap addr Block) (v : addr) (items : list addr)
    (strings : list string) :
  (forall a, a ∈ v :: items -> h' !! a = h !! a) ->
  holds_strv h v items strings -> holds_strv h' v items strings.
Proof.
  intros Hagree [Hv Hholds]. split.
  - rewrite Hagree; [done|by left].
  - eapply holds_strings_agree; [|done]. intros a Ha. apply Hagree. by right.
Qed.

Lemma grows_agree (h h' : gmap addr Block) (new : list addr) (a : addr) :
  grows h h' new -> is_Some (h !! a) -> h' !! a = h !! a.
Proof.
  intros (_ & Hnew & Hframe) [b Hb]. apply Hframe. intros Hin.
  destruct (Hnew a Hin). congruence.
Qed.

(** The duplicate of the program path. *)
Lemma Spawn_path_run (argv : addr) (items : list addr) (strings : list string) (w : World) :
  holds_strv (heap w) argv items (c_str <$> strings) ->
  exists path w',
    (forall B (k : ptr -> M B),
       (let* first := read_slot (Some argv) 0 in
        let* program := read_string first in
        let* path := g_strdup program in
        k path) w = k path w') /\
    grows (heap w) (heap w') (path_blocks path) /\
    match path, c_str <$> head strings with
    | None, None => True
    | Some p, Some s => heap w' !! p = Some (Chars s)
    | _, _ => False
    end /\
    same_but_heap w w'.
Proof.
  intros [Hv Hholds]. destruct strings as [|s0 strings].
  - apply Forall2_nil_inv_r in Hholds as ->.
    assert (read_slot (Some argv) 0 w = Done None w) as Hrun1
      by (unfold read_slot; by rewrite Hv).
    exists None, w. split; [intros B k; by run Hrun1|].
    split; [|split; [done|apply same_but_heap_refl]].
    split; [constructor|]. split; [by intros a Ha%elem_of_nil|done].
  - apply Forall2_cons_inv_r in Hholds as (a & items' & Ha & _ & ->).
    assert (read_slot (Some argv) 0 w = Done (Some a) w) as Hrun1
      by (unfold read_slot; by rewrite Hv).
    assert (read_string (Some a) w = Done (Some (c_str s0)) w) as Hrun2
      by (unfold read_string, bind, read_chars; by rewrite Ha).
    destruct (g_malloc_run (Chars (c_str (c_str s0))) w) as (p & Hrun3 & Hfresh).
    exists (Some p), (emit (EvAlloc p) (with_heap (insert p (Chars (c_str (c_str s0)))) w)).
    split; [intros B k; run Hrun1; run Hrun2; unfold g_strdup; by run Hrun3|].
    split; [|split; [|by repeat split]].
    + split; [apply NoDup_singleton|]. split.
      * intros x ->%list_elem_of_singleton. split; [done|]. simpl. by rewrite lookup_insert_eq.
      * intros x Hx. cbn [path_blocks] in Hx. rewrite list_elem_of_singleton in Hx.
        simpl. by rewrite lookup_insert_ne.
    + simpl. by rewrite lookup_insert_eq, c_str_idempotent.
Qed.

(** On an array of strings spawn schedules an operation that owns new
    blocks holding the program path, the arguments and the environment. *)
Lemma Spawn_accepts (self : Device) (r : positive) (rest : list Value)
    (strings : list string) (w : World) :
  arrays w !! r = Some (string_element <$> strings) ->
  (Z.of_nat (length strings) + 1 < UINT32_MOD)%Z ->
  exists path argv envp blocks w',
    Spawn self (VArray r :: rest) w
      = Done (Returned (VPromise (length (operations w)))) w' /\
    operations w'
      = operations w ++ [{| scheduled_operation := SpawnOperation path argv envp indeterminate;
                            scheduled_wrapper := self |}] /\
    captured (heap w') path argv envp blocks
      (c_str <$> head strings) (c_str <$> strings) (c_str <$> environ w) /\
    (forall a, a ∈ blocks -> heap w !! a = None) /\
    (forall x, x ∉ blocks -> heap w' !! x = heap w !! x) /\
    arrays w' = arrays w /\ refcounts w' = refcounts w /\ environ w' = environ w.
Proof.
  intros Harray Hfits.
  destruct (Spawn_allocates self r rest _ w Harray) as (argv & Hfresh & Hspawn).
  { by rewrite length_fmap. }
  cbv zeta in Hspawn. rewrite length_fmap in Hspawn.
  destruct (Spawn_copy_all argv strings w _ Hfresh eq_refl)
    as (items_a & w1 & Hcopy & Hgrow1 & Hstrv1 & Hsame1).
  destruct (g_get_environ_run w1)
    as (envp & items_e & w2 & Hrun2 & Hgrow2 & Hstrv2 & Hsame2 & _).
  assert (forall a, a ∈ argv :: items_a -> heap w2 !! a = heap w1 !! a) as Hkeep2.
  { intros a Ha. eapply grows_agree; [exact Hgrow2|]. by apply Hgrow1. }
  pose proof (holds_strv_agree _ _ _ _ _ Hkeep2 Hstrv1) as Hstrv1'.
  destruct (Spawn_path_run argv items_a strings w2 Hstrv1')
    as (path & w3 & Hrun3 & Hgrow3 & Hpath & Hsame3).
  pose proof (grows_trans _ _ _ _ _ (grows_trans _ _ _ _ _ Hgrow1 Hgrow2) Hgrow3)
    as Hgrow.
  set (alloc := ((argv :: items_a) ++ items_e ++ [envp]) ++ path_blocks path) in *.
  set (blocks := items_e ++ [envp] ++ items_a ++ [argv] ++ path_blocks path).
  assert (blocks ≡ₚ alloc) as Hperm.
  { unfold blocks, alloc. rewrite (Permutation_cons_append items_a argv).
    rewrite !app_assoc. apply Permutation_app_tail.
    rewrite <- !app_assoc.
    rewrite (app_assoc items_e [envp]), (app_assoc items_a [argv] (items_e ++ [envp])).
    apply Permutation_app_comm. }
  destruct Hsame1 as (Ha1 & Hr1 & He1 & Ho1).
  destruct Hsame2 as (Ha2 & Hr2 & He2 & Ho2).
  destruct Hsame3 as (Ha3 & Hr3 & He3 & Ho3).
  exists path, (Some argv), (Some envp), blocks,
    (scheduled (SpawnOperation path (Some argv) (Some envp) indeterminate) self w3).
  split.
  { rewrite Hspawn. run Hcopy. run Hrun2. rewrite Hrun3.
    unfold schedule_and_return, Schedule, scheduled, bind, ret.
    by rewrite Ho3, Ho2, Ho1. }
  split; [simpl; by rewrite Ho3, Ho2, Ho1|].
  split.
  { exists argv, items_a, envp, items_e. split; [done|]. split; [done|].
    assert (forall a, is_Some (heap w2 !! a) -> heap w3 !! a = heap w2 !! a) as Hkeep3
      by (intros a; eapply grows_agree; exact Hgrow3).
    split.
    { eapply holds_strv_agree; [|exact Hstrv1'].
      intros a Ha. apply Hkeep3. rewrite Hkeep2 by done. by apply Hgrow1. }
    split.
    { rewrite He1 in Hstrv2. eapply holds_strv_agree; [|exact Hstrv2].
      intros a Ha. apply Hkeep3. apply Hgrow2.
      apply elem_of_cons in Ha as [->|Ha]; apply elem_of_app; [right; by left|by left]. }
    split; [done|]. split; [done|].
    rewrite Hperm. apply Hgrow. }
  split; [intros a Ha; rewrite Hperm in Ha; by apply Hgrow|].
  split; [intros x Hx; rewrite Hperm in Hx; by apply Hgrow|].
  simpl. by rewrite Ha3, Ha2, Ha1, Hr3, Hr2, Hr1, He3, He2, He1.
Qed.

Lemma captured_agree (h h' : gmap addr Block) (path argv envp : ptr)
    (blocks : list addr) (program : option string)
    (arguments environment : list string) :
  (forall a, a ∈ blocks -> h' !! a = h !! a) ->
  captured h path argv envp blocks program arguments environment ->
  captured h' path argv envp blocks program arguments environment.
Proof.
  intros Hagree (argv_a & argv_items & envp_a & envp_items
                 & -> & -> & Hargv & Henvp & Hpath & -> & Hnodup).
  exists argv_a, argv_items, envp_a, envp_items.
  split; [done|]. split; [done|]. split.
  { eapply holds_strv_agree; [|exact Hargv]. intros a Ha. apply Hagree.
    rewrite !elem_of_app. apply elem_of_cons in Ha as [->|Ha].
    - right; right; right; left. by left.
    - right; right; by left. }
  split.
  { eapply holds_strv_agree; [|exact Henvp]. intros a Ha. apply Hagree.
    rewrite !elem_of_app. apply elem_of_cons in Ha as [->|Ha].
    - right; left. by left.
    - by left. }
  split; [|done].
  destruct path as [p|], program as [s|]; try done.
  rewrite Hagree; [done|]. rewrite !elem_of_app. do 4 right. by left.
Qed.

Lemma read_strings_run (h : gmap addr Block) (v : addr) (items : list addr)
    (strings : list string) (w : World) :
  holds_strv (heap w) v items strings ->
  read_strings (Some v) w = Done strings w /\
  g_strv_length (Some v) w = Done (Z.of_nat (length strings)) w.
Proof.
  intros [Hv Hholds]. pose proof (read_strv_run v items [] w Hv) as Hrun.
  split.
  - unfold read_strings. run Hrun. by apply read_each_run.
  - unfold g_strv_length. run Hrun.
    by rewrite (holds_strings_length _ _ _ Hholds).
Qed.

(** What the native spawn call receives is what the blocks of the
    operation hold. *)
Lemma Begin_captured (handle : FridaDevice) (path argv envp : ptr) (m : member Z)
    (blocks : list addr) (program : option string)
    (arguments environment : list string) (w : World) :
  captured (heap w) path argv envp blocks program arguments environment ->
  Begin handle (SpawnOperation path argv envp m) w
    = Done tt (emit (EvBegin (frida_device_spawn handle program
                                arguments (Z.of_nat (length arguments))
                                environment (Z.of_nat (length environment)))) w).
Proof.
  intros (argv_a & argv_items & envp_a & envp_items
          & -> & -> & Hargv & Henvp & Hpath & _ & _).
  destruct (read_strings_run (heap w) _ _ _ w Hargv) as [Hrun1 Hrun2].
  destruct (read_strings_run (heap w) _ _ _ w Henvp) as [Hrun3 Hrun4].
  assert (read_string path w = Done program w) as Hrun0.
  { destruct path as [p|], program as [s|]; try done.
    unfold read_string, bind, read_chars. by rewrite Hpath. }
  cbn [Begin]. run Hrun0. run Hrun1. run Hrun2. run Hrun3. run Hrun4. done.
Qed.

(** The destructor frees each block of the operation once, and nothing
    else. *)
Lemma Operation_dtor_captured (path argv envp : ptr) (m : member Z)
    (blocks : list addr) (program : option string)
    (arguments environment : list string) (w : World) :
  captured (heap w) path argv envp blocks program arguments environment ->
  exists w',
    Operation_dtor (SpawnOperation path argv envp m) w = Done tt w' /\
    (forall x, heap w' !! x = if decide (x ∈ blocks) then None else heap w !! x) /\
    same_but_heap w w' /\
    trace w' = trace w ++ (EvFree <$> blocks).
Proof.
  intros (argv_a & argv_items & envp_a & envp_items
          & -> & -> & [Hargv Hargs] & [Henvp Henv] & Hpath & -> & Hnodup).
  apply NoDup_app in Hnodup as (Hd_ei & Hdisj1 & Hnodup).
  apply NoDup_app in Hnodup as (_ & Hdisj2 & Hnodup).
  apply NoDup_app in Hnodup as (Hd_ai & Hdisj3 & Hnodup).
  apply NoDup_app in Hnodup as (_ & Hdisj4 & Hd_p).
  destruct (g_strfreev_run envp_a envp_items [] w Henvp) as (w1 & Hrun1 & Hheap1 & Hsame1 & Htr1).
  { constructor; [|done]. intros Hin. apply (Hdisj1 _ Hin). apply elem_of_app. left. by left. }
  { intros a Ha. exact (holds_strings_live _ _ _ _ Henv Ha). }
  assert (forall x, x ∉ envp_a :: envp_items -> heap w1 !! x = heap w !! x) as Hkeep1.
  { intros x Hx. rewrite Hheap1. by rewrite decide_False. }
  assert (forall x, x ∈ argv_items ++ [argv_a] ++ path_blocks path -> x ∉ envp_a :: envp_items) as Hfar1.
  { intros x Hx [->|Hin]%elem_of_cons.
    - apply (Hdisj2 envp_a); [by left|done].
    - apply (Hdisj1 x Hin). apply elem_of_app. by right. }
  destruct (g_strfreev_run argv_a argv_items [] w1) as (w2 & Hrun2 & Hheap2 & Hsame2 & Htr2).
  { rewrite Hkeep1; [done|]. apply Hfar1. rewrite !elem_of_app. right; left. by left. }
  { constructor; [|done]. intros Hin. apply (Hdisj3 _ Hin). apply elem_of_app. left. by left. }
  { intros a Ha. rewrite Hkeep1.
    - exact (holds_strings_live _ _ _ _ Hargs Ha).
    - apply Hfar1. apply elem_of_app. by left. }
  assert (exists w3, g_free path w2 = Done tt w3 /\
            (forall x, heap w3 !! x = if decide (x ∈ path_blocks path) then None else heap w2 !! x) /\
            same_but_heap w2 w3 /\ trace w3 = trace w2 ++ (EvFree <$> path_blocks path))
    as (w3 & Hrun3 & Hheap3 & Hsame3 & Htr3).
  { destruct path as [p|].
    - destruct program as [s|]; [|done].
      assert (heap w2 !! p = Some (Chars s)) as Hp.
      { rewrite Hheap2, decide_False.
        - rewrite Hkeep1; [done|]. apply Hfar1. rewrite !elem_of_app. right; right. by left.
        - intros [->|Hin]%elem_of_cons.
          + apply (Hdisj4 argv_a); by left.
          + apply (Hdisj3 p Hin). apply elem_of_app. right. by left. }
      eexists. split; [unfold g_free; by rewrite Hp|].
      split; [|split; [by repeat split|done]].
      intros x. simpl. destruct (decide (x = p)) as [->|Hne].
      + rewrite lookup_delete_eq. rewrite decide_True; [done|by left].
      + rewrite lookup_delete_ne by done. rewrite decide_False; [done|].
        by intros ->%list_elem_of_singleton.
    - exists w2. split; [done|]. split; [|split; [apply same_but_heap_refl|]].
      + intros x. rewrite decide_False; [done|]. apply not_elem_of_nil.
      + by rewrite app_nil_r. }
  exists w3. split; [cbn [Operation_dtor]; run Hrun1; run Hrun2; exact Hrun3|].
  split; [|split].
  - intros x. rewrite Hheap3, Hheap2, Hheap1.
    destruct (decide (x ∈ path_blocks path)) as [H3|H3];
      destruct (decide (x ∈ argv_a :: argv_items)) as [H2|H2];
      destruct (decide (x ∈ envp_a :: envp_items)) as [H1|H1];
      destruct (decide (x ∈ _)) as [H0|H0]; try done; exfalso;
      revert H0 H1 H2 H3; clear;
      rewrite !elem_of_app, !elem_of_cons, ?elem_of_nil; tauto.
  - eapply same_but_heap_trans; [|exact Hsame3].
    eapply same_but_heap_trans; [exact Hsame1|exact Hsame2].
  - rewrite Htr3, Htr2, Htr1. rewrite !fmap_app. simpl. by rewrite <- !app_assoc.
Qed.

(** When the length of the array plus one wraps around to zero, no vector
    is allocated: a leading string is then stored through NULL, a leading
    element whose read throws aborts the process, and anything else is
    refused. *)
Lemma Spawn_wraps (self : Device) (r : positive) (rest : list Value)
    (elements : list Element) (w : World) :
  arrays w !! r = Some elements ->
  Z.of_nat (length elements) = (UINT32_MOD - 1)%Z ->
  Spawn self (VArray r :: rest) w
    = match elements with
      | Holds (VString _) :: _ => Crashed NullDereference
      | Throws :: _ => Crashed FatalError
      | _ => Done (ThrewTypeError Spawn_message) w
      end.
Proof.
  intros Harray Hlen. unfold Spawn.
  change (info_at (VArray r :: rest) 0) with (VArray r).
  assert ((1 <=? info_Length (VArray r :: rest))%Z = true) as ->.
  { apply Z.leb_le. unfold info_Length. cbn [length]. lia. }
  assert (Array_elements r w = Done elements w) as Hrun0
    by (unfold Array_elements; by rewrite Harray).
  run Hrun0. rewrite Hlen.
  change (uint32 (uint32 (UINT32_MOD - 1) + 1)) with 0%Z.
  change (g_new0 0) with (@ret ptr None). norm.
  destruct elements as [|[v|] elements]; [done| |done].
  by destruct v.
Qed.

Lemma info_at_array (info : list Value) (r : positive) :
  info_at info 0 = VArray r -> exists rest, info = VArray r :: rest.
Proof.
  destruct info as [|v rest]; [done|].
  change (info_at (v :: rest) 0) with v. intros ->. by exists rest.
Qed.

(** A call of spawn that returns a value was given an array of strings, and
    returns what [Spawn_accepts] describes. *)
Lemma Spawn_returned (self : Device) (info : list Value) (w w' : World) (v : Value) :
  (forall r elements, arrays w !! r = Some elements ->
                      (Z.of_nat (length elements) < UINT32_MOD)%Z) ->
  Spawn self info w = Done (Returned v) w' ->
  exists r rest strings,
    info = VArray r :: rest /\
    arrays w !! r = Some (string_element <$> strings) /\
    (Z.of_nat (length strings) + 1 < UINT32_MOD)%Z.
Proof.
  intros Hv8 Hrun.
  destruct (IsArray (info_at info 0)) eqn:Harr.
  2: { rewrite Spawn_without_array in Hrun by done. discriminate. }
  destruct (info_at info 0) as [| | | | |r| | |] eqn:Hfirst; try discriminate.
  apply info_at_array in Hfirst as [rest ->].
  destruct (arrays w !! r) as [elements|] eqn:Harray.
  2: { unfold Spawn in Hrun. change (info_at (VArray r :: rest) 0) with (VArray r) in Hrun.
       destruct (1 <=? info_Length (VArray r :: rest))%Z; [|discriminate].
       unfold bind, Array_elements in Hrun. by rewrite Harray in Hrun. }
  pose proof (Hv8 _ _ Harray) as Hlen.
  destruct (decide (Z.of_nat (length elements) = UINT32_MOD - 1)%Z) as [Hwrap|Hfits].
  { rewrite (Spawn_wraps self r rest elements w Harray Hwrap) in Hrun.
    destruct elements as [|[[]|] ?]; discriminate. }
  destruct (split_strings elements)
    as [(strings & ->)|[(strings & bad & more & -> & Hbad)|(strings & more & ->)]].
  - exists r, rest, strings. split; [done|]. split; [done|].
    rewrite length_fmap in Hlen, Hfits. lia.
  - destruct (Spawn_rejects_element self r rest strings bad more w Harray Hbad)
      as (? & ? & ? & Hthrow & _); [lia|].
    rewrite Hthrow in Hrun. discriminate.
  - rewrite (Spawn_aborts_on_read self r rest strings more w Harray) in Hrun by lia.
    discriminate.
Qed.

(** C8.  A call of spawn that passes validation schedules an operation
    whose path, argument vector and environment vector are new blocks of
    its own: a copy of every string of the array, a copy of the first of
    them as the path, and a copy of the environment as it is at the call.
    Whatever becomes of the host arrays, of the environment and of every
    other block afterwards, the native spawn call receives these copies.
    Destroying the operation frees each of its blocks exactly once and
    leaves the heap as it was before the call. *)
Theorem Spawn_owns_copies (self : Device) (info : list Value) (w w' : World)
    (v : Value) :
  (forall r elements, arrays w !! r = Some elements ->
                      (Z.of_nat (length elements) < UINT32_MOD)%Z) ->
  Spawn self info w = Done (Returned v) w' ->
  exists r rest strings path argv envp blocks,
    info = VArray r :: rest /\
    arrays w !! r = Some (string_element <$> strings) /\
    v = VPromise (length (operations w)) /\
    operations w'
      = operations w ++ [{| scheduled_operation := SpawnOperation path argv envp indeterminate;
                            scheduled_wrapper := self |}] /\
    captured (heap w') path argv envp blocks
      (c_str <$> head strings) (c_str <$> strings) (c_str <$> environ w) /\
    (forall a, a ∈ blocks -> heap w !! a = None) /\
    (forall x, x ∉ blocks -> heap w' !! x = heap w !! x) /\
    (forall w2 m,
       (forall a, a ∈ blocks -> heap w2 !! a = heap w' !! a) ->
       Begin (handle_ self) (SpawnOperation path argv envp m) w2
         = Done tt (emit (EvBegin (frida_device_spawn (handle_ self)
                                     (c_str <$> head strings)
                                     (c_str <$> strings) (Z.of_nat (length strings))
                                     (c_str <$> environ w)
                                     (Z.of_nat (length (environ w))))) w2)) /\
    exists w3,
      Operation_dtor (SpawnOperation path argv envp indeterminate) w' = Done tt w3 /\
      heap w3 = heap w /\
      trace w3 = trace w' ++ (EvFree <$> blocks).
Proof.
  intros Hv8 Hrun.
  destruct (Spawn_returned self info w w' v Hv8 Hrun)
    as (r & rest & strings & -> & Harray & Hfits).
  destruct (Spawn_accepts self r rest strings w Harray Hfits)
    as (path & argv & envp & blocks & w1 & Hrun1 & Hops & Hcap & Hnew & Hframe & _).
  rewrite Hrun1 in Hrun. injection Hrun as <- <-.
  exists r, rest, strings, path, argv, envp, blocks.
  do 7 (split; [done|]). split.
  - intros w2 m Hagree.
    pose proof (captured_agree _ _ _ _ _ _ _ _ _ Hagree Hcap) as Hcap2.
    rewrite (Begin_captured _ _ _ _ m _ _ _ _ _ Hcap2).
    by rewrite !length_fmap.
  - destruct (Operation_dtor_captured _ _ _ indeterminate _ _ _ _ _ Hcap)
      as (w3 & Hdtor & Hheap & _ & Htr).
    exists w3. split; [done|]. split; [|done].
    apply map_eq. intros x. rewrite Hheap. case_decide as Hx.
    + symmetry. by apply Hnew.
    + by apply Hframe.
Qed.

Lemma Spawn_owns_copies_witness :
  let w := world_with_array [VString "/bin/true"; VString "--version"] in
  exists v w' path argv envp w3,
    Spawn local_wrapper [VArray 1] w = Done (Returned v) w' /\
    operations w'
      = [{| scheduled_operation := SpawnOperation path argv envp indeterminate;
            scheduled_wrapper := local_wrapper |}] /\
    Operation_dtor (SpawnOperation path argv envp indeterminate) w' = Done tt w3 /\
    heap w3 = heap w.
Proof.
  intros w.
  assert (forall r elements, arrays w !! r = Some elements ->
                             (Z.of_nat (length elements) < UINT32_MOD)%Z) as Hv8.
  { intros r elements Hl. cbn [arrays w world_with_array with_arrays empty_world] in Hl.
    apply lookup_insert_Some in Hl as [[_ <-]|[_ Hl]]; [reflexivity|].
    by rewrite lookup_empty in Hl. }
  destruct (Spawn local_wrapper [VArray 1] w) as [c w'|] eqn:Hrun;
    [|vm_compute in Hrun; discriminate].
  destruct c as [v|]; [|vm_compute in Hrun; discriminate].
  destruct (Spawn_owns_copies local_wrapper [VArray 1] w w' v Hv8 Hrun)
    as (r & rest & strings & path & argv & envp & blocks & _ & _ & _ & Hops & _ & _ & _ & _
        & w3 & Hdtor & Hheap & _).
  exists v, w', path, argv, envp, w3. by repeat split.
Defined.

(** ** What the validation of spawn refuses *)

(** An empty array is not refused: spawn returns a promise and schedules an
    operation whose path is NULL, so that the native spawn call is started
    without a program and with an empty argument vector. *)
Lemma Spawn_accepts_empty_array (self : Device) (r : positive) (rest : list Value)
    (w : World) :
  arrays w !! r = Some [] ->
  exists argv envp blocks w',
    Spawn self (VArray r :: rest) w
      = Done (Returned (VPromise (length (operations w)))) w' /\
    operations w'
      = operations w ++ [{| scheduled_operation := SpawnOperation None argv envp indeterminate;
                            scheduled_wrapper := self |}] /\
    captured (heap w') None argv envp blocks None [] (c_str <$> environ w) /\
    Begin (handle_ self) (SpawnOperation None argv envp indeterminate) w'
      = Done tt (emit (EvBegin (frida_device_spawn (handle_ self) None [] 0
                                  (c_str <$> environ w)
                                  (Z.of_nat (length (environ w))))) w').
Proof.
  intros Harray.
  destruct (Spawn_accepts self r rest [] w Harray)
    as (path & argv & envp & blocks & w' & Hrun & Hops & Hcap & _).
  { reflexivity. }
  assert (path = None) as ->.
  { destruct Hcap as (? & ? & ? & ? & _ & _ & _ & _ & Hpath & _). by destruct path. }
  exists argv, envp, blocks, w'. do 3 (split; [done|]).
  rewrite (Begin_captured _ _ _ _ _ _ _ _ _ _ Hcap). rewrite !length_fmap. reflexivity.
Qed.

(** The call [spawn([])] does not throw: it returns the promise of a
    scheduled operation, which starts the native call with a NULL path. *)
Lemma Spawn_empty_array_returns_promise :
  exists argv envp w',
    Spawn local_wrapper [VArray 1] (world_with_array []) = Done (Returned (VPromise 0)) w' /\
    operations w'
      = [{| scheduled_operation := SpawnOperation None argv envp indeterminate;
            scheduled_wrapper := local_wrapper |}] /\
    Begin local_system (SpawnOperation None argv envp indeterminate) w'
      = Done tt (emit (EvBegin (frida_device_spawn local_system None [] 0
                                  ["HOME=/root"%string] 1)) w').
Proof.
  destruct (Spawn_accepts_empty_array local_wrapper 1%positive [] (world_with_array []))
    as (argv & envp & blocks & w' & Hrun & Hops & _ & Hbegin).
  { apply lookup_insert_eq. }
  exists argv, envp, w'. by repeat split.
Defined.

(** C1 (amended).  When the argument of spawn is missing, is not an array,
    or is an array whose first element that is not a string is a value that
    can be read (no read up to it throws; the array has fewer than 2^32 - 1
    elements, or it has 2^32 - 1 and starts with that element), the call
    throws the type error "Bad argument, expected argv as an array of
    strings" at once: what comes back is the exception and not a promise,
    no operation was created or scheduled, and the heap is as it was before
    the call.  An empty array is not among the refused arguments. *)
Theorem Spawn_validation_throws (self : Device) (info : list Value) (w : World) :
  argv_argument_refused w info ->
  exists w' events,
    Spawn self info w
      = Done (ThrewTypeError "Bad argument, expected argv as an array of strings") w' /\
    operations w' = operations w /\
    heap w' = heap w /\
    arrays w' = arrays w /\ refcounts w' = refcounts w /\ environ w' = environ w /\
    trace w' = trace w ++ events /\
    Forall (fun e => memory_event e = true) events.
Proof.
  intros [-> | [Hno | (r & strings & bad & more & Hfirst & Harray & Hbad & Hsize)]].
  - exists w, []. rewrite app_nil_r. by repeat split.
  - exists w, []. rewrite (Spawn_without_array self info w Hno), app_nil_r. by repeat split.
  - apply info_at_array in Hfirst as [rest ->].
    destruct Hsize as [Hfits|[Hwrap ->]].
    + destruct (Spawn_rejects_element self r rest strings bad more w Harray Hbad Hfits)
        as (argv & items & w' & Hrun & Hheap & (Ha & Hr & He & Ho) & _ & _ & Htr).
      exists w', ([EvAlloc argv] ++ (EvAlloc <$> items) ++ (EvFree <$> items)
                  ++ [EvFree argv]).
      do 7 (split; [done|]).
      repeat (apply Forall_app; split); try (by repeat constructor);
        by apply Forall_fmap, Forall_true.
    + exists w, []. rewrite (Spawn_wraps self r rest _ w Harray Hwrap), app_nil_r.
      cbn [fmap list_fmap app]. destruct bad; try discriminate; by repeat split.
Qed.

Lemma Spawn_validation_throws_witness :
  let w := world_with_array [VString "/bin/ls"; VNumber (S754_zero false); VString "-l"] in
  exists w' events,
    Spawn local_wrapper [VArray 1] w
      = Done (ThrewTypeError "Bad argument, expected argv as an array of strings") w' /\
    operations w' = operations w /\
    heap w' = heap w /\
    arrays w' = arrays w /\ refcounts w' = refcounts w /\ environ w' = environ w /\
    trace w' = trace w ++ events /\
    Forall (fun e => memory_event e = true) events.
Proof.
  intros w. apply (Spawn_validation_throws local_wrapper [VArray 1] w).
  right; right.
  exists 1%positive, ["/bin/ls"%string], (VNumber (S754_zero false)), [Holds (VString "-l")].
  split; [reflexivity|]. split; [apply lookup_insert_eq|].
  split; [reflexivity|]. left. reflexivity.
Defined.

(** ** Where the validation of spawn falls short *)

Lemma length_cons {A} (x : A) (l : list A) : length (x :: l) = S (length l).
Proof. reflexivity. Qed.

Lemma lookup_cons_next {A} (x : A) (l : list A) (i : nat) : (x :: l) !! S i = l !! i.
Proof. reflexivity. Qed.

Lemma world_with_array_lookup (elements : list Value) :
  arrays (world_with_array elements) !! 1%positive = Some (Holds <$> elements).
Proof. apply lookup_insert_eq. Qed.

Lemma longest_array_length : Z.of_nat (length longest_array) = (UINT32_MOD - 1)%Z.
Proof.
  unfold longest_array.
  rewrite (length_cons (VString "/bin/true")), length_replicate, Nat2Z.inj_succ.
  rewrite Z2Nat.id; [reflexivity|]. intros H; discriminate H.
Qed.

(** C10.  Validation is meant to stop at the first element that is not a
    string, to free what it copied and to throw, which it does on every
    array of fewer than 2^32 - 1 elements whose elements up to that one can
    be read ([Spawn_rejects_element]).  On an array of 2^32 - 1 elements
    that starts with a string, however, the number of slots to allocate
    wraps around to zero, no vector is allocated, and the copy of the first
    string is stored through NULL: the process faults before validation
    reaches an element that is not a string, and nothing is freed or
    thrown. *)
Theorem Spawn_faults_on_longest_array (self : Device) (r : positive)
    (rest : list Value) (s : string) (more : list Element) (w : World) :
  arrays w !! r = Some (Holds (VString s) :: more) ->
  Z.of_nat (length (Holds (VString s) :: more)) = (UINT32_MOD - 1)%Z ->
  Spawn self (VArray r :: rest) w = Crashed NullDereference.
Proof. intros Harray Hlen. by rewrite (Spawn_wraps self r rest _ w Harray Hlen). Qed.

Lemma Spawn_faults_on_longest_array_witness :
  longest_array !! 1%nat = Some VUndefined /\
  Spawn local_wrapper [VArray 1] (world_with_array longest_array)
    = Crashed NullDereference.
Proof.
  split.
  - unfold longest_array. rewrite lookup_cons_next.
    apply lookup_replicate_2. apply Nat2Z.inj_lt.
    rewrite Z2Nat.id; [reflexivity|]. intros H; discriminate H.
  - apply (Spawn_faults_on_longest_array local_wrapper 1%positive [] "/bin/true"
             (Holds <$> replicate (Z.to_nat 4294967294) VUndefined)
             (world_with_array longest_array)).
    + rewrite world_with_array_lookup. unfold longest_array.
      rewrite fmap_cons. reflexivity.
    + rewrite (length_cons (Holds (VString "/bin/true"))), length_fmap, length_replicate,
        Nat2Z.inj_succ.
      rewrite Z2Nat.id; [reflexivity|]. intros H; discriminate H.
Defined.

(** * Further properties *)

(** ** The process id between the host and the native call *)

(** A number whose conversion to an integer is positive is accepted by the
    three methods, which schedule their operation with the conversion cast
    to [guint]. *)
Lemma pid_methods_accept `{Platform} (self : Device) (d : double)
    (rest : list Value) (w : World) :
  (0 < ToInteger_Value d)%Z ->
  let pid := guint_of_int64 (ToInteger_Value d) in
  let promise := Returned (VPromise (length (operations w))) in
  Resume self (VNumber d :: rest) w
    = Done promise (scheduled (ResumeOperation pid) self w) /\
  Kill self (VNumber d :: rest) w
    = Done promise (scheduled (KillOperation pid) self w) /\
  Attach self (VNumber d :: rest) w
    = Done promise (scheduled (AttachOperation pid indeterminate) self w).
Proof.
  intros Hpos pid promise. unfold Resume, Kill, Attach.
  assert ((info_Length (VNumber d :: rest) <? 1)%Z = false) as ->.
  { apply Z.ltb_ge. unfold info_Length. rewrite length_cons. lia. }
  change (info_at (VNumber d :: rest) 0) with (VNumber d).
  cbn [IsNumber negb orb Value_ToInteger_Value].
  assert ((ToInteger_Value d <=? 0)%Z = false) as -> by (apply Z.leb_gt; lia).
  by repeat split.
Qed.

(** A number whose conversion to an integer is not positive is refused by
    the three methods. *)
Lemma pid_methods_refuse `{Platform} (self : Device) (d : double)
    (rest : list Value) (w : World) :
  (ToInteger_Value d <= 0)%Z ->
  Resume self (VNumber d :: rest) w = Done (ThrewTypeError pid_message) w /\
  Kill self (VNumber d :: rest) w = Done (ThrewTypeError pid_message) w /\
  Attach self (VNumber d :: rest) w = Done (ThrewTypeError pid_message) w.
Proof.
  intros Hle. unfold Resume, Kill, Attach.
  assert ((info_Length (VNumber d :: rest) <? 1)%Z = false) as ->.
  { apply Z.ltb_ge. unfold info_Length. rewrite length_cons. lia. }
  change (info_at (VNumber d :: rest) 0) with (VNumber d).
  cbn [IsNumber negb orb Value_ToInteger_Value].
  assert ((ToInteger_Value d <=? 0)%Z = true) as -> by (apply Z.leb_le; lia).
  by repeat split.
Qed.

Lemma vanishes_ToInteger_Value `{Platform} (d : double) :
  vanishes d = true -> ToInteger_Value d = 0%Z.
Proof.
  destruct d as [s|s| |s m e]; cbn [vanishes ToInteger_Value]; try done.
  intros Hsmall%Z.ltb_lt.
  assert (e < 0)%Z as Hneg.
  { destruct (Z.ltb_spec e 0) as [|Hge]; [done|]. exfalso.
    destruct (Z.eq_dec e 0%Z) as [->|Hne]; [simpl in Hsmall; lia|].
    rewrite Z.pow_neg_r in Hsmall by lia. lia. }
  assert (Z.shiftl (Z.pos m) e = 0)%Z as Hzero.
  { rewrite <- (Z.opp_involutive e) at 1. rewrite Z.shiftl_opp_r.
    rewrite Z.shiftr_div_pow2 by lia. apply Z.div_small. lia. }
  unfold truncate. rewrite Hzero. by destruct s.
Qed.

(** X1.  A process id from 1 to 2^32 - 1 reaches the native call unchanged:
    when the integer conversion of the number given to resume, kill or
    attach lies in that range, the operation that is scheduled carries
    exactly that integer, and its native call is started with it. *)
Theorem pid_in_range_is_passed_unchanged `{Platform} (self : Device) (d : double)
    (rest : list Value) (w : World) :
  let pid := ToInteger_Value d in
  let promise := Returned (VPromise (length (operations w))) in
  (0 < pid < UINT32_MOD)%Z ->
  (Resume self (VNumber d :: rest) w
     = Done promise (scheduled (ResumeOperation pid) self w) /\
   Kill self (VNumber d :: rest) w
     = Done promise (scheduled (KillOperation pid) self w) /\
   Attach self (VNumber d :: rest) w
     = Done promise (scheduled (AttachOperation pid indeterminate) self w)) /\
  (forall w', Begin (handle_ self) (ResumeOperation pid) w'
     = Done tt (emit (EvBegin (frida_device_resume (handle_ self) pid)) w')) /\
  (forall w', Begin (handle_ self) (KillOperation pid) w'
     = Done tt (emit (EvBegin (frida_device_kill (handle_ self) pid)) w')) /\
  (forall w' m, Begin (handle_ self) (AttachOperation pid m) w'
     = Done tt (emit (EvBegin (frida_device_attach (handle_ self) pid)) w')).
Proof.
  intros pid promise Hrange.
  split; [|by repeat split].
  pose proof (pid_methods_accept self d rest w (proj1 Hrange)) as Hrun.
  cbv zeta in Hrun. fold pid in Hrun.
  replace (guint_of_int64 pid) with pid in Hrun; [exact Hrun|].
  unfold guint_of_int64. symmetry. apply Z.mod_small. lia.
Qed.

Lemma pid_in_range_is_passed_unchanged_witness :
  Kill (H := x86_64) local_wrapper [VNumber (S754_finite false 4242 0)] empty_world
    = Done (Returned (VPromise 0)) (scheduled (KillOperation 4242) local_wrapper empty_world).
Proof.
  refine (proj1 (proj2 (proj1
    (@pid_in_range_is_passed_unchanged x86_64 local_wrapper
       (S754_finite false 4242 0) [] empty_world _)))).
  vm_compute. split; reflexivity.
Defined.

(** X2.  A number whose integral part lies between 2^32 and 2^63 - 1 is
    not refused.  The positivity check is made on the 64-bit integer and the
    cast to [guint] comes after it, so the operation carries another process
    id than the one given: the one below 2^32 that is congruent to it modulo
    2^32.  A multiple of 2^32 in that range thus passes the check and
    reaches the native call as process id 0.  A number beyond 2^63 - 1, and
    the positive infinity, does not fit the 64-bit integer: it converts as
    the platform does, and it is refused wherever that conversion is not
    positive, as it is on x86-64. *)
Theorem pid_beyond_guint_wraps_around `{Platform} (self : Device) (d : double)
    (rest : list Value) (w : World) :
  let promise := Returned (VPromise (length (operations w))) in
  (forall m e,
     d = S754_finite false m e ->
     let n := truncate false m e in
     (UINT32_MOD <= n <= INT64_MAX)%Z ->
     exists pid,
       (0 <= pid < UINT32_MOD)%Z /\ pid <> n /\
       ((n - pid) mod UINT32_MOD = 0)%Z /\
       ((n mod UINT32_MOD = 0)%Z -> pid = 0%Z) /\
       Resume self (VNumber d :: rest) w
         = Done promise (scheduled (ResumeOperation pid) self w) /\
       Kill self (VNumber d :: rest) w
         = Done promise (scheduled (KillOperation pid) self w) /\
       Attach self (VNumber d :: rest) w
         = Done promise (scheduled (AttachOperation pid indeterminate) self w) /\
       (forall w', Begin (handle_ self) (ResumeOperation pid) w'
          = Done tt (emit (EvBegin (frida_device_resume (handle_ self) pid)) w')) /\
       (forall w', Begin (handle_ self) (KillOperation pid) w'
          = Done tt (emit (EvBegin (frida_device_kill (handle_ self) pid)) w')) /\
       (forall w' m', Begin (handle_ self) (AttachOperation pid m') w'
          = Done tt (emit (EvBegin (frida_device_attach (handle_ self) pid)) w'))) /\
  (d = S754_infinity false \/
   (exists m e, d = S754_finite false m e /\ (INT64_MAX < truncate false m e)%Z) ->
   ToInteger_Value d = int64_of_positive_excess /\
   ((int64_of_positive_excess <= 0)%Z ->
    Resume self (VNumber d :: rest) w
      = Done (ThrewTypeError "Bad argument, expected pid") w /\
    Kill self (VNumber d :: rest) w
      = Done (ThrewTypeError "Bad argument, expected pid") w /\
    Attach self (VNumber d :: rest) w
      = Done (ThrewTypeError "Bad argument, expected pid") w)).
Proof.
  intros promise. split.
  - intros m e -> n Hrange.
    assert (ToInteger_Value (S754_finite false m e) = n) as Ht.
    { cbn [ToInteger_Value]. fold n.
      assert ((INT64_MIN <=? n)%Z = true) as ->
        by (apply Z.leb_le; unfold INT64_MIN, UINT32_MOD in *; lia).
      assert ((n <=? INT64_MAX)%Z = true) as -> by (apply Z.leb_le; lia).
      reflexivity. }
    exists (guint_of_int64 n).
    assert (0 < UINT32_MOD)%Z as Hmod by reflexivity.
    pose proof (Z.mod_pos_bound n UINT32_MOD Hmod) as Hbound.
    unfold guint_of_int64.
    split; [done|]. split; [lia|]. split.
    { rewrite Zminus_mod_idemp_r, Z.sub_diag. reflexivity. }
    split; [done|].
    assert (0 < ToInteger_Value (S754_finite false m e))%Z as Hpos by lia.
    destruct (pid_methods_accept self _ rest w Hpos) as (Hr & Hk & Ha).
    rewrite Ht in Hr, Hk, Ha. by repeat split.
  - intros Hbeyond.
    assert (ToInteger_Value d = int64_of_positive_excess) as Ht.
    { destruct Hbeyond as [->|(m & e & -> & Hbig)]; [reflexivity|].
      cbn [ToInteger_Value].
      assert ((truncate false m e <=? INT64_MAX)%Z = false) as ->
        by (apply Z.leb_gt; lia).
      by rewrite andb_false_r. }
    split; [done|]. intros Hle. apply pid_methods_refuse. lia.
Qed.

Lemma pid_beyond_guint_wraps_around_witness :
  (exists pid,
     pid = 0%Z /\
     Kill (H := x86_64) local_wrapper [VNumber (S754_finite false 1 32)] empty_world
       = Done (Returned (VPromise 0))
           (scheduled (KillOperation pid) local_wrapper empty_world) /\
     Begin local_system (KillOperation pid) empty_world
       = Done tt (emit (EvBegin (frida_device_kill local_system pid)) empty_world)) /\
  Kill (H := x86_64) local_wrapper [VNumber (S754_finite false 1 63)] empty_world
    = Done (ThrewTypeError "Bad argument, expected pid") empty_world /\
  Kill (H := x86_64) local_wrapper [VNumber (S754_infinity false)] empty_world
    = Done (ThrewTypeError "Bad argument, expected pid") empty_world.
Proof.
  split; [|split].
  - destruct (proj1 (@pid_beyond_guint_wraps_around x86_64 local_wrapper
                       (S754_finite false 1 32) [] empty_world) 1%positive 32%Z eq_refl)
      as (pid & _ & _ & _ & Hzero & _ & Hkill & _ & _ & Hbegin & _).
    { vm_compute. split; discriminate. }
    exists pid. split; [apply Hzero; reflexivity|]. split; [exact Hkill|apply Hbegin].
  - destruct (proj2 (@pid_beyond_guint_wraps_around x86_64 local_wrapper
                       (S754_finite false 1 63) [] empty_world)) as [_ Hrefused].
    + right. exists 1%positive, 63%Z. split; [reflexivity|]. vm_compute. reflexivity.
    + apply Hrefused. vm_compute. discriminate.
  - destruct (proj2 (@pid_beyond_guint_wraps_around x86_64 local_wrapper
                       (S754_infinity false) [] empty_world)) as [_ Hrefused].
    + by left.
    + apply Hrefused. vm_compute. discriminate.
Defined.

(** X3.  A number strictly between -1 and 1, and NaN, is refused by resume,
    kill and attach although it is a number and, when it is a positive
    fraction or NaN, is not at most zero: its conversion to an integer is 0,
    and it is the conversion that is compared.  The call throws the type
    error and leaves the world as it is. *)
Theorem numbers_that_vanish_are_refused `{Platform} (self : Device) (d : double)
    (rest : list Value) (w : World) :
  vanishes d = true ->
  ToInteger_Value d = 0%Z /\
  Resume self (VNumber d :: rest) w
    = Done (ThrewTypeError "Bad argument, expected pid") w /\
  Kill self (VNumber d :: rest) w
    = Done (ThrewTypeError "Bad argument, expected pid") w /\
  Attach self (VNumber d :: rest) w
    = Done (ThrewTypeError "Bad argument, expected pid") w.
Proof.
  intros Hd. pose proof (vanishes_ToInteger_Value d Hd) as Hzero.
  split; [done|]. apply pid_methods_refuse. lia.
Qed.

Lemma numbers_that_vanish_are_refused_witness :
  number_le_zero (S754_finite false 1 (-1)) = false /\
  Attach (H := x86_64) local_wrapper [VNumber (S754_finite false 1 (-1))] empty_world
    = Done (ThrewTypeError "Bad argument, expected pid") empty_world /\
  Attach (H := x86_64) local_wrapper [VNumber S754_nan] empty_world
    = Done (ThrewTypeError "Bad argument, expected pid") empty_world.
Proof.
  split; [reflexivity|]. split.
  - exact (proj2 (proj2 (proj2 (@numbers_that_vanish_are_refused x86_64 local_wrapper
                                  (S754_finite false 1 (-1)) [] empty_world eq_refl)))).
  - exact (proj2 (proj2 (proj2 (@numbers_that_vanish_are_refused x86_64 local_wrapper
                                  S754_nan [] empty_world eq_refl)))).
Defined.

(** X4.  The process id that a spawn operation fulfils its future with can
    be handed back as it is: the host number built from a [guint] other
    than 0 is accepted by resume, kill and attach, and the operation they
    schedule carries the very process id that the native spawn call
    returned.  The number built from the process id 0 is refused. *)
Theorem spawned_pid_round_trips `{Platform} (self : Device) (path argv envp : ptr)
    (m : member Z) (result : GAsyncResult Z) (rest : list Value) (w w0 : World) :
  let pid := finish_value result in
  let promise := Returned (VPromise (length (operations w))) in
  finish_error result = None ->
  (0 <= pid < UINT32_MOD)%Z ->
  exists v,
    Finish (SpawnOperation path argv envp m) result w0 = Done (Fulfilled v) w0 /\
    if (pid =? 0)%Z then
      Resume self (v :: rest) w = Done (ThrewTypeError "Bad argument, expected pid") w /\
      Kill self (v :: rest) w = Done (ThrewTypeError "Bad argument, expected pid") w /\
      Attach self (v :: rest) w = Done (ThrewTypeError "Bad argument, expected pid") w
    else
      Resume self (v :: rest) w
        = Done promise (scheduled (ResumeOperation pid) self w) /\
      Kill self (v :: rest) w
        = Done promise (scheduled (KillOperation pid) self w) /\
      Attach self (v :: rest) w
        = Done promise (scheduled (AttachOperation pid indeterminate) self w).
Proof.
  intros pid promise Herr Hrange. exists (New_Uint32 pid). split.
  { rewrite (Finish_fulfils (SpawnOperation path argv envp m)) by done. reflexivity. }
  pose proof (ToInteger_Value_number_of_Z pid Hrange) as Hback.
  unfold New_Uint32. destruct (Z.eqb_spec pid 0) as [Hzero|Hnonzero].
  - apply pid_methods_refuse. lia.
  - pose proof (pid_methods_accept self (number_of_Z pid) rest w) as Hrun.
    cbv zeta in Hrun. rewrite Hback in Hrun.
    replace (guint_of_int64 pid) with pid in Hrun.
    + apply Hrun. lia.
    + unfold guint_of_int64. symmetry. by apply Z.mod_small.
Qed.

Lemma spawned_pid_round_trips_witness :
  exists v,
    Finish (SpawnOperation None None None indeterminate)
      {| finish_value := 4242%Z; finish_error := None |} empty_world
      = Done (Fulfilled v) empty_world /\
    Resume (H := x86_64) local_wrapper [v] empty_world
      = Done (Returned (VPromise 0))
          (scheduled (ResumeOperation 4242) local_wrapper empty_world).
Proof.
  destruct (@spawned_pid_round_trips x86_64 local_wrapper None None None indeterminate
              {| finish_value := 4242%Z; finish_error := None |} [] empty_world empty_world
              eq_refl)
    as (v & Hfinish & Hback).
  { vm_compute. split; [discriminate|reflexivity]. }
  exists v. split; [exact Hfinish|]. exact (proj1 Hback).
Defined.

(** ** The session of an attach operation *)

(** X5.  An attach operation that completed without a native error and
    with a session fulfils its future with what its result method returns:
    a Session wrapper of the handle that the finish call returned.  The
    reference that came with the finish call is released once the wrapper
    holds its own, so that the count of every native object is the same
    after marshalling as before. *)
Theorem Attach_fulfilled (pid : Z) (m : member (option positive))
    (result : GAsyncResult (option positive)) (a : positive) (w : World) :
  finish_error result = None ->
  finish_value result = Some a ->
  let o := (FRIDA_TYPE_SESSION, a) in
  let finished := (End (AttachOperation pid m) result).1 in
  finished = AttachOperation pid (assigned (Some a)) /\
  Finish (AttachOperation pid m) result w = fulfil (Result finished w) /\
  exists w',
    Result finished w = Done (VObject SessionClass o) w' /\
    same_memory w w' /\
    trace w' = trace w ++ [EvRef o; EvWrap SessionClass o; EvUnref o] /\
    forall o', refcount w' o' = refcount w o'.
Proof.
  intros Herr Hvalue o finished.
  split; [unfold finished; destruct result; cbn in *; by subst|].
  split; [by apply (Finish_fulfils (AttachOperation pid m))|].
  unfold finished. destruct result as [value error].
  cbn [finish_value] in Hvalue. subst value. cbn [End fst finish_value].
  cbn [Result read_member]. norm. unfold Session_New. fold o.
  destruct (Wrapper_New_run SessionClass o w) as (w1 & Hrun1 & Hmem1 & Htr1 & Hrc1).
  destruct (g_object_unref_run o w1 (refcount w o)) as (w2 & Hrun2 & Hmem2 & Htr2 & Hrc2).
  { rewrite Hrc1. by rewrite decide_True. }
  exists w2. split.
  - run Hrun1. run Hrun2. reflexivity.
  - split; [by eapply same_memory_trans|]. split.
    + rewrite Htr2, Htr1. by rewrite <- app_assoc.
    + intros o'. rewrite Hrc2. case_decide; [by subst|].
      rewrite Hrc1. by rewrite decide_False.
Qed.

Lemma Attach_fulfilled_witness :
  let o := (FRIDA_TYPE_SESSION, 8%positive) in
  let result := {| finish_value := Some 8%positive; finish_error := None |} in
  let w := with_refcounts (insert o 1%nat) empty_world in
  exists w',
    Finish (AttachOperation 4242 indeterminate) result w
      = Done (Fulfilled (VObject SessionClass o)) w' /\
    refcount w' o = 1%nat.
Proof.
  intros o result w.
  destruct (Attach_fulfilled 4242 indeterminate result 8%positive w eq_refl eq_refl)
    as (_ & Hfinish & w' & Hresult & _ & _ & Hcount).
  exists w'. split.
  - rewrite Hfinish, Hresult. reflexivity.
  - rewrite Hcount. reflexivity.
Defined.

(** ** More on the memory of spawn *)

(** The elements before an index that are all strings. *)
Lemma strings_before (k : nat) :
  forall elements : list Element,
    (forall i, (i < k)%nat -> exists s, elements !! i = Some (Holds (VString s))) ->
    exists strings, length strings = k /\ take k elements = string_element <$> strings.
Proof.
  induction k as [|k IH]; intros elements Hstrings.
  - exists []. by rewrite take_0.
  - destruct (Hstrings 0%nat) as [s Hs]; [lia|].
    destruct elements as [|element elements]; [discriminate|].
    injection Hs as ->.
    destruct (IH elements) as (strings & Hlen & Htake).
    { intros i Hi. apply (Hstrings (S i)). lia. }
    exists (s :: strings). cbn [length take fmap list_fmap]. split; [by rewrite Hlen|].
    fold (@fmap list _ _ _ string_element strings). by rewrite <- Htake.
Qed.

(** An array whose elements before the index [k] are strings. *)
Lemma strings_then (elements : list Element) (k : nat) (element : Element) :
  (forall i, (i < k)%nat -> exists s, elements !! i = Some (Holds (VString s))) ->
  elements !! k = Some element ->
  exists strings more,
    length strings = k /\
    elements = (string_element <$> strings) ++ element :: more.
Proof.
  intros Hstrings Hk.
  destruct (strings_before k elements Hstrings) as (strings & Hlen & Htake).
  exists strings, (drop (S k) elements). split; [done|].
  rewrite <- Htake, <- (drop_S _ _ _ Hk). by rewrite take_drop.
Qed.

(** X6.  On an array of fewer than 2^32 - 1 elements, validation stops at
    the first element that is not a string when that element is a value
    that can be read: with strings at the indices below [k] and a value of
    another kind at [k], exactly the [k] strings are copied, into blocks
    that are new and distinct; the copies and then the vector are freed
    again, in that order, before the type error is thrown; the heap is then
    the heap before the call, and nothing else of the world has changed, so
    that no operation is left behind.  What follows the index [k] is never
    read, be it an element whose read throws. *)
Theorem Spawn_stops_at_first_non_string (self : Device) (r : positive)
    (rest : list Value) (elements : list Element) (k : nat) (bad : Value)
    (w : World) :
  arrays w !! r = Some elements ->
  (forall i, (i < k)%nat -> exists s, elements !! i = Some (Holds (VString s))) ->
  elements !! k = Some (Holds bad) ->
  IsString bad = false ->
  (Z.of_nat (length elements) + 1 < UINT32_MOD)%Z ->
  exists argv items w',
    Spawn self (VArray r :: rest) w
      = Done (ThrewTypeError "Bad argument, expected argv as an array of strings") w' /\
    heap w' = heap w /\
    same_but_heap w w' /\
    length items = k /\
    NoDup (argv :: items) /\
    trace w' = trace w ++ [EvAlloc argv] ++ (EvAlloc <$> items)
                       ++ (EvFree <$> items) ++ [EvFree argv].
Proof.
  intros Harray Hstrings Hk Hbad Hfits.
  destruct (strings_then elements k (Holds bad) Hstrings Hk) as (strings & more & Hlen & ->).
  destruct (Spawn_rejects_element self r rest strings bad more w Harray Hbad Hfits)
    as (argv & items & w' & Hrun & Hheap & Hsame & Hitems & Hnodup & Htrace).
  exists argv, items, w'. do 3 (split; [done|]).
  split; [by rewrite Hitems|]. by split.
Qed.

Lemma Spawn_stops_at_first_non_string_witness :
  let w := with_arrays
             (insert 1%positive
                [Holds (VString "/bin/ls"); Holds (VString "-l"); Holds VNull; Throws])
             empty_world in
  exists argv items w',
    Spawn local_wrapper [VArray 1] w
      = Done (ThrewTypeError "Bad argument, expected argv as an array of strings") w' /\
    heap w' = heap w /\
    length items = 2%nat /\
    trace w' = trace w ++ [EvAlloc argv] ++ (EvAlloc <$> items)
                       ++ (EvFree <$> items) ++ [EvFree argv].
Proof.
  intros w.
  destruct (Spawn_stops_at_first_non_string local_wrapper 1%positive []
              [Holds (VString "/bin/ls"); Holds (VString "-l"); Holds VNull; Throws]
              2 VNull w)
    as (argv & items & w' & Hrun & Hheap & _ & Hlen & _ & Htrace).
  - apply lookup_insert_eq.
  - intros [|[|i]] Hi; [by eexists..|lia].
  - reflexivity.
  - reflexivity.
  - reflexivity.
  - by exists argv, items, w'.
Defined.

(** X16.  A read that throws aborts the process.  On an array with strings
    at the indices below [k] and, at [k], an element whose read throws (an
    accessor whose getter throws), spawn neither throws the type error nor
    returns: the element is read with [ToLocalChecked], which ends the
    process in a fatal error.  This holds of every array of fewer than
    2^32 - 1 elements, and of an array of 2^32 - 1 elements whose first
    element is the one whose read throws. *)
Theorem Spawn_aborts_when_a_read_throws (self : Device) (r : positive)
    (rest : list Value) (elements : list Element) (k : nat) (w : World) :
  arrays w !! r = Some elements ->
  (forall i, (i < k)%nat -> exists s, elements !! i = Some (Holds (VString s))) ->
  elements !! k = Some Throws ->
  (Z.of_nat (length elements) + 1 < UINT32_MOD)%Z \/
  (Z.of_nat (length elements) = UINT32_MOD - 1)%Z /\ k = 0%nat ->
  Spawn self (VArray r :: rest) w = Crashed FatalError /\
  forall c w', Spawn self (VArray r :: rest) w <> Done c w'.
Proof.
  intros Harray Hstrings Hk Hsize.
  assert (Spawn self (VArray r :: rest) w = Crashed FatalError) as ->.
  { destruct Hsize as [Hfits|[Hwrap ->]].
    - destruct (strings_then elements k Throws Hstrings Hk)
        as (strings & more & Hlen & ->).
      exact (Spawn_aborts_on_read self r rest strings more w Harray Hfits).
    - rewrite (Spawn_wraps self r rest elements w Harray Hwrap).
      destruct elements as [|element elements]; [discriminate|].
      by injection Hk as ->. }
  split; [done|]. intros c w'. discriminate.
Qed.

Lemma Spawn_aborts_when_a_read_throws_witness :
  let w := with_arrays
             (insert 1%positive [Holds (VString "/bin/true"); Throws; Holds VNull])
             empty_world in
  Spawn local_wrapper [VArray 1] w = Crashed FatalError.
Proof.
  intros w.
  refine (proj1 (Spawn_aborts_when_a_read_throws local_wrapper 1%positive []
                   [Holds (VString "/bin/true"); Throws; Holds VNull] 1 w _ _ _ _)).
  - apply lookup_insert_eq.
  - intros [|i] Hi; [by eexists|lia].
  - reflexivity.
  - left. reflexivity.
Defined.

(** The blocks of an operation are allocated. *)
Lemma captured_live (h : gmap addr Block) (path argv envp : ptr)
    (blocks : list addr) (program : option string)
    (arguments environment : list string) (a : addr) :
  captured h path argv envp blocks program arguments environment ->
  a ∈ blocks -> is_Some (h !! a).
Proof.
  intros (argv_a & argv_items & envp_a & envp_items
          & -> & -> & [Hargv Hargs] & [Henvp Henv] & Hpath & -> & _) Ha.
  rewrite !elem_of_app in Ha.
  destruct Ha as [Ha|[Ha|[Ha|[Ha|Ha]]]].
  - exact (holds_strings_live _ _ _ _ Henv Ha).
  - apply list_elem_of_singleton in Ha as ->. by rewrite Henvp.
  - exact (holds_strings_live _ _ _ _ Hargs Ha).
  - apply list_elem_of_singleton in Ha as ->. by rewrite Hargv.
  - destruct path as [p|]; [|by apply elem_of_nil in Ha].
    apply list_elem_of_singleton in Ha as ->.
    destruct program as [s|]; [by rewrite Hpath|done].
Qed.

(** Destroying an operation leaves an operation with other blocks as it
    is. *)
Lemma Operation_dtor_apart (path argv envp : ptr) (m : member Z)
    (blocks : list addr) (program : option string)
    (arguments environment : list string)
    (path' argv' envp' : ptr) (blocks' : list addr) (program' : option string)
    (arguments' environment' : list string) (w : World) :
  captured (heap w) path argv envp blocks program arguments environment ->
  captured (heap w) path' argv' envp' blocks' program' arguments' environment' ->
  (forall a, a ∈ blocks -> a ∉ blocks') ->
  exists w',
    Operation_dtor (SpawnOperation path argv envp m) w = Done tt w' /\
    (forall x, heap w' !! x = if decide (x ∈ blocks) then None else heap w !! x) /\
    trace w' = trace w ++ (EvFree <$> blocks) /\
    environ w' = environ w /\
    captured (heap w') path' argv' envp' blocks' program' arguments' environment'.
Proof.
  intros Hcap Hcap' Hapart.
  destruct (Operation_dtor_captured _ _ _ m _ _ _ _ _ Hcap)
    as (w' & Hdtor & Hheap & (_ & _ & Henv & _) & Htr).
  exists w'. do 4 (split; [done|]).
  eapply captured_agree; [|exact Hcap'].
  intros a Ha. rewrite Hheap. rewrite decide_False; [done|].
  intros Hin. by apply (Hapart a).
Qed.

(** X7.  Two spawn operations in flight share no memory.  The blocks that
    the second call allocates are distinct from the blocks of the first
    operation, whatever the two argument arrays are (they may be the same
    array).  Destroying either operation leaves the other one intact: its
    native call still receives its own program path, arguments and
    environment.  Destroying both, in either order, frees every block
    exactly once and leaves the heap as it was before the two calls. *)
Theorem Spawn_operations_share_nothing (self1 self2 : Device) (r1 r2 : positive)
    (rest1 rest2 : list Value) (strings1 strings2 : list string)
    (m1 m2 : member Z) (w : World) :
  arrays w !! r1 = Some (string_element <$> strings1) ->
  arrays w !! r2 = Some (string_element <$> strings2) ->
  (Z.of_nat (length strings1) + 1 < UINT32_MOD)%Z ->
  (Z.of_nat (length strings2) + 1 < UINT32_MOD)%Z ->
  exists path1 argv1 envp1 blocks1 w1 path2 argv2 envp2 blocks2 w2,
    Spawn self1 (VArray r1 :: rest1) w
      = Done (Returned (VPromise (length (operations w)))) w1 /\
    Spawn self2 (VArray r2 :: rest2) w1
      = Done (Returned (VPromise (S (length (operations w))))) w2 /\
    operations w2
      = operations w
        ++ [{| scheduled_operation := SpawnOperation path1 argv1 envp1 indeterminate;
               scheduled_wrapper := self1 |};
            {| scheduled_operation := SpawnOperation path2 argv2 envp2 indeterminate;
               scheduled_wrapper := self2 |}] /\
    NoDup (blocks1 ++ blocks2) /\
    (exists w3 w4,
       Operation_dtor (SpawnOperation path1 argv1 envp1 m1) w2 = Done tt w3 /\
       Begin (handle_ self2) (SpawnOperation path2 argv2 envp2 m2) w3
         = Done tt (emit (EvBegin (frida_device_spawn (handle_ self2)
                                     (c_str <$> head strings2)
                                     (c_str <$> strings2) (Z.of_nat (length strings2))
                                     (c_str <$> environ w)
                                     (Z.of_nat (length (environ w))))) w3) /\
       Operation_dtor (SpawnOperation path2 argv2 envp2 m2) w3 = Done tt w4 /\
       heap w4 = heap w /\
       trace w4 = trace w2 ++ (EvFree <$> blocks1) ++ (EvFree <$> blocks2)) /\
    (exists w3 w4,
       Operation_dtor (SpawnOperation path2 argv2 envp2 m2) w2 = Done tt w3 /\
       Begin (handle_ self1) (SpawnOperation path1 argv1 envp1 m1) w3
         = Done tt (emit (EvBegin (frida_device_spawn (handle_ self1)
                                     (c_str <$> head strings1)
                                     (c_str <$> strings1) (Z.of_nat (length strings1))
                                     (c_str <$> environ w)
                                     (Z.of_nat (length (environ w))))) w3) /\
       Operation_dtor (SpawnOperation path1 argv1 envp1 m1) w3 = Done tt w4 /\
       heap w4 = heap w /\
       trace w4 = trace w2 ++ (EvFree <$> blocks2) ++ (EvFree <$> blocks1)).
Proof.
  intros Harray1 Harray2 Hfits1 Hfits2.
  destruct (Spawn_accepts self1 r1 rest1 strings1 w Harray1 Hfits1)
    as (path1 & argv1 & envp1 & blocks1 & w1 & Hrun1 & Hops1 & Hcap1 & Hnew1 & Hframe1
        & Harrays1 & _ & Henv1).
  assert (arrays w1 !! r2 = Some (string_element <$> strings2)) as Harray2'
    by (by rewrite Harrays1).
  destruct (Spawn_accepts self2 r2 rest2 strings2 w1 Harray2' Hfits2)
    as (path2 & argv2 & envp2 & blocks2 & w2 & Hrun2 & Hops2 & Hcap2 & Hnew2 & Hframe2
        & _ & _ & Henv2).
  rewrite Henv1 in Hcap2.
  assert (forall a, a ∈ blocks1 -> a ∉ blocks2) as Hapart.
  { intros a Ha1 Ha2. destruct (captured_live _ _ _ _ _ _ _ _ a Hcap1 Ha1) as [b Hb].
    rewrite (Hnew2 a Ha2) in Hb. discriminate. }
  assert (forall a, a ∈ blocks2 -> a ∉ blocks1) as Hapart'.
  { intros a Ha2 Ha1. by apply (Hapart a). }
  assert (captured (heap w2) path1 argv1 envp1 blocks1
            (c_str <$> head strings1) (c_str <$> strings1) (c_str <$> environ w)) as Hcap1'.
  { eapply captured_agree; [|exact Hcap1]. intros a Ha. apply Hframe2. by apply Hapart. }
  assert (NoDup blocks1) as Hd1 by (by destruct Hcap1 as (? & ? & ? & ? & ? & ? & ? & ? & ? & ? & ?)).
  assert (NoDup blocks2) as Hd2 by (by destruct Hcap2 as (? & ? & ? & ? & ? & ? & ? & ? & ? & ? & ?)).
  assert (forall x, (if decide (x ∈ blocks1) then None
                     else if decide (x ∈ blocks2) then None else heap w2 !! x)
                    = heap w !! x) as Hback.
  { intros x. destruct (decide (x ∈ blocks1)) as [Hx1|Hx1]; [symmetry; by apply Hnew1|].
    destruct (decide (x ∈ blocks2)) as [Hx2|Hx2].
    - rewrite <- (Hframe1 x Hx1). symmetry. by apply Hnew2.
    - rewrite (Hframe2 x Hx2). by apply Hframe1. }
  exists path1, argv1, envp1, blocks1, w1, path2, argv2, envp2, blocks2, w2.
  split; [done|]. split.
  { rewrite Hrun2, Hops1, length_app. cbn [length]. by rewrite Nat.add_1_r. }
  split; [by rewrite Hops2, Hops1, <- app_assoc|].
  split; [apply NoDup_app; by repeat split|].
  split.
  - destruct (Operation_dtor_apart _ _ _ m1 _ _ _ _ _ _ _ _ _ _ _ w2 Hcap1' Hcap2 Hapart)
      as (w3 & Hdtor3 & Hheap3 & Htr3 & _ & Hcap3).
    destruct (Operation_dtor_captured _ _ _ m2 _ _ _ _ _ Hcap3)
      as (w4 & Hdtor4 & Hheap4 & _ & Htr4).
    exists w3, w4. split; [done|]. split.
    { rewrite (Begin_captured _ _ _ _ m2 _ _ _ _ _ Hcap3). by rewrite !length_fmap. }
    split; [done|]. split.
    + apply map_eq. intros x. rewrite Hheap4, Hheap3, <- (Hback x).
      destruct (decide (x ∈ blocks1)), (decide (x ∈ blocks2)); done.
    + by rewrite Htr4, Htr3, <- app_assoc.
  - destruct (Operation_dtor_apart _ _ _ m2 _ _ _ _ _ _ _ _ _ _ _ w2 Hcap2 Hcap1' Hapart')
      as (w3 & Hdtor3 & Hheap3 & Htr3 & _ & Hcap3).
    destruct (Operation_dtor_captured _ _ _ m1 _ _ _ _ _ Hcap3)
      as (w4 & Hdtor4 & Hheap4 & _ & Htr4).
    exists w3, w4. split; [done|]. split.
    { rewrite (Begin_captured _ _ _ _ m1 _ _ _ _ _ Hcap3). by rewrite !length_fmap. }
    split; [done|]. split.
    + apply map_eq. intros x. rewrite Hheap4, Hheap3, <- (Hback x).
      destruct (decide (x ∈ blocks1)), (decide (x ∈ blocks2)); done.
    + by rewrite Htr4, Htr3, <- app_assoc.
Qed.

Lemma Spawn_operations_share_nothing_witness :
  let w := world_with_array [VString "/bin/true"] in
  exists path1 argv1 envp1 w1 path2 argv2 envp2 w2 w3 w4,
    Spawn local_wrapper [VArray 1] w = Done (Returned (VPromise 0)) w1 /\
    Spawn local_wrapper [VArray 1] w1 = Done (Returned (VPromise 1)) w2 /\
    Operation_dtor (SpawnOperation path2 argv2 envp2 (assigned 4242%Z)) w2 = Done tt w3 /\
    Begin local_system (SpawnOperation path1 argv1 envp1 indeterminate) w3
      = Done tt (emit (EvBegin (frida_device_spawn local_system (Some "/bin/true"%string)
                                  ["/bin/true"%string] 1 ["HOME=/root"%string] 1)) w3) /\
    Operation_dtor (SpawnOperation path1 argv1 envp1 indeterminate) w3 = Done tt w4 /\
    heap w4 = heap w.
Proof.
  intros w.
  destruct (Spawn_operations_share_nothing local_wrapper local_wrapper 1%positive 1%positive
              [] [] ["/bin/true"%string] ["/bin/true"%string]
              indeterminate (assigned 4242%Z) w)
    as (path1 & argv1 & envp1 & blocks1 & w1 & path2 & argv2 & envp2 & blocks2 & w2
        & Hrun1 & Hrun2 & _ & _ & _ & w3 & w4 & Hdtor3 & Hbegin & Hdtor4 & Hheap & _).
  - apply lookup_insert_eq.
  - apply lookup_insert_eq.
  - reflexivity.
  - reflexivity.
  - exists path1, argv1, envp1, w1, path2, argv2, envp2, w2, w3, w4. by repeat split.
Defined.

(** ** The wrappers of one device *)

Lemma lifetimes_run (handle : FridaDevice) (steps : list Lifetime) :
  forall (n k : nat) (w : World),
    alive n steps = Some k ->
    (n <= refcount w (device_object handle))%nat ->
    exists w',
      lifetimes handle steps w = Done tt w' /\
      same_memory w w' /\
      (refcount w' (device_object handle) + n
       = refcount w (device_object handle) + k)%nat /\
      forall o', o' <> device_object handle -> refcount w' o' = refcount w o'.
Proof.
  set (o := device_object handle).
  induction steps as [|[|] rest IH]; intros n k w Halive Hn; cbn [alive] in Halive.
  - injection Halive as <-. exists w. split; [done|]. split; [apply same_memory_refl|done].
  - destruct (g_object_ref_run o w) as (w1 & Hrun1 & Hmem1 & _ & Hrc1).
    destruct (IH (S n) k w1 Halive) as (w' & Hrun & Hmem & Hcount & Hother).
    { rewrite Hrc1, decide_True by done. lia. }
    exists w'. split.
    { cbn [lifetimes]. unfold Device_ctor. cbn [handle_]. fold o. run Hrun1. exact Hrun. }
    split; [by eapply same_memory_trans|]. split.
    + rewrite Hrc1, decide_True in Hcount by done. lia.
    + intros o' Ho'. rewrite (Hother o' Ho'), Hrc1. by rewrite decide_False.
  - destruct n as [|n]; [discriminate|].
    destruct (refcount w o) as [|c] eqn:Hc; [lia|].
    destruct (g_object_unref_run o w c Hc) as (w1 & Hrun1 & Hmem1 & _ & Hrc1).
    destruct (IH n k w1 Halive) as (w' & Hrun & Hmem & Hcount & Hother).
    { rewrite Hrc1, decide_True by done. lia. }
    exists w'. split.
    { cbn [lifetimes]. unfold Device_dtor, frida_unref. cbn [handle_]. fold o.
      run Hrun1. exact Hrun. }
    split; [by eapply same_memory_trans|]. split.
    + rewrite Hrc1, decide_True in Hcount by done. lia.
    + intros o' Ho'. rewrite (Hother o' Ho'), Hrc1. by rewrite decide_False.
Qed.

(** X8.  The wrappers of one native device are counted by its reference
    count.  However constructions and destructions of wrappers of the same
    handle follow one another, as long as only wrappers that exist are
    destroyed, they all run, and afterwards the count of the handle exceeds
    its initial value by exactly the number of wrappers that are alive: the
    wrappers never release a reference that is not theirs, and destroying
    one wrapper leaves the handle to the others.  Nothing else of the world
    changes. *)
Theorem live_wrappers_are_counted (handle : FridaDevice) (steps : list Lifetime)
    (k : nat) (w : World) :
  alive 0 steps = Some k ->
  exists w',
    lifetimes handle steps w = Done tt w' /\
    refcount w' (device_object handle) = (refcount w (device_object handle) + k)%nat /\
    (forall o', o' <> device_object handle -> refcount w' o' = refcount w o') /\
    same_memory w w'.
Proof.
  intros Halive.
  destruct (lifetimes_run handle steps 0 k w Halive) as (w' & Hrun & Hmem & Hcount & Hother);
    [lia|].
  exists w'. split; [done|]. split; [lia|]. by split.
Qed.

Lemma live_wrappers_are_counted_witness :
  exists w',
    lifetimes local_system [Constructs; Constructs; Destroys] empty_world = Done tt w' /\
    refcount w' (device_object local_system) = 1%nat.
Proof.
  destruct (live_wrappers_are_counted local_system [Constructs; Constructs; Destroys]
              1 empty_world eq_refl) as (w' & Hrun & Hcount & _).
  exists w'. split; [exact Hrun|exact Hcount].
Defined.

(** ** The constructor *)

(** X9.  The constructor function yields an instance only when it is called
    as a constructor with exactly one argument that is an external.  Every
    other construct call throws the type error "Bad argument, expected raw
    handle".  So does every plain call, whatever its arguments are: it
    constructs an instance without arguments, which is refused.  In both
    cases the world is left as it is, so no reference was acquired. *)
Theorem Device_New_refuses (device_at : positive -> FridaDevice)
    (Events_New : FridaDevice -> M Value) (IsConstructCall : bool)
    (info : list Value) (w : World) :
  IsConstructCall = false \/ (forall p, info <> [VExternal p]) ->
  Device_New device_at Events_New IsConstructCall info w
    = Done (ConstructionThrew "Bad argument, expected raw handle") w.
Proof.
  intros Hbad. unfold Device_New.
  destruct IsConstructCall; [|reflexivity].
  destruct Hbad as [Hcall|Hinfo]; [discriminate|].
  unfold Device_construct.
  destruct info as [|v [|v' rest]]; [reflexivity| |].
  - destruct v; try reflexivity. by destruct (Hinfo p).
  - assert ((info_Length (v :: v' :: rest) =? 1)%Z = false) as ->; [|reflexivity].
    apply Z.eqb_neq. unfold info_Length. rewrite !length_cons. lia.
Qed.

Lemma Device_New_refuses_witness :
  Device_New device_of_examples events_of_examples false [VExternal 1] empty_world
    = Done (ConstructionThrew "Bad argument, expected raw handle") empty_world /\
  Device_New device_of_examples events_of_examples true [VExternal 1; VUndefined] empty_world
    = Done (ConstructionThrew "Bad argument, expected raw handle") empty_world.
Proof.
  split.
  - apply (Device_New_refuses device_of_examples events_of_examples false).
    by left.
  - apply (Device_New_refuses device_of_examples events_of_examples true).
    right. intros p. discriminate.
Defined.

(** A construct call with one external wraps the device it points at: the
    wrapper acquires its reference, and then the events object is built. *)
Lemma Device_construct_run (device_at : positive -> FridaDevice)
    (Events_New : FridaDevice -> M Value) (p : positive) (w : World) :
  let handle := device_at p in
  let o := device_object handle in
  exists w1,
    same_memory w w1 /\
    trace w1 = trace w ++ [EvRef o] /\
    (forall o', refcount w1 o' = if decide (o' = o) then S (refcount w o)
                                 else refcount w o') /\
    Device_construct device_at Events_New [VExternal p] w
      = (let* events := Events_New handle in
         ret (Constructed {| handle_ := handle |} events)) w1.
Proof.
  intros handle o.
  destruct (g_object_ref_run o w) as (w1 & Hrun1 & Hmem1 & Htr1 & Hrc1).
  exists w1. do 3 (split; [done|]).
  unfold Device_construct.
  change (info_at [VExternal p] 0) with (VExternal p).
  change (info_Length [VExternal p] =? 1)%Z with true.
  cbn [IsExternal External_Value negb orb].
  unfold Device_ctor. cbn [handle_]. norm. fold handle. fold o. run Hrun1. reflexivity.
Qed.

(** X10.  A construct call with exactly one external never throws.  The
    new object wraps a [Device] whose handle is the device the external
    points at; the wrapper acquires its one reference to that device, and
    nothing else has happened when the events object is built; the
    instance is returned with the events object as its [events] property
    whenever building it returns. *)
Theorem Device_New_wraps_the_handle (device_at : positive -> FridaDevice)
    (Events_New : FridaDevice -> M Value) (p : positive) (w : World) :
  let handle := device_at p in
  let o := device_object handle in
  exists w1,
    same_memory w w1 /\
    trace w1 = trace w ++ [EvRef o] /\
    (forall o', refcount w1 o' = if decide (o' = o) then S (refcount w o)
                                 else refcount w o') /\
    Device_New device_at Events_New true [VExternal p] w
      = (let* events := Events_New handle in
         ret (Constructed {| handle_ := handle |} events)) w1 /\
    (forall events w2,
       Events_New handle w1 = Done events w2 ->
       Device_New device_at Events_New true [VExternal p] w
         = Done (Constructed {| handle_ := handle |} events) w2) /\
    (forall message w2,
       Device_New device_at Events_New true [VExternal p] w
         <> Done (ConstructionThrew message) w2).
Proof.
  intros handle o.
  destruct (Device_construct_run device_at Events_New p w)
    as (w1 & Hmem & Htr & Hrc & Hrun).
  exists w1. do 3 (split; [done|]). cbn [Device_New]. rewrite Hrun.
  subst handle o. split; [done|]. unfold bind, ret. split.
  - intros events w2 Hevents. by rewrite Hevents.
  - intros message w2. by destruct (Events_New (device_at p) w1).
Qed.

Lemma Device_New_wraps_the_handle_witness :
  exists w1,
    Device_New device_of_examples events_of_examples true [VExternal 7] empty_world
      = Done (Constructed {| handle_ := device_of_examples 7 |} VUndefined) w1 /\
    refcount w1 (FRIDA_TYPE_DEVICE, 7%positive) = 1%nat /\
    trace w1 = [EvRef (FRIDA_TYPE_DEVICE, 7%positive)].
Proof.
  destruct (Device_New_wraps_the_handle device_of_examples events_of_examples
              7%positive empty_world)
    as (w1 & _ & Htrace & Hcount & _ & Hbuilt & _).
  exists w1. split; [by apply Hbuilt|]. split; [|exact Htrace].
  rewrite Hcount. reflexivity.
Defined.

(** ** Registration *)

(** The template that [Init] builds, as the exports and the runtime hold
    it. *)
Lemma Init_registers `{Platform} (device_at : positive -> FridaDevice)
    (Events_New : FridaDevice -> M Value) (exports : Exports) (runtime : Runtime) :
  exists ctor,
    (Init device_at Events_New exports runtime).1 = <["Device"%string := ctor]> exports /\
    (Init device_at Events_New exports runtime).2
      = <[DEVICE_DATA_CONSTRUCTOR := ctor]> runtime /\
    class_name ctor = "Device"%string /\
    callback ctor = Device_New device_at Events_New /\
    instance_accessors ctor
      = [{| accessor_name := "id"; accessor_getter := GetId;
            accessor_setter := None; accessor_ReadOnly := true |};
         {| accessor_name := "name"; accessor_getter := GetName;
            accessor_setter := None; accessor_ReadOnly := true |};
         {| accessor_name := "icon"; accessor_getter := GetIcon;
            accessor_setter := None; accessor_ReadOnly := true |};
         {| accessor_name := "type"; accessor_getter := GetType;
            accessor_setter := None; accessor_ReadOnly := true |}] /\
    prototype_methods ctor
      = [("getFrontmostApplication"%string, GetFrontmostApplication);
         ("enumerateApplications"%string, EnumerateApplications);
         ("enumerateProcesses"%string, EnumerateProcesses);
         ("spawn"%string, Spawn);
         ("resume"%string, Resume);
         ("kill"%string, Kill);
         ("attach"%string, Attach)].
Proof. eexists. repeat split. Qed.

(** X11.  What [Init] registers is what the factory needs.  [Init] exports
    the constructor under the name Device and stores the same constructor
    in the runtime, leaving every other entry of both as it is.  In every
    runtime that still holds that constructor, wrapping a native handle
    with [Device::New (handle, runtime)] passes the validation of the
    constructor: it never throws, and it behaves as the construct call with
    the handle in an external, so the wrapper holds the device at that
    address and has acquired its one reference when the events object is
    built. *)
Theorem Device_New_handle_after_Init `{Platform} (device_at : positive -> FridaDevice)
    (Events_New : FridaDevice -> M Value) (exports : Exports) (runtime later : Runtime)
    (p : positive) (w : World) :
  let registered := Init device_at Events_New exports runtime in
  let handle := device_at p in
  let o := device_object handle in
  later !! DEVICE_DATA_CONSTRUCTOR = registered.2 !! DEVICE_DATA_CONSTRUCTOR ->
  registered.1 !! "Device"%string = registered.2 !! "device:ctor"%string /\
  is_Some (registered.2 !! "device:ctor"%string) /\
  (forall key, key <> "Device"%string -> registered.1 !! key = exports !! key) /\
  (forall key, key <> "device:ctor"%string -> registered.2 !! key = runtime !! key) /\
  Device_New_handle p later w
    = Device_New device_at Events_New true [VExternal p] w /\
  (forall message w2, Device_New_handle p later w <> Done (ConstructionThrew message) w2) /\
  exists w1,
    trace w1 = trace w ++ [EvRef o] /\
    refcount w1 o = S (refcount w o) /\
    Device_New_handle p later w
      = (let* events := Events_New handle in
         ret (Constructed {| handle_ := handle |} events)) w1.
Proof.
  intros registered handle o Hlater.
  destruct (Init_registers device_at Events_New exports runtime)
    as (ctor & Hexports & Hruntime & _ & Hcallback & _).
  fold registered in Hexports, Hruntime.
  rewrite Hruntime in Hlater. rewrite Hexports, Hruntime.
  unfold DEVICE_DATA_CONSTRUCTOR in *. rewrite lookup_insert_eq in Hlater.
  rewrite !lookup_insert_eq.
  split; [done|]. split; [done|].
  split; [intros key Hkey; by rewrite lookup_insert_ne|].
  split; [intros key Hkey; by rewrite lookup_insert_ne|].
  assert (Device_New_handle p later w
          = Device_New device_at Events_New true [VExternal p] w) as Hsame.
  { unfold Device_New_handle, DEVICE_DATA_CONSTRUCTOR, NewInstance.
    by rewrite Hlater, Hcallback. }
  rewrite Hsame. split; [done|].
  destruct (Device_construct_run device_at Events_New p w)
    as (w1 & _ & Htr & Hrc & Hrun).
  cbn [Device_New]. rewrite Hrun. split.
  - intros message w2. unfold bind, ret.
    by destruct (Events_New (device_at p) w1).
  - exists w1. split; [done|]. split; [|done].
    rewrite Hrc. by rewrite decide_True.
Qed.

Lemma Device_New_handle_after_Init_witness :
  let registered := Init (H := x86_64) device_of_examples events_of_examples ∅ ∅ in
  exists w1,
    Device_New_handle 7 registered.2 empty_world
      = Done (Constructed {| handle_ := device_of_examples 7 |} VUndefined) w1 /\
    refcount w1 (FRIDA_TYPE_DEVICE, 7%positive) = 1%nat.
Proof.
  intros registered.
  destruct (@Device_New_handle_after_Init x86_64 device_of_examples events_of_examples
              ∅ ∅ registered.2 7%positive empty_world eq_refl)
    as (_ & _ & _ & _ & _ & _ & w1 & _ & Hcount & Hrun).
  exists w1. split; [exact Hrun|exact Hcount].
Defined.

(** ** The methods and the accessors that are registered *)

Lemma schedule_and_return_run (op : Operation) (self : Device) (w : World) :
  schedule_and_return op self w
    = Done (Returned (VPromise (length (operations w)))) (scheduled op self w).
Proof. reflexivity. Qed.

Lemma scheduled_scheduled_one (op : Operation) (self : Device) (w : World) :
  scheduled_one_or_threw self w (Returned (VPromise (length (operations w))))
    (scheduled op self w).
Proof. split; [done|]. split; [by exists op|done]. Qed.

Lemma threw_pid_message (self : Device) (w : World) :
  scheduled_one_or_threw self w (ThrewTypeError pid_message) w.
Proof. split; [by left|]. split; [apply same_memory_refl|done]. Qed.

Lemma Spawn_outcome (self : Device) (info : list Value) (w w' : World) (c : Completion) :
  (forall r elements, arrays w !! r = Some elements ->
                      (Z.of_nat (length elements) < UINT32_MOD)%Z) ->
  Spawn self info w = Done c w' ->
  scheduled_one_or_threw self w c w'.
Proof.
  intros Hv8 Hrun.
  assert (scheduled_one_or_threw self w (ThrewTypeError Spawn_message) w) as Hthrew.
  { split; [by right|]. split; [apply same_memory_refl|done]. }
  destruct (IsArray (info_at info 0)) eqn:Harr.
  2: { rewrite Spawn_without_array in Hrun by done. by injection Hrun as <- <-. }
  destruct (info_at info 0) as [| | | | |r| | |] eqn:Hfirst; try discriminate.
  apply info_at_array in Hfirst as [rest ->].
  destruct (arrays w !! r) as [elements|] eqn:Harray.
  2: { unfold Spawn in Hrun. change (info_at (VArray r :: rest) 0) with (VArray r) in Hrun.
       destruct (1 <=? info_Length (VArray r :: rest))%Z; [|by injection Hrun as <- <-].
       unfold bind, Array_elements in Hrun. by rewrite Harray in Hrun. }
  pose proof (Hv8 _ _ Harray) as Hlen.
  destruct (decide (Z.of_nat (length elements) = UINT32_MOD - 1)%Z) as [Hwrap|Hfits].
  { rewrite (Spawn_wraps self r rest elements w Harray Hwrap) in Hrun.
    destruct elements as [|[[]|] ?]; try discriminate; by injection Hrun as <- <-. }
  destruct (split_strings elements)
    as [(strings & ->)|[(strings & bad & more & -> & Hbad)|(strings & more & ->)]].
  - destruct (Spawn_accepts self r rest strings w Harray)
      as (path & argv & envp & blocks & w1 & Hrun1 & Hops & _ & _ & _ & Ha & Hr & He).
    { rewrite length_fmap in Hlen, Hfits. lia. }
    rewrite Hrun1 in Hrun. injection Hrun as <- <-.
    split; [done|]. split; [by eexists|done].
  - destruct (Spawn_rejects_element self r rest strings bad more w Harray Hbad)
      as (argv & items & w1 & Hthrow & Hheap & (Ha & Hr & He & Ho) & _); [lia|].
    rewrite Hthrow in Hrun. injection Hrun as <- <-.
    split; [by right|]. by repeat split.
  - rewrite (Spawn_aborts_on_read self r rest strings more w Harray) in Hrun by lia.
    discriminate.
Qed.

Lemma pid_method_outcome `{Platform} (self : Device) (info : list Value)
    (w w' : World) (c : Completion) :
  (Resume self info w = Done c w' -> scheduled_one_or_threw self w c w') /\
  (Kill self info w = Done c w' -> scheduled_one_or_threw self w c w') /\
  (Attach self info w = Done c w' -> scheduled_one_or_threw self w c w').
Proof.
  unfold Resume, Kill, Attach.
  destruct (_ || _).
  { repeat split; intros Hrun; injection Hrun as <- <-; apply threw_pid_message. }
  destruct (_ <=? 0)%Z.
  { repeat split; intros Hrun; injection Hrun as <- <-; apply threw_pid_message. }
  repeat split; intros Hrun; rewrite schedule_and_return_run in Hrun;
    injection Hrun as <- <-; apply scheduled_scheduled_one.
Qed.

(** X12.  Every method that [Init] registers on the prototype creates at
    most one operation per call.  A call that returns has either thrown one
    of the two type errors of the validation, leaving the heap, the host
    arrays, the environment, the reference counts and the scheduled
    operations as they were, or it has scheduled exactly one operation, on
    the wrapper it was called on, and returned the promise of that
    operation.  No method throws after scheduling, and none returns a
    promise without an operation behind it. *)
Theorem registered_methods_schedule_one_or_throw `{Platform}
    (device_at : positive -> FridaDevice) (Events_New : FridaDevice -> M Value)
    (exports : Exports) (runtime : Runtime) (ctor : FunctionTemplate)
    (name : string) (method : Device -> list Value -> M Completion)
    (self : Device) (info : list Value) (w w' : World) (c : Completion) :
  (Init device_at Events_New exports runtime).2 !! DEVICE_DATA_CONSTRUCTOR = Some ctor ->
  (name, method) ∈ prototype_methods ctor ->
  (forall r elements, arrays w !! r = Some elements ->
                      (Z.of_nat (length elements) < UINT32_MOD)%Z) ->
  method self info w = Done c w' ->
  scheduled_one_or_threw self w c w'.
Proof.
  intros Hctor Hmethod Hv8 Hrun.
  destruct (Init_registers device_at Events_New exports runtime)
    as (ctor' & _ & Hruntime & _ & _ & _ & Hmethods).
  rewrite Hruntime, lookup_insert_eq in Hctor. injection Hctor as <-.
  rewrite Hmethods in Hmethod.
  repeat (apply elem_of_cons in Hmethod as [Hmethod|Hmethod];
          [injection Hmethod as -> ->|]).
  - unfold GetFrontmostApplication in Hrun. rewrite schedule_and_return_run in Hrun.
    injection Hrun as <- <-. apply scheduled_scheduled_one.
  - unfold EnumerateApplications in Hrun. rewrite schedule_and_return_run in Hrun.
    injection Hrun as <- <-. apply scheduled_scheduled_one.
  - unfold EnumerateProcesses in Hrun. rewrite schedule_and_return_run in Hrun.
    injection Hrun as <- <-. apply scheduled_scheduled_one.
  - by apply (Spawn_outcome self info w w' c).
  - exact (proj1 (pid_method_outcome self info w w' c) Hrun).
  - exact (proj1 (proj2 (pid_method_outcome self info w w' c)) Hrun).
  - exact (proj2 (proj2 (pid_method_outcome self info w w' c)) Hrun).
  - by apply elem_of_nil in Hmethod.
Qed.

Lemma registered_methods_schedule_one_or_throw_witness :
  let w := world_with_array [VString "/bin/true"; VUndefined] in
  let w1 := scheduled (KillOperation 7) local_wrapper w in
  scheduled_one_or_threw local_wrapper w (Returned (VPromise 0)) w1 /\
  exists w2,
    Spawn local_wrapper [VArray 1] w1
      = Done (ThrewTypeError "Bad argument, expected argv as an array of strings") w2 /\
    scheduled_one_or_threw local_wrapper w1
      (ThrewTypeError "Bad argument, expected argv as an array of strings") w2.
Proof.
  intros w w1.
  assert (forall w0 : World, arrays w0 = arrays w ->
            forall r elements, arrays w0 !! r = Some elements ->
                               (Z.of_nat (length elements) < UINT32_MOD)%Z) as Hv8.
  { intros w0 -> r elements Hl. cbn [arrays w world_with_array with_arrays empty_world] in Hl.
    apply lookup_insert_Some in Hl as [[_ <-]|[_ Hl]]; [reflexivity|].
    by rewrite lookup_empty in Hl. }
  destruct (@Init_registers x86_64 device_of_examples events_of_examples ∅ ∅)
    as (ctor & _ & Hruntime & _ & _ & _ & Hmethods).
  assert ((Init (H := x86_64) device_of_examples events_of_examples ∅ ∅).2
            !! DEVICE_DATA_CONSTRUCTOR = Some ctor) as Hctor
    by (rewrite Hruntime; apply lookup_insert_eq).
  split.
  - apply (@registered_methods_schedule_one_or_throw x86_64 device_of_examples
             events_of_examples ∅ ∅ ctor "kill" (Kill (H := x86_64)) local_wrapper
             [VNumber (S754_finite false 7 0)] w w1 (Returned (VPromise 0)) Hctor).
    + rewrite Hmethods. do 5 apply list_elem_of_further. apply list_elem_of_here.
    + by apply Hv8.
    + reflexivity.
  - destruct (Spawn local_wrapper [VArray 1] w1) as [c2 w2|] eqn:Hrun2;
      [|vm_compute in Hrun2; discriminate].
    destruct c2 as [v2|message]; [vm_compute in Hrun2; discriminate|].
    assert (message = "Bad argument, expected argv as an array of strings"%string) as ->.
    { vm_compute in Hrun2. by injection Hrun2 as <- _. }
    exists w2. split; [reflexivity|].
    apply (@registered_methods_schedule_one_or_throw x86_64 device_of_examples
             events_of_examples ∅ ∅ ctor "spawn" Spawn local_wrapper
             [VArray 1] w1 w2 _ Hctor).
    + rewrite Hmethods. do 3 apply list_elem_of_further. apply list_elem_of_here.
    + by apply Hv8.
    + exact Hrun2.
Defined.

(** X13.  Every accessor that [Init] registers on the instances is read
    only and has no setter.  A read that returns has returned a value: an
    accessor never throws.  It has not touched the heap, the host arrays,
    the environment or the scheduled operations, nor the reference count of
    the device; the reads of [id], [name] and [type] leave the whole world as
    it is, and the value of [id] is the number of the native id. *)
Theorem registered_accessors_only_read `{Platform}
    (device_at : positive -> FridaDevice) (Events_New : FridaDevice -> M Value)
    (exports : Exports) (runtime : Runtime) (ctor : FunctionTemplate)
    (accessor : Accessor) (self : Device) (w w' : World) (c : Completion) :
  (Init device_at Events_New exports runtime).2 !! DEVICE_DATA_CONSTRUCTOR = Some ctor ->
  accessor ∈ instance_accessors ctor ->
  accessor_getter accessor self w = Done c w' ->
  accessor_setter accessor = None /\
  accessor_ReadOnly accessor = true /\
  (exists v, c = Returned v) /\
  same_memory w w' /\
  refcount w' (device_object (handle_ self)) = refcount w (device_object (handle_ self)) /\
  (accessor_name accessor <> "icon"%string -> w' = w) /\
  (accessor_name accessor = "id"%string ->
   c = Returned (New_Uint32 (frida_device_get_id (handle_ self)))).
Proof.
  intros Hctor Haccessor Hrun.
  destruct (Init_registers device_at Events_New exports runtime)
    as (ctor' & _ & Hruntime & _ & _ & Haccessors & _).
  rewrite Hruntime, lookup_insert_eq in Hctor. injection Hctor as <-.
  rewrite Haccessors in Haccessor.
  repeat (apply elem_of_cons in Haccessor as [->|Haccessor]);
    cbn [accessor_getter accessor_setter accessor_ReadOnly accessor_name] in *.
  - injection Hrun as <- <-. split; [done|]. split; [done|]. split; [by eexists|].
    split; [apply same_memory_refl|]. by repeat split.
  - injection Hrun as <- <-. split; [done|]. split; [done|]. split; [by eexists|].
    split; [apply same_memory_refl|]. by repeat split.
  - split; [done|]. split; [done|].
    unfold GetIcon, Icon_New, bind, ret in Hrun.
    destruct (frida_device_get_icon (handle_ self)) as [a|].
    + destruct (Wrapper_New_run IconClass (FRIDA_TYPE_ICON, a) w)
        as (w1 & Hrun1 & Hmem1 & _ & Hrc1).
      rewrite Hrun1 in Hrun. injection Hrun as <- <-.
      split; [by eexists|]. split; [done|]. split; [|done].
      rewrite Hrc1. by rewrite decide_False.
    + injection Hrun as <- <-. split; [by eexists|].
      split; [apply same_memory_refl|]. done.
  - split; [done|]. split; [done|].
    unfold GetType, bind, ret, g_assert_not_reached, crash in Hrun.
    destruct (frida_device_get_dtype (handle_ self)); try discriminate;
      injection Hrun as <- <-; (split; [by eexists|]);
      (split; [apply same_memory_refl|]); by repeat split.
  - by apply elem_of_nil in Haccessor.
Qed.

Lemma registered_accessors_only_read_witness :
  GetId local_wrapper empty_world = Done (Returned (New_Uint32 0)) empty_world /\
  same_memory empty_world empty_world.
Proof.
  destruct (@Init_registers x86_64 device_of_examples events_of_examples ∅ ∅)
    as (ctor & _ & Hruntime & _ & _ & Haccessors & _).
  assert ((Init (H := x86_64) device_of_examples events_of_examples ∅ ∅).2
            !! DEVICE_DATA_CONSTRUCTOR = Some ctor) as Hctor
    by (rewrite Hruntime; apply lookup_insert_eq).
  destruct (@registered_accessors_only_read x86_64 device_of_examples events_of_examples
              ∅ ∅ ctor
              {| accessor_name := "id"; accessor_getter := GetId;
                 accessor_setter := None; accessor_ReadOnly := true |}
              local_wrapper empty_world empty_world
              (Returned (New_Uint32 0)) Hctor)
    as (_ & _ & _ & Hmem & _).
  - rewrite Haccessors. apply list_elem_of_here.
  - reflexivity.
  - split; [reflexivity|exact Hmem].
Defined.

(** ** The life of a spawn operation *)

(** X14.  From the call to the destruction, a spawn operation leaves no
    memory behind, whether the native call succeeds or fails.  The call on
    an array of strings schedules the operation; its native call is started
    with the copies of the strings and of the environment; the finish call
    then either leaves an error, and the future is rejected with the message
    of the error, or it returns a process id, and the future is fulfilled
    with that number; [End] changes nothing but the process id member, so
    that on both paths the destructor frees every block of the operation
    once, and the heap is the heap before the call. *)
Theorem Spawn_operation_life (self : Device) (r : positive) (rest : list Value)
    (strings : list string) (result : GAsyncResult Z) (w : World) :
  arrays w !! r = Some (string_element <$> strings) ->
  (Z.of_nat (length strings) + 1 < UINT32_MOD)%Z ->
  exists path argv envp blocks w1 w2 w3,
    let op := SpawnOperation path argv envp indeterminate in
    let call := frida_device_spawn (handle_ self) (c_str <$> head strings)
                  (c_str <$> strings) (Z.of_nat (length strings))
                  (c_str <$> environ w) (Z.of_nat (length (environ w))) in
    Spawn self (VArray r :: rest) w
      = Done (Returned (VPromise (length (operations w)))) w1 /\
    Begin (handle_ self) op w1 = Done tt w2 /\
    (End op result).1 = SpawnOperation path argv envp (assigned (finish_value result)) /\
    Finish op result w2
      = Done (match finish_error result with
              | Some e => Rejected (error_message e)
              | None => Fulfilled (New_Uint32 (finish_value result))
              end) w2 /\
    Operation_dtor (End op result).1 w2 = Done tt w3 /\
    heap w3 = heap w /\
    trace w3 = trace w1 ++ [EvBegin call] ++ (EvFree <$> blocks) /\
    NoDup blocks /\
    arrays w3 = arrays w /\ refcounts w3 = refcounts w /\ environ w3 = environ w.
Proof.
  intros Harray Hfits.
  destruct (Spawn_accepts self r rest strings w Harray Hfits)
    as (path & argv & envp & blocks & w1 & Hrun1 & Hops & Hcap & Hnew & Hframe
        & Harrays & Hrefs & Henv).
  pose proof (Begin_captured (handle_ self) _ _ _ indeterminate _ _ _ _ w1 Hcap) as Hbegin.
  rewrite !length_fmap in Hbegin.
  set (call := frida_device_spawn _ _ _ _ _ _) in Hbegin.
  set (w2 := emit (EvBegin call) w1) in Hbegin.
  assert (captured (heap w2) path argv envp blocks
            (c_str <$> head strings) (c_str <$> strings) (c_str <$> environ w)) as Hcap2
    by exact Hcap.
  destruct (Operation_dtor_captured _ _ _ (assigned (finish_value result)) _ _ _ _ _ Hcap2)
    as (w3 & Hdtor & Hheap & (Ha3 & Hr3 & He3 & _) & Htr).
  exists path, argv, envp, blocks, w1, w2, w3. cbv zeta.
  split; [done|]. split; [done|]. split; [done|]. split.
  { destruct result as [value [e|]]; reflexivity. }
  split; [done|]. split.
  { apply map_eq. intros x. rewrite Hheap. case_decide as Hx.
    - symmetry. by apply Hnew.
    - by apply Hframe. }
  split; [rewrite Htr; subst w2; cbn [trace emit]; by rewrite <- app_assoc|].
  split; [by destruct Hcap as (? & ? & ? & ? & ? & ? & ? & ? & ? & ? & ?)|].
  subst w2. cbn [arrays refcounts environ emit] in Ha3, Hr3, He3.
  by rewrite Ha3, Hr3, He3.
Qed.

Lemma Spawn_operation_life_witness :
  let w := world_with_array [VString "/bin/true"] in
  let failed := {| finish_value := 0%Z;
                   finish_error := Some {| error_message := "Unable to find executable" |} |} in
  exists path argv envp w1 w2 w3,
    Spawn local_wrapper [VArray 1] w = Done (Returned (VPromise 0)) w1 /\
    Begin local_system (SpawnOperation path argv envp indeterminate) w1 = Done tt w2 /\
    Finish (SpawnOperation path argv envp indeterminate) failed w2
      = Done (Rejected "Unable to find executable") w2 /\
    Operation_dtor (End (SpawnOperation path argv envp indeterminate) failed).1 w2
      = Done tt w3 /\
    heap w3 = heap w.
Proof.
  intros w failed.
  destruct (Spawn_operation_life local_wrapper 1%positive [] ["/bin/true"%string] failed w)
    as (path & argv & envp & blocks & w1 & w2 & w3
        & Hrun & Hbegin & _ & Hfinish & Hdtor & Hheap & _).
  - apply lookup_insert_eq.
  - reflexivity.
  - exists path, argv, envp, w1, w2, w3. by repeat split.
Defined.

(** ** From the method to the native call *)

Lemma plain_operation_runs_safely (handle : FridaDevice) (op : Operation) (w : World) :
  match op with SpawnOperation _ _ _ _ => False | _ => True end ->
  runs_safely handle op (heap w) w.
Proof.
  intros Hplain. destruct op; try done; eexists; (split; [reflexivity|]);
    (split; [reflexivity|]); intros result; eexists; split; reflexivity.
Qed.

Lemma pid_method_returned `{Platform} (self : Device) (info : list Value)
    (w w' : World) (v : Value) :
  (Resume self info w = Done (Returned v) w' ->
   exists pid, w' = scheduled (ResumeOperation pid) self w) /\
  (Kill self info w = Done (Returned v) w' ->
   exists pid, w' = scheduled (KillOperation pid) self w) /\
  (Attach self info w = Done (Returned v) w' ->
   exists pid, w' = scheduled (AttachOperation pid indeterminate) self w).
Proof.
  unfold Resume, Kill, Attach.
  destruct (_ || _); [repeat split; discriminate|].
  destruct (_ <=? 0)%Z; [repeat split; discriminate|].
  repeat split; intros Hrun; rewrite schedule_and_return_run in Hrun;
    injection Hrun as _ <-; by eexists.
Qed.

(** X15.  Every operation that a registered method schedules can be started
    and destroyed without a fault.  When a call of a method returns a
    promise, the operation it has scheduled on the wrapper is such that its
    [Begin] starts exactly one native call, on the device of that wrapper,
    and does nothing else; and whatever the finish call then returns, the
    destructor of the operation runs and leaves the heap as it was before
    the method was called. *)
Theorem scheduled_operations_run_safely `{Platform}
    (device_at : positive -> FridaDevice) (Events_New : FridaDevice -> M Value)
    (exports : Exports) (runtime : Runtime) (ctor : FunctionTemplate)
    (name : string) (method : Device -> list Value -> M Completion)
    (self : Device) (info : list Value) (w w' : World) (v : Value) :
  (Init device_at Events_New exports runtime).2 !! DEVICE_DATA_CONSTRUCTOR = Some ctor ->
  (name, method) ∈ prototype_methods ctor ->
  (forall r elements, arrays w !! r = Some elements ->
                      (Z.of_nat (length elements) < UINT32_MOD)%Z) ->
  method self info w = Done (Returned v) w' ->
  exists op,
    operations w'
      = operations w ++ [{| scheduled_operation := op; scheduled_wrapper := self |}] /\
    runs_safely (handle_ self) op (heap w) w'.
Proof.
  intros Hctor Hmethod Hv8 Hrun.
  destruct (Init_registers device_at Events_New exports runtime)
    as (ctor' & _ & Hruntime & _ & _ & _ & Hmethods).
  rewrite Hruntime, lookup_insert_eq in Hctor. injection Hctor as <-.
  rewrite Hmethods in Hmethod.
  assert (forall op, match op with SpawnOperation _ _ _ _ => False | _ => True end ->
            w' = scheduled op self w ->
            exists op,
              operations w'
                = operations w ++ [{| scheduled_operation := op;
                                      scheduled_wrapper := self |}] /\
              runs_safely (handle_ self) op (heap w) w') as Hplain.
  { intros op Hop ->. exists op. split; [done|].
    exact (plain_operation_runs_safely (handle_ self) op (scheduled op self w) Hop). }
  repeat (apply elem_of_cons in Hmethod as [Hmethod|Hmethod];
          [injection Hmethod as -> ->|]).
  - unfold GetFrontmostApplication in Hrun. rewrite schedule_and_return_run in Hrun.
    injection Hrun as _ Hw. by apply (Hplain (GetFrontmostApplicationOperation indeterminate)).
  - unfold EnumerateApplications in Hrun. rewrite schedule_and_return_run in Hrun.
    injection Hrun as _ Hw. by apply (Hplain (EnumerateApplicationsOperation indeterminate)).
  - unfold EnumerateProcesses in Hrun. rewrite schedule_and_return_run in Hrun.
    injection Hrun as _ Hw. by apply (Hplain (EnumerateProcessesOperation indeterminate)).
  - destruct (Spawn_returned self info w w' v Hv8 Hrun)
      as (r & rest & strings & -> & Harray & Hfits).
    destruct (Spawn_accepts self r rest strings w Harray Hfits)
      as (path & argv & envp & blocks & w1 & Hrun1 & Hops & Hcap & Hnew & Hframe & _).
    rewrite Hrun1 in Hrun. injection Hrun as _ <-.
    exists (SpawnOperation path argv envp indeterminate). split; [done|].
    pose proof (Begin_captured (handle_ self) _ _ _ indeterminate _ _ _ _ _ Hcap) as Hbegin.
    set (call := frida_device_spawn _ _ _ _ _ _) in Hbegin.
    exists call. split; [exact Hbegin|]. split; [reflexivity|]. intros result.
    destruct (Operation_dtor_captured path argv envp (assigned (finish_value result))
                blocks _ _ _ (emit (EvBegin call) w1) Hcap)
      as (w3 & Hdtor & Hheap & _).
    exists w3. split; [exact Hdtor|].
    apply map_eq. intros x. rewrite Hheap. case_decide as Hx.
    + symmetry. by apply Hnew.
    + by apply Hframe.
  - destruct (proj1 (pid_method_returned self info w w' v) Hrun) as [pid Hw].
    by apply (Hplain (ResumeOperation pid)).
  - destruct (proj1 (proj2 (pid_method_returned self info w w' v)) Hrun) as [pid Hw].
    by apply (Hplain (KillOperation pid)).
  - destruct (proj2 (proj2 (pid_method_returned self info w w' v)) Hrun) as [pid Hw].
    by apply (Hplain (AttachOperation pid indeterminate)).
  - by apply elem_of_nil in Hmethod.
Qed.

Lemma scheduled_operations_run_safely_witness :
  let w := world_with_array [VString "/bin/true"] in
  exists w' op,
    Spawn local_wrapper [VArray 1] w = Done (Returned (VPromise 0)) w' /\
    operations w' = [{| scheduled_operation := op; scheduled_wrapper := local_wrapper |}] /\
    runs_safely local_system op (heap w) w'.
Proof.
  intros w.
  destruct (@Init_registers x86_64 device_of_examples events_of_examples ∅ ∅)
    as (ctor & _ & Hruntime & _ & _ & _ & Hmethods).
  assert ((Init (H := x86_64) device_of_examples events_of_examples ∅ ∅).2
            !! DEVICE_DATA_CONSTRUCTOR = Some ctor) as Hctor
    by (rewrite Hruntime; apply lookup_insert_eq).
  destruct (Spawn local_wrapper [VArray 1] w) as [c w'|] eqn:Hrun;
    [|vm_compute in Hrun; discriminate].
  destruct c as [v|]; [|vm_compute in Hrun; discriminate].
  assert (v = VPromise 0) as ->.
  { vm_compute in Hrun. by injection Hrun as <- _. }
  destruct (@scheduled_operations_run_safely x86_64 device_of_examples events_of_examples
              ∅ ∅ ctor "spawn" Spawn local_wrapper [VArray 1] w w' (VPromise 0) Hctor)
    as (op & Hops & Hsafe).
  - rewrite Hmethods. do 3 apply list_elem_of_further. apply list_elem_of_here.
  - intros r elements Hl. cbn [arrays w world_with_array with_arrays empty_world] in Hl.
    apply lookup_insert_Some in Hl as [[_ <-]|[_ Hl]]; [reflexivity|].
    by rewrite lookup_empty in Hl.
  - exact Hrun.
  - exists w', op. split; [reflexivity|]. split; [exact Hops|exact Hsafe].
Defined.
